(** * ParcelFinder: land parcels and their perimeters

    A shallow embedding of [src/ParcelFinder.js] (the CommonJS module
    exporting [render]) and of [src/ParcelFinder.ts] (the class
    [ParcelFinder] with [computeParcelPerimeters]), together with the
    properties of the connected-component tracer.

    Modelling conventions.
    - A JavaScript string is the list of its UTF-16 code units.
    - Numbers are integers ([Z]).  Grid indices, bounds and counters are
      small integers, exact as doubles.  [parseInt] of a long run of digits
      returns a rounded double, but the result is only compared with 99
      before any other use: rounding is monotone and keeps the integers up
      to 2^53, so the comparison agrees with the exact integer, and a value
      that passes it is exact.
    - The occupancy grid is an array of arrays: [list (list Z)].  Reading or
      writing outside the allocated rows and columns is reported as the
      fault [IndexOutOfBounds] instead of JavaScript's behaviour
      (a [TypeError] on a missing row, [undefined] or a silently grown
      array on a missing column).
    - The [Set] of strings [[x, y].join(' ')] is a finite set of pairs of
      integers: joining two integers with a space is injective.
    - The work stack is a list whose head is the top of the stack.
    - The [while] loop of [traceParcel] is run with fuel; running out of
      fuel is the fault [OutOfFuel]. *)

From Stdlib Require Import ZArith NArith Lia Ascii String List.
From stdpp Require Import base tactics option list sets gmap numbers relations sorting.
From stdpp Require Import strings pretty.

Local Open Scope Z_scope.

(** ** Outcomes of a call *)

Inductive exn :=
  | TypeError (msg : string)
  | RangeError (msg : string)
  | IndexOutOfBounds
  | OutOfFuel.

Inductive result (A : Type) :=
  | Ok (a : A)
  | Err (e : exn).
Arguments Ok {A} a.
Arguments Err {A} e.

#[global] Instance result_ret : MRet result := λ A a, Ok a.
#[global] Instance result_bind : MBind result := λ A B f m,
  match m with Ok a => f a | Err e => Err e end.

(** [arr.forEach(f)] where [f] may throw and updates an accumulator. *)
Fixpoint forEach {A S : Type} (f : S → A → result S) (l : list A) (s : S) : result S :=
  match l with
  | [] => Ok s
  | a :: l' => s' ← f s a; forEach f l' s'
  end.

(** [for (let i = lo; i < lo + n; i++) body] *)
Fixpoint for_range {S : Type} (n : nat) (lo : Z) (body : Z → S → result S) (s : S) : result S :=
  match n with
  | O => Ok s
  | S n' => s' ← body lo s; for_range n' (lo + 1) body s'
  end.

(** ** Strings *)

Abbreviation jsstring := (list N).

(** The code units of an ASCII literal. *)
Definition js (s : string) : jsstring := N_of_ascii <$> list_ascii_of_string s.

Definition dquote : string := String (ascii_of_nat 34) EmptyString.

Definition TYPE_ERROR_MSG : string :=
  ("Point coordinates must be an array of strings in the form " ++ dquote ++ "x,y" ++ dquote)%string.
Definition RANGE_ERROR_MSG : string :=
  "Point coordinates values must be in the range 0 to 99"%string.
Definition MAX_VALUE : Z := 99.

(** [\d] *)
Definition is_digit (c : N) : bool := ((48 <=? c) && (c <=? 57))%N.

(** [\s]: white space and line terminators of ECMAScript. *)
Definition is_space (c : N) : bool :=
  ((c =? 9) || (c =? 10) || (c =? 11) || (c =? 12) || (c =? 13) || (c =? 32)
   || (c =? 160) || (c =? 5760) || ((8192 <=? c) && (c <=? 8202))
   || (c =? 8232) || (c =? 8233) || (c =? 8239) || (c =? 8287)
   || (c =? 12288) || (c =? 65279))%N.

Definition comma : N := 44%N.

Fixpoint take_while (p : N → bool) (s : jsstring) : jsstring :=
  match s with
  | c :: s' => if p c then c :: take_while p s' else []
  | [] => []
  end.

Fixpoint drop_while (p : N → bool) (s : jsstring) : jsstring :=
  match s with
  | c :: s' => if p c then drop_while p s' else s
  | [] => []
  end.

(** [point.match(/^(\d+)\s*,\s*(\d+)$/)]: the two captured groups, or
    [None] for [null].  The three character classes are pairwise disjoint,
    so the greedy match is the only candidate. *)
Definition match_point (s : jsstring) : option (jsstring * jsstring) :=
  let d1 := take_while is_digit s in
  match d1 with
  | [] => None
  | _ =>
    match drop_while is_space (drop_while is_digit s) with
    | c :: r =>
      if (c =? comma)%N then
        let r' := drop_while is_space r in
        let d2 := take_while is_digit r' in
        match d2, drop_while is_digit r' with
        | _ :: _, [] => Some (d1, d2)
        | _, _ => None
        end
      else None
    | [] => None
    end
  end.

(** The language of the regular expression, read off its syntax. *)
Definition all_digits (s : jsstring) : Prop := Forall (λ c, is_digit c = true) s.
Definition all_spaces (s : jsstring) : Prop := Forall (λ c, is_space c = true) s.

Definition regex_matches (s d1 d2 : jsstring) : Prop :=
  ∃ w1 w2, s = d1 ++ w1 ++ comma :: w2 ++ d2
    ∧ d1 ≠ [] ∧ d2 ≠ [] ∧ all_digits d1 ∧ all_digits d2
    ∧ all_spaces w1 ∧ all_spaces w2.

(** The pattern as the specification words it:
    optional-whitespace digits optional-whitespace , optional-whitespace digits. *)
Definition spec_pattern (s : jsstring) : Prop :=
  ∃ w0 d1 w1 w2 d2, s = w0 ++ d1 ++ w1 ++ comma :: w2 ++ d2
    ∧ d1 ≠ [] ∧ d2 ≠ [] ∧ all_digits d1 ∧ all_digits d2
    ∧ all_spaces w0 ∧ all_spaces w1 ∧ all_spaces w2.

(** [parseInt(s, 10)] on a non-empty string of decimal digits: the exact
    integer (leading zeros allowed). *)
Definition parseInt (s : jsstring) : Z :=
  fold_left (λ acc c, 10 * acc + (Z.of_N c - 48)) s 0.

(** ** Grid *)

Abbreviation cell := (Z * Z)%type.
Abbreviation Grid := (list (list Z)).

(** Truthiness of a number. *)
Definition truthy (v : Z) : bool := negb (v =? 0).

(** [grid[x][y]] *)
Definition grid_get (g : Grid) (c : cell) : result Z :=
  if decide (0 ≤ c.1 ∧ 0 ≤ c.2) then
    match g !! Z.to_nat c.1 with
    | Some row =>
      match row !! Z.to_nat c.2 with
      | Some v => Ok v
      | None => Err IndexOutOfBounds
      end
    | None => Err IndexOutOfBounds
    end
  else Err IndexOutOfBounds.

(** [grid[x][y] = v] *)
Definition grid_set (g : Grid) (c : cell) (v : Z) : result Grid :=
  if decide (0 ≤ c.1 ∧ 0 ≤ c.2) then
    match g !! Z.to_nat c.1 with
    | Some row =>
      if decide (Z.to_nat c.2 < length row)%nat
      then Ok (<[Z.to_nat c.1 := <[Z.to_nat c.2 := v]> row]> g)
      else Err IndexOutOfBounds
    | None => Err IndexOutOfBounds
    end
  else Err IndexOutOfBounds.

(** [createEmptyGrid(x, y)]: [x + 1] fresh rows of [y + 1] zeros. *)
Definition createEmptyGrid (x y : Z) : Grid :=
  replicate (Z.to_nat (x + 1)) (replicate (Z.to_nat (y + 1)) 0).

(** Fuel for the work-list loop of one trace over a grid with the given
    bounds: five units per cell and two to spare. *)
Definition trace_fuel (maxX maxY : Z) : nat :=
  Z.to_nat (5 * ((maxX + 1) * (maxY + 1)) + 2).

(** ** [src/ParcelFinder.js] *)

Module JS.

(** An element of the [points] array: a string, or a value of another
    type (only its not being a string matters). *)
Inductive value :=
  | VString (s : jsstring)
  | VNumber (n : Z).

Record GridData := { grid : Grid; maxX : Z; maxY : Z }.

Record ParseAcc := { parsedPoints : list cell; accMaxX : Z; accMaxY : Z }.

(** The checks of the first [forEach] callback of [parsePoints] on one
    element, up to the point where the pair [x, y] is known. *)
Definition parsePoint (point : value) : result cell :=
  match point with
  | VNumber _ => Err (TypeError TYPE_ERROR_MSG)
  | VString s =>
    match match_point s with
    | None => Err (TypeError TYPE_ERROR_MSG)
    | Some (c1, c2) =>
      let x := parseInt c1 in
      let y := parseInt c2 in
      if (x >? MAX_VALUE) || (y >? MAX_VALUE)
      then Err (RangeError RANGE_ERROR_MSG)
      else Ok (x, y)
    end
  end.

Definition parse_step (acc : ParseAcc) (point : value) : result ParseAcc :=
  p ← parsePoint point;
  Ok {| parsedPoints := parsedPoints acc ++ [p];
        accMaxX := Z.max (accMaxX acc) p.1;
        accMaxY := Z.max (accMaxY acc) p.2 |}.

Definition parsePoints (points : list value) : result GridData :=
  acc ← forEach parse_step points
          {| parsedPoints := []; accMaxX := -1; accMaxY := -1 |};
  g ← forEach (λ g p, grid_set g p 1) (parsedPoints acc)
        (createEmptyGrid (accMaxX acc) (accMaxY acc));
  Ok {| grid := g; maxX := accMaxX acc; maxY := accMaxY acc |}.

Record TraceState :=
  { t_grid : Grid; seen : gset cell; stack : list cell; openEdges : Z }.

Definition hasBeenSeen (seen : gset cell) (c : cell) : bool :=
  bool_decide (c ∈ seen).

Definition isNewNeighbour (g : Grid) (seen : gset cell) (c : cell) : result bool :=
  v ← grid_get g c;
  Ok (truthy v && negb (hasBeenSeen seen c)).

(** One of the four [if (bound && isNewNeighbour(n)) push(n) else if
    (!hasBeenSeen(n)) openEdges++] statements, acting on the stack and the
    counter. *)
Definition look (g : Grid) (seen : gset cell) (bound : bool) (n : cell)
    (so : list cell * Z) : result (list cell * Z) :=
  isNew ← (if bound then isNewNeighbour g seen n else Ok false);
  if (isNew : bool) then Ok (n :: so.1, so.2)
  else if negb (hasBeenSeen seen n) then Ok (so.1, so.2 + 1)
  else Ok so.

Fixpoint trace_loop (fuel : nat) (maxX maxY : Z) (st : TraceState)
    : result TraceState :=
  match stack st with
  | [] => Ok st
  | p :: rest =>
    match fuel with
    | O => Err OutOfFuel
    | S fuel' =>
      g ← grid_set (t_grid st) p 0;
      if negb (hasBeenSeen (seen st) p) then
        so ← look g (seen st) (p.1 >? 0) (p.1 - 1, p.2) (rest, openEdges st);
        so ← look g (seen st) (p.1 <? maxX) (p.1 + 1, p.2) so;
        so ← look g (seen st) (p.2 >? 0) (p.1, p.2 - 1) so;
        so ← look g (seen st) (p.2 <? maxY) (p.1, p.2 + 1) so;
        trace_loop fuel' maxX maxY
          {| t_grid := g; seen := {[ p ]} ∪ seen st;
             stack := so.1; openEdges := so.2 |}
      else
        trace_loop fuel' maxX maxY
          {| t_grid := g; seen := seen st;
             stack := rest; openEdges := openEdges st |}
    end
  end.

(** [traceParcel(grid, x, y, maxX, maxY)]: the count of open edges and the
    grid as the trace leaves it. *)
Definition traceParcel (g : Grid) (x y maxX maxY : Z) : result (Z * Grid) :=
  st ← trace_loop (trace_fuel maxX maxY) maxX maxY
         {| t_grid := g; seen := ∅; stack := [(x, y)]; openEdges := 0 |};
  Ok (openEdges st, t_grid st).

Definition scan_cell (maxX maxY x y : Z) (s : list Z * Grid)
    : result (list Z * Grid) :=
  v ← grid_get s.2 (x, y);
  if truthy v then
    r ← traceParcel s.2 x y maxX maxY;
    Ok (s.1 ++ [r.1], r.2)
  else Ok s.

(** [findParcels(grid, maxX, maxY)]: the perimeters and the grid as the
    scan leaves it. *)
Definition findParcels (g : Grid) (maxX maxY : Z) : result (list Z * Grid) :=
  for_range (Z.to_nat (maxX + 1)) 0
    (λ x, for_range (Z.to_nat (maxY + 1)) 0 (scan_cell maxX maxY x))
    ([], g).

Definition render (points : list value) : result (list Z) :=
  match points with
  | [] => Ok []
  | _ =>
    gd ← parsePoints points;
    r ← findParcels (grid gd) (maxX gd) (maxY gd);
    Ok r.1
  end.

Definition strs (l : list string) : list value := (λ s, VString (js s)) <$> l.

End JS.

(** ** [src/ParcelFinder.ts] *)

Module TS.

Record IPoint := { x : Z; y : Z }.

Record IGrid := { grid : Grid; maxX : Z; maxY : Z }.

Record ParseAcc := { parsedPoints : list IPoint; accMaxX : Z; accMaxY : Z }.

(** The checks of the first [forEach] callback of [parsePoints] on one
    element, up to the point where [gridPoint] is known to be in range. *)
Definition parsePoint (point : jsstring) : result IPoint :=
  match match_point point with
  | None => Err (TypeError TYPE_ERROR_MSG)
  | Some (c1, c2) =>
    let gridPoint := {| x := parseInt c1; y := parseInt c2 |} in
    if (x gridPoint >? MAX_VALUE) || (y gridPoint >? MAX_VALUE)
    then Err (RangeError RANGE_ERROR_MSG)
    else Ok gridPoint
  end.

Definition parse_step (acc : ParseAcc) (point : jsstring) : result ParseAcc :=
  gridPoint ← parsePoint point;
  Ok {| parsedPoints := parsedPoints acc ++ [gridPoint];
        accMaxX := Z.max (accMaxX acc) (x gridPoint);
        accMaxY := Z.max (accMaxY acc) (y gridPoint) |}.

Definition parsePoints (points : list jsstring) : result IGrid :=
  acc ← forEach parse_step points
          {| parsedPoints := []; accMaxX := -1; accMaxY := -1 |};
  g ← forEach (λ g point, grid_set g (x point, y point) 1) (parsedPoints acc)
        (createEmptyGrid (accMaxX acc) (accMaxY acc));
  Ok {| grid := g; maxX := accMaxX acc; maxY := accMaxY acc |}.

Record TraceState :=
  { gridData : IGrid; seen : gset cell; stack : list IPoint; openEdges : Z }.

Definition hasNotBeenSeen (seen : gset cell) (x y : Z) : bool :=
  negb (bool_decide ((x, y) ∈ seen)).

Definition isNewNeighbour (gd : IGrid) (seen : gset cell) (x y : Z) : result bool :=
  v ← grid_get (grid gd) (x, y);
  Ok (truthy v && hasNotBeenSeen seen x y).

(** One of the four [if (bound && isNewNeighbour(nx, ny)) push({x: nx, y: ny})
    else if (hasNotBeenSeen(nx, ny)) openEdges++] statements. *)
Definition look (gd : IGrid) (seen : gset cell) (bound : bool) (nx ny : Z)
    (so : list IPoint * Z) : result (list IPoint * Z) :=
  isNew ← (if bound then isNewNeighbour gd seen nx ny else Ok false);
  if (isNew : bool) then Ok ({| x := nx; y := ny |} :: so.1, so.2)
  else if hasNotBeenSeen seen nx ny then Ok (so.1, so.2 + 1)
  else Ok so.

Fixpoint trace_loop (fuel : nat) (st : TraceState) : result TraceState :=
  match stack st with
  | [] => Ok st
  | evaluatedPoint :: rest =>
    match fuel with
    | O => Err OutOfFuel
    | S fuel' =>
      g ← grid_set (grid (gridData st)) (x evaluatedPoint, y evaluatedPoint) 0;
      let gd := {| grid := g; maxX := maxX (gridData st); maxY := maxY (gridData st) |} in
      if hasNotBeenSeen (seen st) (x evaluatedPoint) (y evaluatedPoint) then
        so ← look gd (seen st) (x evaluatedPoint >? 0)
               (x evaluatedPoint - 1) (y evaluatedPoint) (rest, openEdges st);
        so ← look gd (seen st) (x evaluatedPoint <? maxX gd)
               (x evaluatedPoint + 1) (y evaluatedPoint) so;
        so ← look gd (seen st) (y evaluatedPoint >? 0)
               (x evaluatedPoint) (y evaluatedPoint - 1) so;
        so ← look gd (seen st) (y evaluatedPoint <? maxY gd)
               (x evaluatedPoint) (y evaluatedPoint + 1) so;
        trace_loop fuel'
          {| gridData := gd;
             seen := {[ (x evaluatedPoint, y evaluatedPoint) ]} ∪ seen st;
             stack := so.1; openEdges := so.2 |}
      else
        trace_loop fuel'
          {| gridData := gd; seen := seen st;
             stack := rest; openEdges := openEdges st |}
    end
  end.

(** [traceParcel(gridData, pX, pY)]: the count of open edges and the grid
    data as the trace leaves it. *)
Definition traceParcel (gd : IGrid) (pX pY : Z) : result (Z * IGrid) :=
  st ← trace_loop (trace_fuel (maxX gd) (maxY gd))
         {| gridData := gd; seen := ∅;
            stack := [ {| x := pX; y := pY |} ]; openEdges := 0 |};
  Ok (openEdges st, gridData st).

Definition scan_cell (x y : Z) (s : list Z * IGrid) : result (list Z * IGrid) :=
  v ← grid_get (grid s.2) (x, y);
  if truthy v then
    r ← traceParcel s.2 x y;
    Ok (s.1 ++ [r.1], r.2)
  else Ok s.

(** [findParcels(gridData)]: the perimeters and the grid data as the scan
    leaves it.  The loop bounds [gridData.maxX] and [gridData.maxY] are
    never assigned, so they are read once. *)
Definition findParcels (gd : IGrid) : result (list Z * IGrid) :=
  for_range (Z.to_nat (maxX gd + 1)) 0
    (λ x, for_range (Z.to_nat (maxY gd + 1)) 0 (scan_cell x))
    ([], gd).

Definition computeParcelPerimeters (points : list jsstring) : result (list Z) :=
  match points with
  | [] => Ok []
  | _ =>
    gd ← parsePoints points;
    r ← findParcels gd;
    Ok r.1
  end.

End TS.

(** ** Parcels and perimeters *)

(** The four axis-aligned neighbours, in the order the tracer looks at
    them: left, right, down, up. *)
Definition neighbours (c : cell) : list cell :=
  [(c.1 - 1, c.2); (c.1 + 1, c.2); (c.1, c.2 - 1); (c.1, c.2 + 1)].

(** 4-directional adjacency. *)
Definition adjacent (a b : cell) : Prop := b ∈ neighbours a.

(** One step to an adjacent occupied cell. *)
Definition step_in (O : gset cell) (a b : cell) : Prop := adjacent a b ∧ b ∈ O.

(** [b] can be reached from the occupied cell [a] through occupied cells. *)
Definition connected (O : gset cell) (a b : cell) : Prop :=
  a ∈ O ∧ rtc (step_in O) a b.

(** [C] is the maximal 4-connected set of occupied cells around [c]. *)
Definition is_component (O : gset cell) (c : cell) (C : gset cell) : Prop :=
  c ∈ O ∧ ∀ b, b ∈ C ↔ connected O c b.

(** A parcel: a maximal 4-connected set of occupied cells. *)
Definition is_parcel (O C : gset cell) : Prop := ∃ c, is_component O c C.

(** [1] when the proposition holds, [0] otherwise. *)
Definition ind (P : Prop) `{Decision P} : nat := if decide P then 1%nat else 0%nat.

(** [1] when the edge towards [n] is open: [n] is not an occupied cell. *)
Definition open_edge (O : gset cell) (n : cell) : nat :=
  if decide (n ∈ O) then 0%nat else 1%nat.

(** The number of edges of [c] that face a cell outside [O] (an
    unoccupied cell, or a position outside the grid). *)
Definition open_edges (O : gset cell) (c : cell) : nat :=
  length (filter (λ n, n ∉ O) (neighbours c)).

(** The perimeter of a set of cells [C] among the occupied cells [O]. *)
Definition perimeter (O C : gset cell) : nat :=
  sum_list_with (open_edges O) (elements C).

(** The number of neighbours of [p] that lie in [S]: the edges [p] shares
    with [S]. *)
Definition shared (S : gset cell) (p : cell) : nat :=
  length (filter (λ n, n ∈ S) (neighbours p)).

(** The scan order: [x] ascending, then [y] ascending. *)
Definition lex_lt (a b : cell) : Prop := a.1 < b.1 ∨ (a.1 = b.1 ∧ a.2 < b.2).

(** [c] is the first cell of [C] in the scan order. *)
Definition least (C : gset cell) (c : cell) : Prop :=
  c ∈ C ∧ ∀ b, b ∈ C → b = c ∨ lex_lt c b.

(** A straight run of [n] cells from [(x0, y0)], along [x] or along [y]. *)
Inductive orientation := Horizontal | Vertical.

Definition run_cell (o : orientation) (x0 y0 : Z) (i : nat) : cell :=
  match o with
  | Horizontal => (x0 + Z.of_nat i, y0)
  | Vertical => (x0, y0 + Z.of_nat i)
  end.

Definition run (o : orientation) (x0 y0 : Z) (n : nat) : list cell :=
  run_cell o x0 y0 <$> seq 0 n.

(** ** Grids against sets of occupied cells *)

(** The grid has [mx + 1] rows of [my + 1] cells. *)
Definition wf_grid (mx my : Z) (g : Grid) : Prop :=
  length g = Z.to_nat (mx + 1) ∧ Forall (λ row, length row = Z.to_nat (my + 1)) g.

(** The cell lies within [0..mx] x [0..my]. *)
Definition inb (mx my : Z) (c : cell) : Prop :=
  (0 ≤ c.1 ≤ mx) ∧ (0 ≤ c.2 ≤ my).

(** The cell is inside the grid and holds a truthy value. *)
Definition occ (g : Grid) (c : cell) : bool :=
  match grid_get g c with
  | Ok v => truthy v
  | Err _ => false
  end.

(** The occupied cells of the grid [g] are exactly the set [O]. *)
Definition repr (mx my : Z) (g : Grid) (O : gset cell) : Prop :=
  wf_grid mx my g ∧ ∀ c, c ∈ O ↔ occ g c = true.

(** Every index pair of a grid with bounds [mx] and [my]. *)
Definition all_cells (mx my : Z) : list cell :=
  cprod (seqZ 0 (mx + 1)) (seqZ 0 (my + 1)).

(** The occupied cells of a grid. *)
Definition occupied (mx my : Z) (g : Grid) : gset cell :=
  list_to_set (filter (λ c, occ g c = true) (all_cells mx my)).

(** ** The state of a trace *)

(** What holds of the work-list loop each time its condition is tested,
    for a trace started at [c0] over the occupied cells [O]: the grid
    holds the occupied cells not yet seen; seen and stacked cells are
    connected to [c0]; every occupied neighbour of a seen cell is seen or
    stacked; the counter is the perimeter of the seen cells. *)
Record trace_inv (mx my : Z) (O : gset cell) (c0 : cell) (st : JS.TraceState) : Prop :=
  { inv_repr : repr mx my (JS.t_grid st) (O ∖ JS.seen st);
    inv_seen : ∀ s, s ∈ JS.seen st → connected O c0 s;
    inv_stack : ∀ k, k ∈ JS.stack st → connected O c0 k;
    inv_closed : ∀ s n, s ∈ JS.seen st → adjacent s n → n ∈ O →
                   n ∈ JS.seen st ∨ n ∈ JS.stack st;
    inv_start : c0 ∈ JS.seen st ∨ c0 ∈ JS.stack st;
    inv_edges : JS.openEdges st = Z.of_nat (perimeter O (JS.seen st)) }.

(** The loop's variant. *)
Definition trace_measure (O : gset cell) (st : JS.TraceState) : nat :=
  (5 * size (O ∖ JS.seen st) + length (JS.stack st))%nat.

(** The neighbour [n] is pushed when it is occupied and not yet seen. *)
Definition push_new (O S : gset cell) (n : cell) (K : list cell) : list cell :=
  if decide (n ∈ O ∖ S) then n :: K else K.

(** ** The state of a scan *)

(** The perimeters emitted for a list of parcels, each recorded with the
    cell at which the scan discovered it. *)
Definition perimeters_of (O : gset cell) (found : list (cell * gset cell)) : list Z :=
  (λ sc, Z.of_nat (perimeter O sc.2)) <$> found.

(** What holds of [findParcels] when the scan is about to test the cell
    [pos], having found the parcels [found]: the grid holds the occupied
    cells outside the parcels found; each parcel found is a component,
    recorded with its least cell, which the scan has passed; the least
    cells are increasing; every occupied cell the scan has passed lies in
    a parcel found. *)
Record scan_inv (mx my : Z) (O : gset cell) (pos : cell)
    (found : list (cell * gset cell)) (s : list Z * Grid) : Prop :=
  { scan_repr : repr mx my s.2 (O ∖ ⋃ (found.*2));
    scan_perims : s.1 = perimeters_of O found;
    scan_comps : Forall (λ sc, is_component O sc.1 sc.2 ∧ least sc.2 sc.1
                               ∧ lex_lt sc.1 pos) found;
    scan_sorted : StronglySorted lex_lt found.*1;
    scan_covered : ∀ c, c ∈ O → lex_lt c pos → c ∈ ⋃ (found.*2) }.

(** ** From the JavaScript data to the TypeScript data *)

#[global] Instance result_fmap : FMap result := λ A B f m,
  match m with Ok a => Ok (f a) | Err e => Err e end.

Definition to_ipoint (c : cell) : TS.IPoint := {| TS.x := c.1; TS.y := c.2 |}.

Definition to_acc (a : JS.ParseAcc) : TS.ParseAcc :=
  {| TS.parsedPoints := to_ipoint <$> JS.parsedPoints a;
     TS.accMaxX := JS.accMaxX a; TS.accMaxY := JS.accMaxY a |}.

Definition to_igrid (gd : JS.GridData) : TS.IGrid :=
  {| TS.grid := JS.grid gd; TS.maxX := JS.maxX gd; TS.maxY := JS.maxY gd |}.

Definition to_so (so : list cell * Z) : list TS.IPoint * Z :=
  (to_ipoint <$> so.1, so.2).

Definition to_state (mx my : Z) (st : JS.TraceState) : TS.TraceState :=
  {| TS.gridData := {| TS.grid := JS.t_grid st; TS.maxX := mx; TS.maxY := my |};
     TS.seen := JS.seen st;
     TS.stack := to_ipoint <$> JS.stack st;
     TS.openEdges := JS.openEdges st |}.

Definition to_traced (mx my : Z) (r : Z * Grid) : Z * TS.IGrid :=
  (r.1, {| TS.grid := r.2; TS.maxX := mx; TS.maxY := my |}).

Definition to_scan (mx my : Z) (s : list Z * Grid) : list Z * TS.IGrid :=
  (s.1, {| TS.grid := s.2; TS.maxX := mx; TS.maxY := my |}).

(** ** Canonical input strings *)

(** The decimal digits of a coordinate between 0 and 99. *)
Definition digits_of (n : Z) : jsstring :=
  if n <? 10 then [Z.to_N (48 + n)]
  else [Z.to_N (48 + n / 10); Z.to_N (48 + n mod 10)].

(** The string [x,y] of a cell. *)
Definition cell_string (c : cell) : jsstring :=
  digits_of c.1 ++ comma :: digits_of c.2.

(** ** The command line: [main.js] and [main.ts]

    A run of the script is modelled by what it leaves behind: the lines
    written with [console.log], the lines written with [console.error],
    and the exit code.  [argv] is [process.argv]: the interpreter, the
    script, then the arguments of the user. *)

Record Process := { stdout : list string; stderr : list string; exitCode : Z }.

Definition USAGE_ERROR : string :=
  "ERROR: A list of points is required in the form x1,y1, x2,y2"%string.

(** A number in a template literal or in [join]: its decimal digits. *)
Definition number_text (n : Z) : string := pretty n.

(** [`${perimeters[0]}`]: the text of the first element, and the text of
    [undefined] when there is none. *)
Definition first_text (perimeters : list Z) : string :=
  match perimeters !! 0%nat with
  | Some p => number_text p
  | None => "undefined"%string
  end.

(** [main.js] *)
Definition main_js (argv : list jsstring) : result Process :=
  if (length argv <? 3)%nat then
    (* console.error(usage); process.exit(1) *)
    Ok {| stdout := []; stderr := [USAGE_ERROR]; exitCode := 1 |}
  else
    let points := drop 2 argv in
    match JS.render (JS.VString <$> points) with
    | Ok perimeters =>
      let line :=
        if (length perimeters =? 0)%nat then "There are no parcels defined"%string
        else if (length perimeters =? 1)%nat then
          ("There is 1 parcel with a perimeter of " +:+ first_text perimeters)%string
        else
          ("There are " +:+ number_text (Z.of_nat (length perimeters))
           +:+ " parcels with perimeters of "
           +:+ String.concat "," (number_text <$> perimeters))%string in
      Ok {| stdout := [line]; stderr := []; exitCode := 0 |}
    | Err (TypeError message) | Err (RangeError message) =>
      (* catch (err): console.error('ERROR: %s', err.message) *)
      Ok {| stdout := []; stderr := [("ERROR: " +:+ message)%string]; exitCode := 0 |}
    | Err fault => Err fault
    end.

(** [main.ts] *)
Definition main_ts (argv : list jsstring) : result Process :=
  if (length argv <? 3)%nat then
    Ok {| stdout := []; stderr := [USAGE_ERROR]; exitCode := 1 |}
  else
    let points := drop 2 argv in
    match TS.computeParcelPerimeters points with
    | Ok perimeters =>
      let line :=
        if (length perimeters =? 0)%nat then "There are no parcels defined"%string
        else if (length perimeters =? 1)%nat then
          ("There is 1 parcel with a perimeter of " +:+ first_text perimeters)%string
        else
          ("There are " +:+ number_text (Z.of_nat (length perimeters))
           +:+ " parcels with perimeters of "
           +:+ String.concat "," (number_text <$> perimeters))%string in
      Ok {| stdout := [line]; stderr := []; exitCode := 0 |}
    | Err (TypeError message) | Err (RangeError message) =>
      Ok {| stdout := []; stderr := [("ERROR: " +:+ message)%string]; exitCode := 0 |}
    | Err fault => Err fault
    end.


(** The first character of a text is a decimal digit. *)
Definition starts_with_digit (s : string) : Prop :=
  match s with
  | String a _ => ∃ d, a = pretty_N_char d
  | EmptyString => False
  end.

(** The three forms of the line that reports the perimeters. *)
Definition NO_PARCELS : string := "There are no parcels defined"%string.
Definition one_parcel (p : Z) : string :=
  ("There is 1 parcel with a perimeter of " +:+ number_text p)%string.
Definition many_parcels (perimeters : list Z) : string :=
  ("There are " +:+ number_text (Z.of_nat (length perimeters))
   +:+ " parcels with perimeters of "
   +:+ String.concat "," (number_text <$> perimeters))%string.


(** Translation of a cell, and of the parcels found, by a fixed offset. *)
Definition shift (dx dy : Z) (c : cell) : cell := (c.1 + dx, c.2 + dy).

Definition shift_found (dx dy : Z) (found : list (cell * gset cell))
    : list (cell * gset cell) :=
  (λ sc, (shift dx dy sc.1, set_map (shift dx dy) sc.2 : gset cell)) <$> found.


(** * Properties *)

(** ** Loops *)

Lemma forEach_app {A S : Type} (f : S → A → result S) (l1 l2 : list A) (s : S) :
  forEach f (l1 ++ l2) s = forEach f l1 s ≫= forEach f l2.
Proof.
  revert s. induction l1 as [|a l1 IH]; intros s; simpl; [done|].
  destruct (f s a) as [s'|e]; simpl; [apply IH|done].
Qed.

Lemma for_range_inv {St : Type} (P : Z → St → Prop) (n : nat) (lo : Z)
    (body : Z → St → result St) (s : St) :
  P lo s →
  (∀ i t, lo ≤ i < lo + Z.of_nat n → P i t → ∃ t', body i t = Ok t' ∧ P (i + 1) t') →
  ∃ s', for_range n lo body s = Ok s' ∧ P (lo + Z.of_nat n) s'.
Proof.
  revert lo s. induction n as [|n IH]; intros lo s Hs Hbody; simpl.
  - exists s. split; [done|]. by replace (lo + Z.of_nat 0) with lo by lia.
  - destruct (Hbody lo s) as (t & -> & Ht); [lia|done|]. simpl.
    destruct (IH (lo + 1) t Ht) as (s' & -> & Hs').
    { intros i u Hi Hu. apply Hbody; [lia|done]. }
    exists s'. split; [done|].
    by replace (lo + Z.of_nat (S n)) with (lo + 1 + Z.of_nat n) by lia.
Qed.

(** ** Array accesses *)

Lemma grid_get_inb mx my g c v :
  wf_grid mx my g → grid_get g c = Ok v → inb mx my c.
Proof.
  intros [Hlen Hrows]. destruct c as [x y]. unfold grid_get, inb. simpl.
  case_decide as Hxy; [|done].
  destruct (g !! Z.to_nat x) as [row|] eqn:Hrow; [|done].
  destruct (row !! Z.to_nat y) as [w|] eqn:Hw; [|done]. intros _.
  apply lookup_lt_Some in Hw as Hy.
  apply lookup_lt_Some in Hrow as Hx.
  rewrite Forall_lookup in Hrows. rewrite (Hrows _ _ Hrow) in Hy. lia.
Qed.

Lemma grid_get_Ok mx my g c :
  wf_grid mx my g → inb mx my c → ∃ v, grid_get g c = Ok v.
Proof.
  intros [Hlen Hrows] [Hx Hy]. destruct c as [x y]. unfold grid_get. simpl in *.
  rewrite decide_True by lia.
  destruct (lookup_lt_is_Some_2 g (Z.to_nat x)) as [row Hrow]; [lia|].
  rewrite Hrow. rewrite Forall_lookup in Hrows.
  destruct (lookup_lt_is_Some_2 row (Z.to_nat y)) as [w Hw].
  { rewrite (Hrows _ _ Hrow). lia. }
  rewrite Hw. by exists w.
Qed.

Lemma grid_set_spec mx my g c v :
  wf_grid mx my g → inb mx my c →
  ∃ g', grid_set g c v = Ok g' ∧ wf_grid mx my g' ∧ grid_get g' c = Ok v
        ∧ ∀ c', c' ≠ c → grid_get g' c' = grid_get g c'.
Proof.
  intros [Hlen Hrows] [Hx Hy]. destruct c as [x y]. unfold grid_set. simpl in *.
  rewrite decide_True by lia.
  destruct (lookup_lt_is_Some_2 g (Z.to_nat x)) as [row Hrow]; [lia|].
  rewrite Hrow. rewrite Forall_lookup in Hrows.
  pose proof (Hrows _ _ Hrow) as Hrl.
  rewrite decide_True by lia.
  eexists. split; [done|]. split; [|split].
  - split; [by rewrite length_insert|].
    apply Forall_insert; [by apply Forall_lookup|]. by rewrite length_insert.
  - unfold grid_get. simpl. rewrite decide_True by lia.
    rewrite list_lookup_insert_eq by lia.
    by rewrite list_lookup_insert_eq by lia.
  - intros [x' y'] Hne. unfold grid_get. simpl.
    case_decide as Hnn; [|done].
    destruct (decide (Z.to_nat x = Z.to_nat x')) as [Hxx|Hxx].
    + rewrite <- Hxx. rewrite list_lookup_insert_eq by lia. rewrite Hrow.
      rewrite list_lookup_insert_ne; [done|].
      intros Hyy. apply Hne. f_equal; lia.
    + by rewrite list_lookup_insert_ne.
Qed.

Lemma grid_set_inb mx my g c v g' :
  wf_grid mx my g → grid_set g c v = Ok g' → inb mx my c.
Proof.
  intros [Hlen Hrows]. destruct c as [x y]. unfold grid_set, inb. simpl.
  case_decide as Hxy; [|done].
  destruct (g !! Z.to_nat x) as [row|] eqn:Hrow; [|done].
  case_decide as Hy; [|done]. intros _.
  apply lookup_lt_Some in Hrow as Hx.
  rewrite Forall_lookup in Hrows. rewrite (Hrows _ _ Hrow) in Hy. lia.
Qed.

Lemma grid_set_same g c v :
  grid_get g c = Ok v → grid_set g c v = Ok g.
Proof.
  destruct c as [x y]. unfold grid_get, grid_set. simpl.
  case_decide as Hxy; [|done].
  destruct (g !! Z.to_nat x) as [row|] eqn:Hrow; [|done].
  destruct (row !! Z.to_nat y) as [w|] eqn:Hw; [|done].
  intros [= ->]. rewrite decide_True by (by eapply lookup_lt_Some).
  by rewrite (list_insert_id row _ _ Hw), (list_insert_id g _ _ Hrow).
Qed.

Lemma createEmptyGrid_wf mx my : wf_grid mx my (createEmptyGrid mx my).
Proof.
  unfold createEmptyGrid. split; [by rewrite length_replicate|].
  apply Forall_replicate. by rewrite length_replicate.
Qed.

Lemma createEmptyGrid_get mx my c :
  inb mx my c → grid_get (createEmptyGrid mx my) c = Ok 0.
Proof.
  intros [Hx Hy]. destruct c as [x y]. unfold grid_get, createEmptyGrid. simpl in *.
  rewrite decide_True by lia.
  rewrite lookup_replicate_2 by lia. by rewrite lookup_replicate_2 by lia.
Qed.

Lemma occ_inb mx my g c : wf_grid mx my g → occ g c = true → inb mx my c.
Proof.
  unfold occ. intros Hwf. destruct (grid_get g c) as [v|] eqn:Hg; [|done].
  intros _. by eapply grid_get_inb.
Qed.

Lemma repr_inb mx my g O c : repr mx my g O → c ∈ O → inb mx my c.
Proof. intros [Hwf HO] Hc. eapply occ_inb; [done|]. by apply HO. Qed.

Lemma repr_set mx my g O c v :
  repr mx my g O → inb mx my c →
  ∃ g', grid_set g c v = Ok g'
        ∧ repr mx my g' (if truthy v then {[ c ]} ∪ O else O ∖ {[ c ]}).
Proof.
  intros [Hwf HO] Hc.
  destruct (grid_set_spec mx my g c v Hwf Hc) as (g' & Hset & Hwf' & Hsame & Hother).
  exists g'. split; [done|]. split; [done|]. intros c'.
  destruct (decide (c' = c)) as [->|Hne].
  - unfold occ. rewrite Hsame.
    destruct (truthy v); [rewrite elem_of_union|rewrite elem_of_difference];
      rewrite elem_of_singleton; naive_solver.
  - unfold occ. rewrite (Hother _ Hne). specialize (HO c'). unfold occ in HO.
    destruct (truthy v); [rewrite elem_of_union|rewrite elem_of_difference];
      rewrite elem_of_singleton; naive_solver.
Qed.

(** ** Connectivity *)

Lemma adjacent_sym a b : adjacent a b → adjacent b a.
Proof.
  destruct a as [ax ay], b as [bx b_y]. unfold adjacent, neighbours. simpl.
  rewrite !elem_of_cons, !elem_of_nil.
  intros [H|[H|[H|[H|[]]]]]; injection H as -> ->.
  - right; left. f_equal; lia.
  - left. f_equal; lia.
  - do 3 right; left. f_equal; lia.
  - do 2 right; left. f_equal; lia.
Qed.

Lemma adjacent_irrefl a : ¬ adjacent a a.
Proof.
  destruct a as [ax ay]. unfold adjacent, neighbours. simpl.
  rewrite !elem_of_cons, !elem_of_nil.
  intros [H|[H|[H|[H|[]]]]]; injection H; lia.
Qed.

Lemma connected_refl O a : a ∈ O → connected O a a.
Proof. by split. Qed.

Lemma connected_in O a b : connected O a b → b ∈ O.
Proof.
  intros [Ha Hrtc]. induction Hrtc as [|x y z [_ Hy] _ IH]; [done|].
  by apply IH.
Qed.

Lemma connected_step O a b c :
  connected O a b → adjacent b c → c ∈ O → connected O a c.
Proof. intros [Ha Hab] Hadj Hc. split; [done|]. eapply rtc_r; [done|]. by split. Qed.

Lemma connected_trans O a b c : connected O a b → connected O b c → connected O a c.
Proof. intros [Ha Hab] [_ Hbc]. split; [done|]. by etrans. Qed.

Lemma connected_sym O a b : connected O a b → connected O b a.
Proof.
  intros Hab. pose proof (connected_in _ _ _ Hab) as Hb.
  destruct Hab as [Ha Hrtc]. split; [done|].
  induction Hrtc as [|x y z [Hadj Hy] Hyz IH]; [done|].
  eapply rtc_r; [by apply IH|]. split; [by apply adjacent_sym|done].
Qed.

Lemma component_unique O c C1 C2 :
  is_component O c C1 → is_component O c C2 → C1 = C2.
Proof. intros [_ H1] [_ H2]. apply set_eq. intros b. by rewrite H1, H2. Qed.

Lemma component_of_member O c C b :
  is_component O c C → b ∈ C → is_component O b C.
Proof.
  intros [Hc HC] Hb. apply HC in Hb as Hcb. split; [by eapply connected_in|].
  intros d. rewrite HC. split; intros Hd.
  - eapply connected_trans; [by apply connected_sym|done].
  - by eapply connected_trans.
Qed.

(** ** Perimeters *)

Lemma open_edges_sum O c :
  open_edges O c =
    (open_edge O (c.1 - 1, c.2)%Z + open_edge O (c.1 + 1, c.2)%Z
     + open_edge O (c.1, c.2 - 1)%Z + open_edge O (c.1, c.2 + 1)%Z)%nat.
Proof.
  unfold open_edges, neighbours, open_edge.
  rewrite !filter_cons, filter_nil.
  repeat (destruct (decide (_ ∈ O)); [rewrite decide_False by tauto|rewrite decide_True by tauto]);
    simpl; lia.
Qed.

Lemma perimeter_empty O : perimeter O ∅ = 0%nat.
Proof. unfold perimeter. by rewrite elements_empty. Qed.

Lemma perimeter_add O C p :
  p ∉ C → perimeter O ({[ p ]} ∪ C) = (open_edges O p + perimeter O C)%nat.
Proof.
  intros Hp. unfold perimeter.
  by rewrite (elements_union_singleton C p Hp).
Qed.


(** ** One trace *)

Section look.
Context (mx my : Z) (O : gset cell).

Lemma look_spec g S b n K e :
  wf_grid mx my g →
  S ⊆ O →
  (b = true ↔ inb mx my n) →
  (occ g n = true ↔ n ∈ O ∖ S) →
  (∀ c, c ∈ O → inb mx my c) →
  JS.look g S b n (K, e) = Ok (push_new O S n K, e + Z.of_nat (open_edge O n)).
Proof.
  intros Hwf HS Hb Hocc HO. unfold JS.look, push_new, open_edge, JS.hasBeenSeen.
  destruct b.
  - destruct (grid_get_Ok mx my g n Hwf) as [v Hv]; [by apply Hb|].
    unfold JS.isNewNeighbour, JS.hasBeenSeen. rewrite Hv. simpl.
    unfold occ in Hocc. rewrite Hv in Hocc. clear HO Hb.
    destruct (decide (n ∈ O ∖ S)) as [Hn|Hn].
    + apply Hocc in Hn as Htr. rewrite Htr. simpl.
      apply elem_of_difference in Hn as [HnO HnS].
      rewrite bool_decide_eq_false_2 by done. simpl.
      rewrite decide_True by done. do 2 f_equal. simpl. lia.
    + destruct (decide (n ∈ S)) as [HnS|HnS].
      * rewrite bool_decide_eq_true_2 by done. rewrite andb_false_r. simpl.
        rewrite decide_True by (by apply HS). do 2 f_equal. simpl. lia.
      * rewrite bool_decide_eq_false_2 by done. rewrite andb_true_r.
        destruct (truthy v); [exfalso; apply Hn; by apply Hocc|]. simpl.
        rewrite decide_False; [done|]. intros HnO. apply Hn.
        by apply elem_of_difference.
  - simpl. assert (n ∉ O) as HnO.
    { intros Hn. apply HO in Hn. apply Hb in Hn. done. }
    rewrite decide_False by (rewrite elem_of_difference; tauto).
    rewrite bool_decide_eq_false_2 by (intros HnS; by apply HnO, HS). simpl.
    by rewrite decide_False by done.
Qed.

Lemma push_new_filter S p rest :
  push_new O S (p.1, p.2 + 1) (push_new O S (p.1, p.2 - 1)
    (push_new O S (p.1 + 1, p.2) (push_new O S (p.1 - 1, p.2) rest)))
  = filter (λ n, n ∈ O ∖ S) (reverse (neighbours p)) ++ rest.
Proof.
  unfold push_new, neighbours. cbn [reverse rev_append].
  rewrite !filter_cons, filter_nil.
  by repeat (case_decide; simpl).
Qed.
End look.

Section trace.
Context (mx my : Z) (O : gset cell) (c0 : cell).
Hypothesis O_inb : ∀ c, c ∈ O → inb mx my c.

Lemma trace_step_seen st p rest :
  trace_inv mx my O c0 st →
  JS.stack st = p :: rest →
  p ∈ JS.seen st →
  ∃ st', (∀ fuel, JS.trace_loop (S fuel) mx my st = JS.trace_loop fuel mx my st')
         ∧ trace_inv mx my O c0 st'
         ∧ (trace_measure O st' < trace_measure O st)%nat.
Proof.
  intros [Hrepr Hseen Hstack Hclosed Hstart Hedges] HK HpS.
  assert (p ∈ O) as HpO.
  { eapply connected_in, Hstack. rewrite HK. left. }
  destruct (repr_set mx my _ _ p 0 Hrepr (O_inb _ HpO)) as (g & Hset & Hg).
  simpl in Hg.
  exists {| JS.t_grid := g; JS.seen := JS.seen st; JS.stack := rest;
            JS.openEdges := JS.openEdges st |}.
  split; [|split].
  - intros fuel. simpl. rewrite HK, Hset. simpl. unfold JS.hasBeenSeen.
    by rewrite bool_decide_eq_true_2 by done.
  - split; simpl.
    + replace (O ∖ JS.seen st) with (O ∖ JS.seen st ∖ {[p]}); [done|].
      clear -HpS. set_solver.
    + done.
    + intros k Hk. apply Hstack. rewrite HK. by right.
    + intros s n Hs Hadj Hn.
      destruct (Hclosed s n Hs Hadj Hn) as [?|Hin]; [by left|].
      rewrite HK in Hin. apply elem_of_cons in Hin as [->|?]; [by left|by right].
    + destruct Hstart as [?|Hin]; [by left|].
      rewrite HK in Hin. apply elem_of_cons in Hin as [->|?]; [by left|by right].
    + done.
  - unfold trace_measure. simpl. rewrite HK. simpl. lia.
Qed.

Lemma trace_step_new st p rest :
  trace_inv mx my O c0 st →
  JS.stack st = p :: rest →
  p ∉ JS.seen st →
  ∃ st', (∀ fuel, JS.trace_loop (S fuel) mx my st = JS.trace_loop fuel mx my st')
         ∧ trace_inv mx my O c0 st'
         ∧ (trace_measure O st' < trace_measure O st)%nat.
Proof.
  intros [Hrepr Hseen Hstack Hclosed Hstart Hedges] HK HpS.
  assert (JS.seen st ⊆ O) as HSO.
  { intros s Hs. eapply connected_in. by apply Hseen. }
  assert (connected O c0 p) as Hp.
  { apply Hstack. rewrite HK. left. }
  assert (p ∈ O) as HpO by (by eapply connected_in).
  pose proof (O_inb _ HpO) as Hpin.
  destruct (repr_set mx my _ _ p 0 Hrepr Hpin) as (g & Hset & Hwf & Hg).
  simpl in Hg.
  assert (∀ n, n ∈ neighbours p → occ g n = true ↔ n ∈ O ∖ JS.seen st) as Hocc.
  { intros n Hadj. rewrite <- Hg.
    assert (n ≠ p) by (intros ->; by eapply adjacent_irrefl).
    clear -H. set_solver. }
  exists {| JS.t_grid := g; JS.seen := {[ p ]} ∪ JS.seen st;
            JS.stack := filter (λ n, n ∈ O ∖ JS.seen st) (reverse (neighbours p)) ++ rest;
            JS.openEdges := JS.openEdges st + Z.of_nat (open_edges O p) |}.
  split; [|split].
  - intros fuel. simpl. rewrite HK, Hset. simpl. unfold JS.hasBeenSeen at 1.
    rewrite bool_decide_eq_false_2 by done. simpl.
    destruct p as [px py]. destruct Hpin as [Hpx Hpy]. simpl in *.
    rewrite (look_spec mx my O g); [simpl|done|done| |apply Hocc; set_solver|done].
    2:{ rewrite Z.gtb_ltb, Z.ltb_lt. unfold inb. simpl. lia. }
    rewrite (look_spec mx my O g); [simpl|done|done| |apply Hocc; set_solver|done].
    2:{ rewrite Z.ltb_lt. unfold inb. simpl. lia. }
    rewrite (look_spec mx my O g); [simpl|done|done| |apply Hocc; set_solver|done].
    2:{ rewrite Z.gtb_ltb, Z.ltb_lt. unfold inb. simpl. lia. }
    rewrite (look_spec mx my O g); [simpl|done|done| |apply Hocc; set_solver|done].
    2:{ rewrite Z.ltb_lt. unfold inb. simpl. lia. }
    pose proof (push_new_filter O (JS.seen st) (px, py) rest) as Hpf.
    cbn [fst snd] in Hpf. rewrite Hpf.
    pose proof (open_edges_sum O (px, py)) as Hoe.
    cbn [fst snd] in Hoe. rewrite Hoe.
    do 2 f_equal. lia.
  - split; simpl.
    + split; [done|]. intros c. rewrite <- Hg. clear. set_solver.
    + intros s [->%elem_of_singleton|Hs]%elem_of_union; [done|by apply Hseen].
    + intros k [Hk|Hk]%elem_of_app.
      * apply list_elem_of_filter in Hk as [[HkO _]%elem_of_difference Hk].
        apply elem_of_reverse in Hk.
        by eapply connected_step.
      * apply Hstack. rewrite HK. by right.
    + intros s n [->%elem_of_singleton|Hs]%elem_of_union Hsn Hn.
      * destruct (decide (n ∈ JS.seen st)) as [HnS|HnS].
        { left. apply elem_of_union. by right. }
        right. apply elem_of_app. left. apply list_elem_of_filter.
        split; [by apply elem_of_difference|]. by apply elem_of_reverse.
      * destruct (Hclosed s n Hs Hsn Hn) as [?|Hin].
        { left. apply elem_of_union. by right. }
        rewrite HK in Hin. apply elem_of_cons in Hin as [->|?].
        { left. apply elem_of_union. left. by apply elem_of_singleton. }
        right. apply elem_of_app. by right.
    + destruct Hstart as [?|Hin].
      { left. apply elem_of_union. by right. }
      rewrite HK in Hin. apply elem_of_cons in Hin as [->|?].
      { left. apply elem_of_union. left. by apply elem_of_singleton. }
      right. apply elem_of_app. by right.
    + rewrite perimeter_add by done. rewrite Hedges. lia.
  - unfold trace_measure. simpl. rewrite HK. simpl.
    rewrite length_app.
    pose proof (length_filter (λ n, n ∈ O ∖ JS.seen st) (reverse (neighbours p))) as Hlen.
    rewrite length_reverse in Hlen. simpl in Hlen.
    assert (O ∖ JS.seen st = {[ p ]} ∪ O ∖ ({[ p ]} ∪ JS.seen st)) as Heq.
    { apply set_eq. intros c. clear -HpO HpS. destruct (decide (c = p)); set_solver. }
    assert (size (O ∖ JS.seen st) = S (size (O ∖ ({[ p ]} ∪ JS.seen st)))) as Hsz.
    { rewrite Heq at 1. rewrite size_union; [by rewrite size_singleton|].
      clear. set_solver. }
    lia.
Qed.

Lemma trace_loop_correct fuel st :
  trace_inv mx my O c0 st →
  (trace_measure O st < fuel)%nat →
  ∃ st', JS.trace_loop fuel mx my st = Ok st'
         ∧ trace_inv mx my O c0 st' ∧ JS.stack st' = [].
Proof.
  revert st. induction fuel as [|fuel IH]; intros st Hinv Hm; [lia|].
  destruct (JS.stack st) as [|p rest] eqn:HK.
  { exists st. split; [|done]. simpl. by rewrite HK. }
  assert (∃ st', (∀ fuel, JS.trace_loop (S fuel) mx my st = JS.trace_loop fuel mx my st')
         ∧ trace_inv mx my O c0 st'
         ∧ (trace_measure O st' < trace_measure O st)%nat) as (st' & Hstep & Hinv' & Hm').
  { destruct (decide (p ∈ JS.seen st)).
    - by eapply trace_step_seen.
    - by eapply trace_step_new. }
  rewrite Hstep. apply IH; [done|lia].
Qed.
End trace.

Lemma elem_of_all_cells mx my c : c ∈ all_cells mx my ↔ inb mx my c.
Proof.
  unfold all_cells, inb. rewrite list_elem_of_cprod, !elem_of_seqZ. lia.
Qed.

Lemma length_all_cells mx my :
  length (all_cells mx my) = (Z.to_nat (mx + 1) * Z.to_nat (my + 1))%nat.
Proof.
  unfold all_cells. rewrite list_cprod_list_prod, length_prod.
  by rewrite !length_seqZ.
Qed.

Lemma size_le_cells (mx my : Z) (O : gset cell) :
  (∀ c, c ∈ O → inb mx my c) →
  (size O ≤ Z.to_nat (mx + 1) * Z.to_nat (my + 1))%nat.
Proof.
  intros HO. rewrite <- length_all_cells.
  apply submseteq_length, NoDup_submseteq; [apply NoDup_elements|].
  intros c Hc. apply elem_of_all_cells, HO. by apply elem_of_elements.
Qed.

Lemma occupied_repr mx my g : wf_grid mx my g → repr mx my g (occupied mx my g).
Proof.
  intros Hwf. split; [done|]. intros c. unfold occupied.
  rewrite elem_of_list_to_set, list_elem_of_filter, elem_of_all_cells.
  split; [tauto|]. intros Hc. split; [done|]. by eapply occ_inb.
Qed.

Lemma traceParcel_correct (mx my : Z) (O : gset cell) (g : Grid) (c0 : cell) :
  repr mx my g O → c0 ∈ O →
  ∃ C g', JS.traceParcel g c0.1 c0.2 mx my = Ok (Z.of_nat (perimeter O C), g')
          ∧ is_component O c0 C ∧ repr mx my g' (O ∖ C).
Proof.
  intros Hrepr Hc0.
  assert (∀ c, c ∈ O → inb mx my c) as HO by (intros c; by eapply repr_inb).
  pose (st0 := {| JS.t_grid := g; JS.seen := ∅; JS.stack := [c0]; JS.openEdges := 0 |}).
  destruct (trace_loop_correct mx my O c0 HO (trace_fuel mx my) st0)
    as (st & Hloop & [Hr Hseen _ Hclosed Hstart Hedges] & HK).
  - split; simpl.
    + by replace (O ∖ ∅) with O by set_solver.
    + intros s Hs. by apply not_elem_of_empty in Hs.
    + intros k ->%list_elem_of_singleton. by apply connected_refl.
    + intros s n Hs. by apply not_elem_of_empty in Hs.
    + right. left.
    + by rewrite perimeter_empty.
  - unfold trace_measure, trace_fuel. simpl.
    replace (O ∖ ∅) with O by set_solver.
    pose proof (size_le_cells mx my O HO) as Hsz.
    destruct (HO _ Hc0) as [Hx Hy].
    assert (Z.of_nat (size O) ≤ (mx + 1) * (my + 1)) by nia.
    lia.
  - exists (JS.seen st), (JS.t_grid st). split; [|split; [split|]]; [|done| |done].
    + unfold JS.traceParcel. destruct c0 as [x0 y0]. simpl.
      fold st0. rewrite Hloop. simpl. by rewrite Hedges.
    + rewrite HK in Hstart, Hclosed.
      assert (c0 ∈ JS.seen st) as Hc0S.
      { destruct Hstart as [?|Hin]; [done|]. by apply elem_of_nil in Hin. }
      intros b. split; [apply Hseen|].
      intros [_ Hrtc]. revert b Hrtc.
      apply (rtc_ind_r (λ b, b ∈ JS.seen st)); [done|].
      intros y z _ [Hadj Hz] IH.
      destruct (Hclosed y z IH Hadj Hz) as [?|Hin]; [done|].
      by apply elem_of_nil in Hin.
Qed.

(** ** Parcels already removed from the grid *)

Section removed.
Context (O U : gset cell).
Hypothesis U_closed : ∀ a b, a ∈ U → adjacent a b → b ∈ O → b ∈ U.

Lemma connected_removed c b :
  c ∈ O ∖ U → connected (O ∖ U) c b ↔ connected O c b.
Proof.
  intros Hc. split.
  - intros [_ Hrtc]. split; [by apply elem_of_difference in Hc as [? _]|].
    eapply rtc_subrel; [|done].
    intros x y [Hadj Hy]. split; [done|]. by apply elem_of_difference in Hy as [? _].
  - intros [HcO Hrtc]. split; [done|].
    cut ((b ∉ U) ∧ rtc (step_in (O ∖ U)) c b); [tauto|].
    revert b Hrtc.
    apply (rtc_ind_r (λ b, (b ∉ U) ∧ rtc (step_in (O ∖ U)) c b)).
    { split; [|done]. by apply elem_of_difference in Hc as [_ ?]. }
    intros y z Hcy [Hadj Hz] [HyU IH].
    assert (y ∈ O) as HyO by (by eapply (connected_in O c y)).
    assert (z ∉ U) as HzU.
    { intros HzU. apply HyU. eapply U_closed; [done|by apply adjacent_sym|done]. }
    split; [done|]. eapply rtc_r; [done|].
    split; [done|]. by apply elem_of_difference.
Qed.

Lemma component_removed c C :
  is_component (O ∖ U) c C → is_component O c C.
Proof.
  intros [Hc HC]. split; [by apply elem_of_difference in Hc as [? _]|].
  intros b. by rewrite HC, connected_removed.
Qed.

Lemma open_edge_removed c n :
  c ∈ O ∖ U → adjacent c n → open_edge (O ∖ U) n = open_edge O n.
Proof.
  intros [HcO HcU]%elem_of_difference Hadj. unfold open_edge.
  destruct (decide (n ∈ O)) as [Hn|Hn].
  - rewrite decide_True; [done|]. apply elem_of_difference. split; [done|].
    intros HnU. apply HcU. eapply U_closed; [done|by apply adjacent_sym|done].
  - rewrite decide_False; [done|]. rewrite elem_of_difference. tauto.
Qed.

Lemma open_edges_removed c :
  c ∈ O ∖ U → open_edges (O ∖ U) c = open_edges O c.
Proof.
  intros Hc. rewrite !open_edges_sum.
  rewrite !(open_edge_removed c); [done|done| |done| |done| |done|];
    unfold adjacent, neighbours; set_solver.
Qed.

Lemma perimeter_removed C :
  C ⊆ O ∖ U → perimeter (O ∖ U) C = perimeter O C.
Proof.
  intros HC. unfold perimeter.
  assert (Forall (λ c, c ∈ O ∖ U) (elements C)) as Hall.
  { apply Forall_forall. intros c Hc. apply HC. by apply elem_of_elements. }
  induction Hall as [|c l Hc _ IH]; [done|].
  simpl. by rewrite IH, open_edges_removed.
Qed.
End removed.

Lemma component_sub (O : gset cell) (c : cell) (C : gset cell) : is_component O c C → C ⊆ O.
Proof. intros [_ HC] b Hb. eapply connected_in. by apply HC. Qed.

Lemma component_start (O : gset cell) (c : cell) (C : gset cell) : is_component O c C → c ∈ C.
Proof. intros [Hc HC]. apply HC. by apply connected_refl. Qed.

Lemma component_closed (O : gset cell) (c : cell) (C : gset cell) (a b : cell) :
  is_component O c C → a ∈ C → adjacent a b → b ∈ O → b ∈ C.
Proof.
  intros [Hc HC] Ha Hadj Hb. apply HC. eapply connected_step; [|done..].
  by apply HC.
Qed.

Lemma found_sub (O : gset cell) (found : list (cell * gset cell)) :
  Forall (λ sc, is_component O sc.1 sc.2) found → ⋃ (found.*2) ⊆ O.
Proof.
  intros Hall c (C & HC & Hc)%elem_of_union_list.
  apply list_elem_of_fmap in HC as (sc & -> & Hsc).
  rewrite Forall_forall in Hall. by eapply component_sub; [apply Hall|].
Qed.

Lemma found_closed (O : gset cell) (found : list (cell * gset cell)) (a b : cell) :
  Forall (λ sc, is_component O sc.1 sc.2) found →
  a ∈ ⋃ (found.*2) → adjacent a b → b ∈ O → b ∈ ⋃ (found.*2).
Proof.
  intros Hall (C & HC & Ha)%elem_of_union_list Hadj Hb.
  apply elem_of_union_list. exists C. split; [done|].
  apply list_elem_of_fmap in HC as (sc & -> & Hsc).
  rewrite Forall_forall in Hall. by eapply component_closed; [apply Hall|..].
Qed.

Lemma found_snoc (found : list (cell * gset cell)) (c : cell) (C : gset cell) :
  ⋃ ((found ++ [(c, C)]).*2) = ⋃ (found.*2) ∪ C.
Proof.
  rewrite fmap_app, union_list_app_L.
  change ([(c, C)].*2) with [C]. by rewrite union_list_singleton_L.
Qed.

(** ** The scan *)

Lemma lex_lt_trichotomy a b : lex_lt a b ∨ a = b ∨ lex_lt b a.
Proof.
  destruct a as [ax ay], b as [bx b_y]. unfold lex_lt. simpl.
  destruct (Z.lt_trichotomy ax bx) as [?|[->|?]]; [tauto| |tauto].
  destruct (Z.lt_trichotomy ay b_y) as [?|[->|?]]; tauto.
Qed.

Lemma scan_cell_correct (mx my : Z) (O : gset cell) (x y : Z)
    (found : list (cell * gset cell)) (s : list Z * Grid) :
  (∀ c, c ∈ O → inb mx my c) →
  0 ≤ x ≤ mx → 0 ≤ y ≤ my →
  scan_inv mx my O (x, y) found s →
  ∃ found' s', JS.scan_cell mx my x y s = Ok s'
               ∧ scan_inv mx my O (x, y + 1) found' s'.
Proof.
  intros HO Hx Hy [Hrepr Hperims Hcomps Hsorted Hcov].
  assert (Forall (λ sc : cell * gset cell, is_component O sc.1 sc.2) found) as Hcomps'.
  { eapply Forall_impl; [exact Hcomps|]. simpl. tauto. }
  pose proof (found_sub O found Hcomps') as HU.
  assert (∀ c, lex_lt c (x, y + 1) → lex_lt c (x, y) ∨ c = (x, y)) as Hnext.
  { intros [cx cy]. unfold lex_lt. simpl. intros [?|[-> ?]]; [tauto|].
    destruct (decide (cy = y)) as [->|]; [by right|left; lia]. }
  destruct (grid_get_Ok mx my s.2 (x, y)) as [v Hv]; [apply Hrepr|done|].
  unfold JS.scan_cell. rewrite Hv. simpl.
  destruct (truthy v) eqn:Hvt.
  - assert ((x, y) ∈ O ∖ ⋃ (found.*2)) as Hxy.
    { apply Hrepr. unfold occ. by rewrite Hv. }
    destruct (traceParcel_correct mx my _ _ (x, y) Hrepr Hxy) as (C & g' & Htr & HC & Hg').
    simpl in Htr. rewrite Htr. simpl.
    exists (found ++ [((x, y), C)]). eexists. split; [done|].
    pose proof (component_sub _ _ _ HC) as HCsub.
    split; simpl.
    + rewrite found_snoc.
      by replace (O ∖ (⋃ (found.*2) ∪ C)) with ((O ∖ ⋃ (found.*2)) ∖ C) by (clear; set_solver).
    + unfold perimeters_of. rewrite fmap_app. simpl.
      rewrite Hperims. unfold perimeters_of.
      rewrite (perimeter_removed O (⋃ (found.*2))); [done| |done].
      intros a b. by apply found_closed.
    + apply Forall_app. split.
      * eapply Forall_impl; [exact Hcomps|]. intros sc (? & ? & Hlt). split; [done|].
        split; [done|]. clear -Hlt. unfold lex_lt in *. simpl in *. lia.
      * apply Forall_singleton. simpl. split; [|split].
        -- eapply component_removed; [|done]. intros a b. by apply found_closed.
        -- split; [by eapply component_start|]. intros b Hb.
           destruct (lex_lt_trichotomy b (x, y)) as [Hlt|[?|?]]; [|by left|by right].
           apply HCsub in Hb as [HbO HbU]%elem_of_difference.
           destruct HbU. by apply Hcov.
        -- unfold lex_lt. simpl. lia.
    + rewrite fmap_app. apply StronglySorted_app_2; [|done|].
      * intros s1 s2 Hs1 ->%list_elem_of_singleton.
        apply list_elem_of_fmap in Hs1 as (sc & -> & Hsc).
        rewrite Forall_forall in Hcomps. by apply Hcomps.
      * repeat constructor.
    + intros c Hc Hlt. rewrite found_snoc. apply elem_of_union.
      destruct (Hnext c Hlt) as [?| ->]; [left; by apply Hcov|].
      right. by eapply component_start.
  - exists found, s. split; [done|]. split; [done..| |done|].
    + eapply Forall_impl; [exact Hcomps|]. intros sc (? & ? & Hlt). split; [done|].
      split; [done|]. clear -Hlt. unfold lex_lt in *. simpl in *. lia.
    + intros c Hc Hlt. destruct (Hnext c Hlt) as [?| ->]; [by apply Hcov|].
      destruct (decide ((x, y) ∈ ⋃ (found.*2))) as [|Hn]; [done|].
      assert (occ s.2 (x, y) = true) as Hocc.
      { apply Hrepr. by apply elem_of_difference. }
      unfold occ in Hocc. rewrite Hv in Hocc. congruence.
Qed.

Lemma findParcels_correct (mx my : Z) (O : gset cell) (g : Grid) :
  repr mx my g O →
  ∃ found g', JS.findParcels g mx my = Ok (perimeters_of O found, g')
    ∧ repr mx my g' ∅
    ∧ Forall (λ sc, is_component O sc.1 sc.2 ∧ least sc.2 sc.1) found
    ∧ StronglySorted lex_lt found.*1
    ∧ ∀ c, c ∈ O → c ∈ ⋃ (found.*2).
Proof.
  intros Hrepr.
  assert (∀ c, c ∈ O → inb mx my c) as HO by (intros c; by eapply repr_inb).
  unfold JS.findParcels.
  destruct (for_range_inv (λ x t, ∃ found, scan_inv mx my O (x, 0) found t)
              (Z.to_nat (mx + 1)) 0
              (λ x, for_range (Z.to_nat (my + 1)) 0 (JS.scan_cell mx my x))
              ([], g)) as ([perims g'] & Hrun & found & Hinv).
  - exists []. split; simpl.
    + by replace (O ∖ ∅) with O by (clear; set_solver).
    + done.
    + constructor.
    + constructor.
    + intros c Hc Hlt. apply HO in Hc as [Hcx Hcy].
      unfold lex_lt in Hlt. simpl in Hlt. lia.
  - intros x t Hx [found Hinv].
    destruct (for_range_inv (λ y t, ∃ found, scan_inv mx my O (x, y) found t)
                (Z.to_nat (my + 1)) 0 (JS.scan_cell mx my x) t)
      as (t' & Hrow & found' & Hinv').
    + by exists found.
    + intros y u Hy [found' Hinv'].
      destruct (scan_cell_correct mx my O x y found' u) as (found'' & u' & Hcell & Hinv'');
        [done|lia|lia|done|].
      exists u'. split; [done|]. by exists found''.
    + exists t'. split; [done|]. exists found'.
      destruct Hinv' as [Hr Hp Hc Hs Hcov]. split; [done|done| |done|].
      * eapply Forall_impl; [exact Hc|]. intros sc (? & ? & Hlt). split; [done|].
        split; [done|]. clear -Hlt. unfold lex_lt in *. simpl in *. lia.
      * intros c Hc' Hlt. apply Hcov; [done|].
        apply HO in Hc' as [Hcx Hcy].
        clear -Hlt Hcx Hcy. unfold lex_lt in *. simpl in *. lia.
  - exists found, g'. destruct Hinv as [Hr Hp Hc Hs Hcov]. simpl in *. subst perims.
    assert (∀ c, c ∈ O → c ∈ ⋃ (found.*2)) as Hall.
    { intros c Hc'. apply Hcov; [done|]. apply HO in Hc' as [Hcx Hcy].
      unfold lex_lt. simpl. lia. }
    split; [done|]. split; [|split; [|done]].
    + replace (∅ : gset cell) with (O ∖ ⋃ (found.*2)); [done|].
      apply set_eq. intros c. rewrite elem_of_difference.
      split; [intros [? ?]; exfalso; auto|intros []%not_elem_of_empty].
    + eapply Forall_impl; [exact Hc|]. simpl. tauto.
Qed.

(** ** The coordinate pattern *)

Lemma take_drop_while p s : take_while p s ++ drop_while p s = s.
Proof. induction s as [|c s IH]; simpl; [done|]. destruct (p c); simpl; by f_equal. Qed.

Lemma take_while_Forall p s : Forall (λ c, p c = true) (take_while p s).
Proof.
  induction s as [|c s IH]; simpl; [constructor|].
  destruct (p c) eqn:Hc; by constructor.
Qed.

Lemma drop_while_head p s c r : drop_while p s = c :: r → p c = false.
Proof.
  induction s as [|c' s IH]; simpl; [done|].
  destruct (p c') eqn:Hc; [done|]. by intros [= <- _].
Qed.

Lemma take_while_app p d r :
  Forall (λ c, p c = true) d → (∀ c, head r = Some c → p c = false) →
  take_while p (d ++ r) = d.
Proof.
  intros Hd Hr. induction Hd as [|c d Hc _ IH]; simpl.
  - destruct r as [|c r]; simpl; [done|]. by rewrite Hr.
  - by rewrite Hc, IH.
Qed.

Lemma drop_while_app p d r :
  Forall (λ c, p c = true) d → (∀ c, head r = Some c → p c = false) →
  drop_while p (d ++ r) = r.
Proof.
  intros Hd Hr. induction Hd as [|c d Hc _ IH]; simpl.
  - destruct r as [|c r]; simpl; [done|]. by rewrite Hr.
  - by rewrite Hc, IH.
Qed.

Lemma space_not_digit c : is_space c = true → is_digit c = false.
Proof.
  unfold is_space, is_digit. intros H.
  apply andb_false_iff. rewrite N.leb_gt, N.leb_gt.
  repeat (apply orb_true_iff in H as [H|H]);
    try (apply N.eqb_eq in H; lia).
  apply andb_true_iff in H as [?%N.leb_le ?%N.leb_le]. lia.
Qed.

Lemma digit_not_space c : is_digit c = true → is_space c = false.
Proof.
  intros Hd. destruct (is_space c) eqn:Hs; [|done].
  apply space_not_digit in Hs. congruence.
Qed.

Lemma match_point_spec s d1 d2 :
  match_point s = Some (d1, d2) ↔ regex_matches s d1 d2.
Proof.
  split.
  - unfold match_point. intros Hm.
    pose proof (take_drop_while is_digit s) as Hs.
    pose proof (take_while_Forall is_digit s) as Hd1.
    destruct (take_while is_digit s) as [|c1 d1'] eqn:Ht1; [done|].
    pose proof (take_drop_while is_space (drop_while is_digit s)) as Hr1.
    pose proof (take_while_Forall is_space (drop_while is_digit s)) as Hw1.
    destruct (drop_while is_space (drop_while is_digit s)) as [|c r]; [done|].
    destruct (c =? comma)%N eqn:Hc; [|done]. apply N.eqb_eq in Hc as ->.
    pose proof (take_drop_while is_space r) as Hr2.
    pose proof (take_while_Forall is_space r) as Hw2.
    pose proof (take_drop_while is_digit (drop_while is_space r)) as Hr3.
    pose proof (take_while_Forall is_digit (drop_while is_space r)) as Hd2.
    destruct (take_while is_digit (drop_while is_space r)) as [|c2 d2'] eqn:Ht2; [done|].
    destruct (drop_while is_digit (drop_while is_space r)); [|done].
    injection Hm as <- <-.
    exists (take_while is_space (drop_while is_digit s)), (take_while is_space r).
    split; [|done].
    rewrite app_nil_r in Hr3. rewrite Hr3, Hr2, Hr1. done.
  - intros (w1 & w2 & -> & Hn1 & Hn2 & Hd1 & Hd2 & Hw1 & Hw2).
    unfold match_point.
    assert (∀ c, head (w1 ++ comma :: w2 ++ d2) = Some c → is_digit c = false) as Hh1.
    { intros c. destruct Hw1 as [|c' w1 Hc' _]; simpl; intros [= <-]; [done|].
      by apply space_not_digit. }
    assert (∀ c, head d2 = Some c → is_space c = false) as Hh2.
    { intros c. destruct Hd2 as [|c' d2 Hc' _]; simpl; [done|]. intros [= <-].
      by apply digit_not_space. }
    rewrite (take_while_app is_digit d1) by done.
    rewrite (drop_while_app is_digit d1) by done.
    rewrite (drop_while_app is_space w1); [|done|by intros c [= <-]].
    rewrite N.eqb_refl.
    rewrite (drop_while_app is_space w2) by done.
    assert (take_while is_digit d2 = d2) as Ht.
    { rewrite <- (app_nil_r d2) at 1. by apply take_while_app. }
    assert (drop_while is_digit d2 = []) as Hdr.
    { rewrite <- (app_nil_r d2). by apply drop_while_app. }
    cbv zeta. rewrite Ht, Hdr.
    destruct d1; [done|]. by destruct d2.
Qed.

Lemma parseInt_fold_nonneg d acc :
  all_digits d → 0 ≤ acc →
  0 ≤ fold_left (λ acc c, 10 * acc + (Z.of_N c - 48)) d acc.
Proof.
  intros Hd. revert acc. induction Hd as [|c d Hc _ IH]; intros acc Hacc; simpl.
  - done.
  - apply IH. unfold is_digit in Hc.
    apply andb_true_iff in Hc as [?%N.leb_le ?%N.leb_le]. lia.
Qed.

Lemma parseInt_nonneg d : all_digits d → 0 ≤ parseInt d.
Proof. intros Hd. by apply parseInt_fold_nonneg. Qed.

(** ** Validation *)

Lemma bind_Ok {A B : Type} (a : A) (f : A → result B) : Ok a ≫= f = f a.
Proof. done. Qed.

Lemma bind_Err {A B : Type} (e : exn) (f : A → result B) : Err e ≫= f = Err e.
Proof. done. Qed.

Lemma forEach_cons {A St : Type} (f : St → A → result St) (a : A) (l : list A) (s : St) :
  forEach f (a :: l) s = f s a ≫= forEach f l.
Proof. done. Qed.

Lemma parse_step_Ok (acc : JS.ParseAcc) (p : JS.value) (c : cell) :
  JS.parsePoint p = Ok c →
  JS.parse_step acc p
    = Ok {| JS.parsedPoints := JS.parsedPoints acc ++ [c];
            JS.accMaxX := JS.accMaxX acc `max` c.1;
            JS.accMaxY := JS.accMaxY acc `max` c.2 |}.
Proof. intros Hp. unfold JS.parse_step. by rewrite Hp. Qed.

Lemma parse_step_Err (acc : JS.ParseAcc) (p : JS.value) (e : exn) :
  JS.parsePoint p = Err e → JS.parse_step acc p = Err e.
Proof. intros Hp. unfold JS.parse_step. by rewrite Hp. Qed.

Lemma parsePoint_Ok_inv (point : JS.value) (c : cell) :
  JS.parsePoint point = Ok c →
  ∃ s d1 d2, point = JS.VString s ∧ regex_matches s d1 d2
    ∧ c = (parseInt d1, parseInt d2)
    ∧ 0 ≤ c.1 ≤ MAX_VALUE ∧ 0 ≤ c.2 ≤ MAX_VALUE.
Proof.
  unfold JS.parsePoint. destruct point as [s|]; [|done].
  destruct (match_point s) as [[d1 d2]|] eqn:Hm; [|done].
  destruct (_ || _) eqn:Hr; [done|]. intros [= <-].
  apply orb_false_iff in Hr as [Hx Hy].
  rewrite Z.gtb_ltb, Z.ltb_ge in Hx, Hy.
  apply match_point_spec in Hm as Hre.
  exists s, d1, d2. split; [done|]. split; [done|]. split; [done|].
  destruct Hre as (w1 & w2 & _ & _ & _ & Hd1 & Hd2 & _).
  simpl. split; (split; [by apply parseInt_nonneg|done]).
Qed.

Lemma parse_points_valid (points : list JS.value) (cs : list cell) (acc : JS.ParseAcc) :
  Forall2 (λ p c, JS.parsePoint p = Ok c) points cs →
  ∃ mx my,
    forEach JS.parse_step points acc
      = Ok {| JS.parsedPoints := JS.parsedPoints acc ++ cs;
              JS.accMaxX := mx; JS.accMaxY := my |}
    ∧ JS.accMaxX acc ≤ mx ∧ JS.accMaxY acc ≤ my
    ∧ (∀ c, c ∈ cs → c.1 ≤ mx ∧ c.2 ≤ my)
    ∧ (JS.accMaxX acc ≤ MAX_VALUE → mx ≤ MAX_VALUE)
    ∧ (JS.accMaxY acc ≤ MAX_VALUE → my ≤ MAX_VALUE).
Proof.
  intros Hall. revert acc. induction Hall as [|p c points cs Hp _ IH]; intros acc.
  - exists (JS.accMaxX acc), (JS.accMaxY acc). simpl. rewrite app_nil_r.
    destruct acc. simpl. split; [done|]. split; [done|]. split; [done|].
    split; [|done]. intros c Hc. by apply elem_of_nil in Hc.
  - rewrite forEach_cons, (parse_step_Ok _ _ _ Hp), bind_Ok.
    destruct (IH {| JS.parsedPoints := JS.parsedPoints acc ++ [c];
                    JS.accMaxX := JS.accMaxX acc `max` c.1;
                    JS.accMaxY := JS.accMaxY acc `max` c.2 |})
      as (mx & my & -> & Hmx & Hmy & Hcs & Hbx & Hby). simpl in *.
    exists mx, my. rewrite <- app_assoc. simpl.
    split; [done|]. split; [lia|]. split; [lia|].
    apply parsePoint_Ok_inv in Hp as (s0 & e1 & e2 & _ & _ & _ & Hcx & Hcy).
    split; [|lia].
    intros c' [Heq|Hc']%elem_of_cons; [rewrite Heq; lia|by apply Hcs].
Qed.

Lemma parse_points_invalid (pre : list JS.value) (bad : JS.value)
    (post : list JS.value) (e : exn) (acc : JS.ParseAcc) :
  Forall (λ p, ∃ c, JS.parsePoint p = Ok c) pre →
  JS.parsePoint bad = Err e →
  forEach JS.parse_step (pre ++ bad :: post) acc = Err e.
Proof.
  intros Hpre Hbad.
  assert (∃ cs, Forall2 (λ p c, JS.parsePoint p = Ok c) pre cs) as [cs Hcs].
  { clear -Hpre. induction Hpre as [|p pre [c Hc] _ [cs IH]]; [by exists []|].
    exists (c :: cs). by constructor. }
  rewrite forEach_app.
  destruct (parse_points_valid pre cs acc Hcs) as (mx & my & -> & _).
  by rewrite bind_Ok, forEach_cons, (parse_step_Err _ _ _ Hbad).
Qed.

(** ** Building the grid *)

Lemma fill_grid (mx my : Z) (cs : list cell) (g : Grid) (O : gset cell) :
  repr mx my g O → Forall (inb mx my) cs →
  ∃ g', forEach (λ g p, grid_set g p 1) cs g = Ok g'
        ∧ repr mx my g' (list_to_set cs ∪ O)
        ∧ (∀ c, grid_get g c = Ok 1 → grid_get g' c = Ok 1)
        ∧ (∀ c, c ∈ cs → grid_get g' c = Ok 1).
Proof.
  intros Hrepr Hcs. revert g O Hrepr.
  induction Hcs as [|c cs Hc _ IH]; intros g O Hrepr; simpl.
  - exists g. split; [done|]. split.
    { by replace (∅ ∪ O) with O by (clear; set_solver). }
    split; [done|]. intros c Hc. by apply elem_of_nil in Hc.
  - destruct (grid_set_spec mx my g c 1) as (g1 & Hset & Hwf1 & Hget1 & Hother);
      [apply Hrepr|done|].
    destruct (repr_set mx my g O c 1 Hrepr Hc) as (g1' & Hset' & Hrepr1).
    rewrite Hset in Hset'. injection Hset' as <-. simpl in Hrepr1.
    rewrite Hset. simpl.
    destruct (IH g1 _ Hrepr1) as (g' & -> & Hrepr' & Hkeep & Hones).
    exists g'. split; [done|]. split.
    { by replace ({[c]} ∪ list_to_set cs ∪ O) with (list_to_set cs ∪ ({[c]} ∪ O))
        by (clear; set_solver). }
    split.
    + intros c' Hc'. apply Hkeep.
      destruct (decide (c' = c)) as [->|Hne]; [done|]. by rewrite Hother.
    + intros c' [->|Hc']%elem_of_cons; [by apply Hkeep|by apply Hones].
Qed.

Lemma parsePoints_correct (points : list JS.value) (cs : list cell) :
  Forall2 (λ p c, JS.parsePoint p = Ok c) points cs →
  ∃ g mx my,
    JS.parsePoints points = Ok {| JS.grid := g; JS.maxX := mx; JS.maxY := my |}
    ∧ repr mx my g (list_to_set cs)
    ∧ mx ≤ MAX_VALUE ∧ my ≤ MAX_VALUE.
Proof.
  intros Hall. unfold JS.parsePoints.
  destruct (parse_points_valid points cs
              {| JS.parsedPoints := []; JS.accMaxX := -1; JS.accMaxY := -1 |} Hall)
    as (mx & my & -> & Hmx & Hmy & Hcs & Hbx & Hby). simpl in *.
  destruct (fill_grid mx my cs (createEmptyGrid mx my) ∅) as (g & -> & Hrepr & _).
  - split; [apply createEmptyGrid_wf|]. intros c. split; [by intros ?%not_elem_of_empty|].
    unfold occ. intros Hocc.
    destruct (grid_get (createEmptyGrid mx my) c) as [v|] eqn:Hg; [|done].
    pose proof (grid_get_inb _ _ _ _ _ (createEmptyGrid_wf mx my) Hg) as Hin.
    rewrite createEmptyGrid_get in Hg by done. by injection Hg as <-.
  - apply Forall_forall. intros c Hc. destruct (Hcs c Hc) as [Hx Hy].
    apply list_elem_of_lookup in Hc as [i Hi].
    destruct (Forall2_lookup_r _ _ _ _ _ Hall Hi) as (p & _ & Hp).
    apply parsePoint_Ok_inv in Hp as (s0 & e1 & e2 & _ & _ & _ & Hcx & Hcy).
    unfold inb. lia.
  - exists g, mx, my. simpl. split; [done|]. split; [|unfold MAX_VALUE in *; lia].
    by replace (list_to_set cs) with (list_to_set cs ∪ (∅ : gset cell))
      by (clear; set_solver).
Qed.

(** ** The whole call *)

Lemma render_parcels (points : list JS.value) (cs : list cell) :
  Forall2 (λ p c, JS.parsePoint p = Ok c) points cs →
  ∃ found,
    JS.render points = Ok (perimeters_of (list_to_set cs) found)
    ∧ Forall (λ sc, is_component (list_to_set cs) sc.1 sc.2 ∧ least sc.2 sc.1) found
    ∧ StronglySorted lex_lt found.*1
    ∧ ∀ c, c ∈ cs → c ∈ ⋃ (found.*2).
Proof.
  intros Hall. destruct points as [|p points].
  - apply Forall2_nil_inv_l in Hall as ->. exists []. simpl.
    split; [done|]. split; [constructor|]. split; [constructor|].
    intros c Hc. by apply elem_of_nil in Hc.
  - destruct (parsePoints_correct _ _ Hall) as (g & mx & my & Hparse & Hrepr & _).
    destruct (findParcels_correct mx my _ g Hrepr)
      as (found & g' & Hfind & _ & Hcomps & Hsorted & Hcov).
    exists found. split; [|split; [done|split; [done|]]].
    + unfold JS.render. rewrite Hparse, bind_Ok. simpl. by rewrite Hfind.
    + intros c Hc. apply Hcov. by apply elem_of_list_to_set.
Qed.

Lemma lex_lt_irrefl (a : cell) : ¬ lex_lt a a.
Proof. unfold lex_lt. lia. Qed.

Lemma least_unique (C : gset cell) (a b : cell) : least C a → least C b → a = b.
Proof.
  intros [Ha Hla] [Hb Hlb].
  destruct (Hla b Hb) as [|Hab]; [done|]. destruct (Hlb a Ha) as [|Hba]; [done|].
  exfalso. destruct a as [ax ay], b as [bx b_y].
  unfold lex_lt in *. simpl in *. lia.
Qed.

(** The parcels found are pairwise distinct and are all the parcels. *)
Lemma found_all_parcels (O : gset cell) (found : list (cell * gset cell)) :
  Forall (λ sc, is_component O sc.1 sc.2 ∧ least sc.2 sc.1) found →
  StronglySorted lex_lt found.*1 →
  (∀ c, c ∈ O → c ∈ ⋃ (found.*2)) →
  NoDup found.*2 ∧ ∀ C, is_parcel O C ↔ C ∈ found.*2.
Proof.
  intros Hcomps Hsorted Hcov. split.
  - clear Hcov. induction found as [|[s C] found IH]; [constructor|].
    apply Forall_cons in Hcomps as [[HC Hleast] Hcomps].
    simpl in *. apply StronglySorted_cons in Hsorted as [Hlt Hsorted].
    constructor; [|by apply IH].
    intros (sc & HeqC & Hsc)%list_elem_of_fmap. simpl in HeqC.
    rewrite Forall_forall in Hcomps. destruct (Hcomps _ Hsc) as [_ Hleast'].
    rewrite <- HeqC in Hleast'.
    pose proof (least_unique _ _ _ Hleast Hleast') as Heq.
    rewrite Forall_forall in Hlt.
    apply (lex_lt_irrefl s). rewrite Heq at 2.
    apply Hlt. apply list_elem_of_fmap. by exists sc.
  - intros C. split.
    + intros [c HC]. pose proof (component_start _ _ _ HC) as HcC.
      destruct HC as [Hc HC'].
      apply Hcov in Hc as (C' & HC'in & HcC')%elem_of_union_list.
      apply list_elem_of_fmap in HC'in as Hsc. destruct Hsc as (sc & -> & Hsc).
      rewrite Forall_forall in Hcomps. destruct (Hcomps _ Hsc) as [Hcomp _].
      pose proof (component_of_member _ _ _ _ Hcomp HcC') as Hcomp'.
      assert (C = sc.2) as ->; [|done].
      apply (component_unique O c); [|done]. split; [|done]. by destruct Hcomp'.
    + intros (sc & -> & Hsc)%list_elem_of_fmap.
      rewrite Forall_forall in Hcomps. destruct (Hcomps _ Hsc) as [Hcomp _].
      by exists sc.1.
Qed.

(** ** Perimeters of growing sets *)

Lemma sum_list_with_ext {A : Type} (f g : A → nat) (l : list A) :
  (∀ a, a ∈ l → f a = g a) → sum_list_with f l = sum_list_with g l.
Proof.
  induction l as [|a l IH]; intros Hfg; simpl; [done|].
  rewrite Hfg by left. rewrite IH; [done|]. intros b Hb. apply Hfg. by right.
Qed.

Lemma sum_list_with_add {A : Type} (f g : A → nat) (l : list A) :
  sum_list_with (λ a, f a + g a)%nat l = (sum_list_with f l + sum_list_with g l)%nat.
Proof. induction l as [|a l IH]; simpl; [done|]. rewrite IH. lia. Qed.

Lemma sum_ind_eq (l : list cell) (n : cell) :
  NoDup l → sum_list_with (λ c, ind (c = n)) l = ind (n ∈ l).
Proof.
  induction 1 as [|c l Hc _ IH]; cbn [sum_list_with].
  - unfold ind. case_decide as Hn; [by apply elem_of_nil in Hn|done].
  - rewrite IH. unfold ind. rewrite (decide_ext (n ∈ c :: l) (n = c ∨ n ∈ l))
      by apply elem_of_cons.
    repeat case_decide; simplify_eq; try done; exfalso; naive_solver.
Qed.

Lemma ind_elements (S : gset cell) (n : cell) : ind (n ∈ elements S) = ind (n ∈ S).
Proof. unfold ind. apply decide_ext, elem_of_elements. Qed.

Lemma shared_sum (S : gset cell) (p : cell) :
  shared S p = (ind ((p.1 - 1, p.2)%Z ∈ S) + ind ((p.1 + 1, p.2)%Z ∈ S)
                + ind ((p.1, p.2 - 1)%Z ∈ S) + ind ((p.1, p.2 + 1)%Z ∈ S))%nat.
Proof.
  unfold shared, neighbours, ind. rewrite !filter_cons, filter_nil.
  repeat case_decide; simpl; lia.
Qed.

Lemma sum_ind_neighbours (S : gset cell) (p : cell) :
  sum_list_with (λ c, ind (p ∈ neighbours c)) (elements S) = shared S p.
Proof.
  rewrite (sum_list_with_ext _ (λ c,
    ind (c = (p.1 - 1, p.2)%Z) + ind (c = (p.1 + 1, p.2)%Z)
    + ind (c = (p.1, p.2 - 1)%Z) + ind (c = (p.1, p.2 + 1)%Z))%nat).
  - rewrite !sum_list_with_add. rewrite !sum_ind_eq by apply NoDup_elements.
    do 4 rewrite (ind_elements S). by rewrite shared_sum.
  - intros [cx cy] _. destruct p as [px py]. unfold ind. simpl.
    destruct (decide ((px, py) ∈ neighbours (cx, cy))) as [Hin|Hnin].
    + unfold neighbours in Hin. simpl in Hin.
      rewrite !elem_of_cons, elem_of_nil in Hin.
      destruct Hin as [Hin|[Hin|[Hin|[Hin|[]]]]]; injection Hin as -> ->;
        repeat case_decide; simplify_eq; try lia;
        exfalso; match goal with H : _ ≠ _ |- _ => apply H; f_equal; lia end.
    + unfold neighbours in Hnin. simpl in Hnin.
      rewrite !elem_of_cons, elem_of_nil in Hnin.
      repeat case_decide; simplify_eq; try done; exfalso; try lia;
        apply Hnin; repeat first [left; f_equal; lia | right].
Qed.

Lemma open_edge_ind (S : gset cell) (n : cell) :
  (open_edge S n + ind (n ∈ S) = 1)%nat.
Proof. unfold open_edge, ind. by case_decide. Qed.

Lemma open_edge_add_ne (S : gset cell) (p n : cell) :
  n ≠ p → open_edge ({[ p ]} ∪ S) n = open_edge S n.
Proof.
  intros Hne. unfold open_edge.
  apply decide_ext. rewrite elem_of_union, elem_of_singleton. tauto.
Qed.

Lemma open_edge_add (S : gset cell) (p n : cell) :
  p ∉ S → (open_edge ({[ p ]} ∪ S) n + ind (n = p) = open_edge S n)%nat.
Proof.
  intros Hp. unfold ind. destruct (decide (n = p)) as [->|Hne].
  - unfold open_edge. rewrite decide_True by (apply elem_of_union; left; by apply elem_of_singleton).
    by rewrite decide_False.
  - rewrite open_edge_add_ne by done. lia.
Qed.

(** The new cell contributes the edges it does not share. *)
Lemma open_edges_new (S : gset cell) (p : cell) :
  (open_edges ({[ p ]} ∪ S) p + shared S p = 4)%nat.
Proof.
  rewrite open_edges_sum, shared_sum.
  rewrite !open_edge_add_ne by (destruct p; intros [=]; lia).
  pose proof (open_edge_ind S (p.1 - 1, p.2)).
  pose proof (open_edge_ind S (p.1 + 1, p.2)).
  pose proof (open_edge_ind S (p.1, p.2 - 1)).
  pose proof (open_edge_ind S (p.1, p.2 + 1)). lia.
Qed.

(** An old cell loses the edge it shares with the new cell. *)
Lemma open_edges_old (S : gset cell) (p c : cell) :
  p ∉ S →
  (open_edges ({[ p ]} ∪ S) c + ind (p ∈ neighbours c) = open_edges S c)%nat.
Proof.
  intros Hp. rewrite !open_edges_sum.
  pose proof (open_edge_add S p (c.1 - 1, c.2) Hp).
  pose proof (open_edge_add S p (c.1 + 1, c.2) Hp).
  pose proof (open_edge_add S p (c.1, c.2 - 1) Hp).
  pose proof (open_edge_add S p (c.1, c.2 + 1) Hp).
  assert (ind (p ∈ neighbours c)
          = ind ((c.1 - 1, c.2)%Z = p) + ind ((c.1 + 1, c.2)%Z = p)
            + ind ((c.1, c.2 - 1)%Z = p) + ind ((c.1, c.2 + 1)%Z = p))%nat as ->; [|lia].
  clear. destruct c as [cx cy], p as [px py]. unfold ind. simpl.
  destruct (decide ((px, py) ∈ neighbours (cx, cy))) as [Hin|Hnin].
  - unfold neighbours in Hin. simpl in Hin.
    rewrite !elem_of_cons, elem_of_nil in Hin.
    destruct Hin as [Hin|[Hin|[Hin|[Hin|[]]]]]; injection Hin as -> ->;
      repeat case_decide; simplify_eq; try lia;
      exfalso; match goal with H : _ ≠ _ |- _ => apply H; f_equal; lia end.
  - unfold neighbours in Hnin. simpl in Hnin.
    rewrite !elem_of_cons, elem_of_nil in Hnin.
    repeat case_decide; simplify_eq; try done; exfalso; try lia;
      apply Hnin; repeat first [left; f_equal; lia | right].
Qed.

Lemma perimeter_self_add (S : gset cell) (p : cell) :
  p ∉ S →
  (perimeter ({[ p ]} ∪ S) ({[ p ]} ∪ S) + 2 * shared S p = perimeter S S + 4)%nat.
Proof.
  intros Hp. rewrite perimeter_add by done.
  pose proof (open_edges_new S p) as Hnew.
  assert (perimeter ({[ p ]} ∪ S) S + shared S p = perimeter S S)%nat as Hold; [|lia].
  unfold perimeter. rewrite <- sum_ind_neighbours, <- sum_list_with_add.
  apply sum_list_with_ext. intros c _. by apply open_edges_old.
Qed.

Lemma shared_le (S : gset cell) (p : cell) : (shared S p ≤ 4)%nat.
Proof. unfold shared. by etrans; [apply length_filter|]. Qed.

Lemma perimeter_self_even (S : gset cell) : Nat.Even (perimeter S S).
Proof.
  induction S as [|p S Hp [m IH]] using set_ind_L.
  - exists 0%nat. by rewrite perimeter_empty.
  - pose proof (perimeter_self_add S p Hp) as Hadd.
    exists (m + 2 - shared S p)%nat. lia.
Qed.

(** The cells facing a parcel from outside are unoccupied, so its
    perimeter can be measured against the parcel alone. *)
Lemma perimeter_component (O : gset cell) (c : cell) (C : gset cell) :
  is_component O c C → perimeter O C = perimeter C C.
Proof.
  intros HC. unfold perimeter. apply sum_list_with_ext.
  intros a Ha%elem_of_elements. rewrite !open_edges_sum.
  assert (∀ n, adjacent a n → open_edge O n = open_edge C n) as Hn.
  { intros n Hadj. unfold open_edge. apply decide_ext. split.
    - intros Hn. by eapply component_closed.
    - apply (component_sub _ _ _ HC). }
  rewrite !Hn; [done|..]; unfold adjacent, neighbours; set_solver.
Qed.

(** ** Straight runs *)

Lemma elem_of_run (o : orientation) (x0 y0 : Z) (n : nat) (c : cell) :
  c ∈ run o x0 y0 n ↔
    match o with
    | Horizontal => c.2 = y0 ∧ x0 ≤ c.1 < x0 + Z.of_nat n
    | Vertical => c.1 = x0 ∧ y0 ≤ c.2 < y0 + Z.of_nat n
    end.
Proof.
  unfold run. rewrite list_elem_of_fmap. setoid_rewrite elem_of_seq.
  destruct c as [cx cy]. split.
  - intros (i & -> & Hi). destruct o; simpl; lia.
  - destruct o; simpl; intros [-> Hc].
    + exists (Z.to_nat (cx - x0)). split; [f_equal|]; lia.
    + exists (Z.to_nat (cy - y0)). split; [f_equal|]; lia.
Qed.

Lemma run_snoc (o : orientation) (x0 y0 : Z) (n : nat) :
  list_to_set (run o x0 y0 (S n))
    =@{gset cell} {[ run_cell o x0 y0 n ]} ∪ list_to_set (run o x0 y0 n).
Proof.
  unfold run. rewrite seq_S, fmap_app, list_to_set_app_L. simpl.
  set_solver.
Qed.

Lemma run_shared (o : orientation) (x0 y0 : Z) (n : nat) :
  shared (list_to_set (run o x0 y0 (S n))) (run_cell o x0 y0 (S n)) = 1%nat.
Proof.
  set (O := list_to_set (run o x0 y0 (S n)) : gset cell).
  assert (∀ c, c ∈ O ↔
    match o with
    | Horizontal => c.2 = y0 ∧ x0 ≤ c.1 < x0 + Z.of_nat (S n)
    | Vertical => c.1 = x0 ∧ y0 ≤ c.2 < y0 + Z.of_nat (S n)
    end) as HO.
  { intros c. unfold O. rewrite elem_of_list_to_set. apply elem_of_run. }
  clearbody O. rewrite shared_sum. unfold ind.
  destruct o; cbn [run_cell fst snd];
    repeat match goal with
           | |- context [decide (?c ∈ O)] =>
             let H := fresh in
             destruct (decide (c ∈ O)) as [H|H]; rewrite HO in H; cbn [fst snd] in H
           end;
    lia.
Qed.

Lemma run_perimeter (o : orientation) (x0 y0 : Z) (n : nat) :
  perimeter (list_to_set (run o x0 y0 (S n))) (list_to_set (run o x0 y0 (S n)))
    = (2 * S n + 2)%nat.
Proof.
  induction n as [|n IH].
  - rewrite run_snoc. simpl.
    pose proof (perimeter_self_add ∅ (run_cell o x0 y0 0)) as Hadd.
    rewrite perimeter_empty in Hadd.
    assert (shared ∅ (run_cell o x0 y0 0) = 0%nat) as Hsh.
    { rewrite shared_sum. unfold ind. by repeat case_decide. }
    rewrite Hsh in Hadd. specialize (Hadd (not_elem_of_empty _)). lia.
  - rewrite run_snoc.
    pose proof (perimeter_self_add (list_to_set (run o x0 y0 (S n)))
                  (run_cell o x0 y0 (S n))) as Hadd.
    rewrite run_shared, IH in Hadd. 
    assert (run_cell o x0 y0 (S n) ∉@{gset cell} list_to_set (run o x0 y0 (S n))) as Hnew.
    { rewrite elem_of_list_to_set, elem_of_run. destruct o; simpl; lia. }
    specialize (Hadd Hnew). lia.
Qed.

Lemma run_connected (o : orientation) (x0 y0 : Z) (n : nat) :
  is_component (list_to_set (run o x0 y0 (S n))) (x0, y0)
    (list_to_set (run o x0 y0 (S n))).
Proof.
  set (O := list_to_set (run o x0 y0 (S n)) : gset cell).
  assert (∀ i, (i < S n)%nat → run_cell o x0 y0 i ∈ O) as Hin.
  { intros i Hi. unfold O. rewrite elem_of_list_to_set, elem_of_run.
    destruct o; simpl; lia. }
  assert (run_cell o x0 y0 0 = (x0, y0)) as H0.
  { destruct o; simpl; f_equal; lia. }
  assert ((x0, y0) ∈ O) as Hc0.
  { rewrite <- H0. apply Hin. lia. }
  split; [done|]. intros b. split; [|apply connected_in].
  unfold O. rewrite elem_of_list_to_set. unfold run.
  intros (i & -> & Hi%elem_of_seq)%list_elem_of_fmap.
  induction i as [|i IH].
  - rewrite H0. by apply connected_refl.
  - eapply connected_step; [apply IH; lia| |apply Hin; lia].
    unfold adjacent, neighbours. destruct o; simpl.
    + replace (x0 + Z.of_nat (S i)) with (x0 + Z.of_nat i + 1) by lia. set_solver.
    + replace (y0 + Z.of_nat (S i)) with (y0 + Z.of_nat i + 1) by lia. set_solver.
Qed.

Lemma NoDup_singleton_eq {A : Type} (l : list A) (a : A) :
  NoDup l → (∀ x, x ∈ l ↔ x = a) → l = [a].
Proof.
  intros Hnd Hl. destruct l as [|x l].
  - exfalso. eapply elem_of_nil. by apply Hl.
  - assert (x = a) as -> by (apply Hl; left).
    apply NoDup_cons in Hnd as [Hx Hnd]. destruct l as [|y l]; [done|].
    assert (y = a) as -> by (apply Hl; right; left).
    destruct Hx. left.
Qed.

(** When the occupied cells form one parcel, one perimeter is returned. *)
Lemma render_connected (points : list JS.value) (cs : list cell) (c : cell) :
  Forall2 (λ p c, JS.parsePoint p = Ok c) points cs →
  is_component (list_to_set cs) c (list_to_set cs) →
  JS.render points = Ok [Z.of_nat (perimeter (list_to_set cs) (list_to_set cs))].
Proof.
  intros Hall HO.
  destruct (render_parcels points cs Hall) as (found & -> & Hcomps & Hsorted & Hcov).
  destruct (found_all_parcels (list_to_set cs) found Hcomps Hsorted) as [Hnd Hparcels].
  { intros a Ha. apply Hcov. by apply elem_of_list_to_set in Ha. }
  assert (found.*2 = [list_to_set cs]) as Hfound.
  { apply NoDup_singleton_eq; [done|]. intros C. rewrite <- Hparcels. split.
    - intros [a Ha]. pose proof Ha as [HaO _].
      apply (component_unique (list_to_set cs) a); [done|].
      eapply component_of_member; [exact HO|done].
    - intros ->. by exists c. }
  destruct found as [|[s C] [|? ?]]; simplify_eq/=. done.
Qed.

(** ** The TypeScript port against the JavaScript module *)

Lemma for_range_fmap {A B : Type} (f : A → B) (n : nat) (lo : Z)
    (body1 : Z → A → result A) (body2 : Z → B → result B) (s : A) :
  (∀ i t, body2 i (f t) = f <$> body1 i t) →
  for_range n lo body2 (f s) = f <$> for_range n lo body1 s.
Proof.
  intros Hbody. revert lo s. induction n as [|n IH]; intros lo s; simpl; [done|].
  rewrite Hbody. destruct (body1 lo s) as [t|e]; simpl; [apply IH|done].
Qed.

Lemma ts_parsePoint (s : jsstring) :
  TS.parsePoint s = to_ipoint <$> JS.parsePoint (JS.VString s).
Proof.
  unfold TS.parsePoint, JS.parsePoint.
  destruct (match_point s) as [[c1 c2]|]; [|done]. simpl.
  by destruct (_ || _).
Qed.

Lemma ts_parse_step (a : JS.ParseAcc) (s : jsstring) :
  TS.parse_step (to_acc a) s = to_acc <$> JS.parse_step a (JS.VString s).
Proof.
  unfold TS.parse_step, JS.parse_step. rewrite ts_parsePoint.
  destruct (JS.parsePoint (JS.VString s)) as [c|e]; [|done].
  simpl. unfold to_acc. simpl. by rewrite fmap_app.
Qed.

Lemma ts_parse_all (points : list jsstring) (a : JS.ParseAcc) :
  forEach TS.parse_step points (to_acc a)
    = to_acc <$> forEach JS.parse_step (JS.VString <$> points) a.
Proof.
  revert a. induction points as [|s points IH]; intros a; [done|].
  rewrite fmap_cons, !forEach_cons, ts_parse_step.
  destruct (JS.parse_step a (JS.VString s)) as [a'|e]; [|done]. apply IH.
Qed.

Lemma ts_fill (cs : list cell) (g : Grid) :
  forEach (λ g point, grid_set g (TS.x point, TS.y point) 1) (to_ipoint <$> cs) g
    = forEach (λ g p, grid_set g p 1) cs g.
Proof.
  revert g. induction cs as [|[cx cy] cs IH]; intros g; [done|].
  rewrite fmap_cons, !forEach_cons. simpl.
  destruct (grid_set g (cx, cy) 1) as [g'|e]; [|done]. apply IH.
Qed.

Lemma ts_parsePoints (points : list jsstring) :
  TS.parsePoints points = to_igrid <$> JS.parsePoints (JS.VString <$> points).
Proof.
  unfold TS.parsePoints, JS.parsePoints.
  change {| TS.parsedPoints := []; TS.accMaxX := -1; TS.accMaxY := -1 |}
    with (to_acc {| JS.parsedPoints := []; JS.accMaxX := -1; JS.accMaxY := -1 |}).
  rewrite ts_parse_all.
  destruct (forEach JS.parse_step _ _) as [a|e]; [|done].
  simpl. rewrite ts_fill. by destruct (forEach _ _ _).
Qed.

Lemma ts_look (mx my : Z) (g : Grid) (S : gset cell) (b : bool) (nx ny : Z)
    (so : list cell * Z) :
  TS.look {| TS.grid := g; TS.maxX := mx; TS.maxY := my |} S b nx ny (to_so so)
    = to_so <$> JS.look g S b (nx, ny) so.
Proof.
  unfold TS.look, JS.look, TS.isNewNeighbour, JS.isNewNeighbour,
    TS.hasNotBeenSeen, JS.hasBeenSeen. simpl.
  destruct b; simpl.
  - destruct (grid_get g (nx, ny)) as [v|e]; [|done]. simpl.
    destruct (truthy v && _); [done|]. by destruct (negb _).
  - by destruct (negb _).
Qed.

Lemma ts_trace_loop (mx my : Z) (fuel : nat) (st : JS.TraceState) :
  TS.trace_loop fuel (to_state mx my st) = to_state mx my <$> JS.trace_loop fuel mx my st.
Proof.
  revert st. induction fuel as [|fuel IH]; intros [g S K e].
  - destruct K; done.
  - destruct K as [|[px py] rest]; [done|].
    cbn [TS.trace_loop JS.trace_loop to_state TS.stack JS.stack fmap list_fmap
         to_ipoint fst snd TS.x TS.y TS.gridData TS.grid JS.t_grid TS.seen JS.seen
         TS.maxX TS.maxY TS.openEdges JS.openEdges].
    destruct (grid_set g (px, py) 0) as [g'|err]; [|done].
    rewrite !bind_Ok. unfold TS.hasNotBeenSeen, JS.hasBeenSeen.
    destruct (negb (bool_decide ((px, py) ∈ S))).
    + change (to_ipoint <$> rest, e) with (to_so (rest, e)).
      rewrite (ts_look mx my g' S _ _ _ (rest, e)).
      destruct (JS.look g' S (px >? 0) (px - 1, py) (rest, e)) as [so1|err]; [|done].
      cbn [fmap result_fmap]. rewrite !bind_Ok, (ts_look mx my g' S _ _ _ so1).
      destruct (JS.look g' S (px <? mx) (px + 1, py) so1) as [so2|err]; [|done].
      cbn [fmap result_fmap]. rewrite !bind_Ok, (ts_look mx my g' S _ _ _ so2).
      destruct (JS.look g' S (py >? 0) (px, py - 1) so2) as [so3|err]; [|done].
      cbn [fmap result_fmap]. rewrite !bind_Ok, (ts_look mx my g' S _ _ _ so3).
      destruct (JS.look g' S (py <? my) (px, py + 1) so3) as [so4|err]; [|done].
      cbn [fmap result_fmap]. rewrite !bind_Ok.
      exact (IH {| JS.t_grid := g'; JS.seen := {[(px, py)]} ∪ S;
                   JS.stack := so4.1; JS.openEdges := so4.2 |}).
    + exact (IH {| JS.t_grid := g'; JS.seen := S; JS.stack := rest; JS.openEdges := e |}).
Qed.

Lemma ts_traceParcel (mx my : Z) (g : Grid) (x y : Z) :
  TS.traceParcel {| TS.grid := g; TS.maxX := mx; TS.maxY := my |} x y
    = to_traced mx my <$> JS.traceParcel g x y mx my.
Proof.
  unfold TS.traceParcel, JS.traceParcel. cbn [TS.maxX TS.maxY].
  change {| TS.gridData := {| TS.grid := g; TS.maxX := mx; TS.maxY := my |};
            TS.seen := ∅; TS.stack := [ {| TS.x := x; TS.y := y |} ];
            TS.openEdges := 0 |}
    with (to_state mx my
            {| JS.t_grid := g; JS.seen := ∅; JS.stack := [(x, y)]; JS.openEdges := 0 |}).
  rewrite ts_trace_loop.
  by destruct (JS.trace_loop _ _ _ _).
Qed.

Lemma ts_scan_cell (mx my x y : Z) (s : list Z * Grid) :
  TS.scan_cell x y (to_scan mx my s) = to_scan mx my <$> JS.scan_cell mx my x y s.
Proof.
  unfold TS.scan_cell, JS.scan_cell. destruct s as [perims g]. simpl.
  destruct (grid_get g (x, y)) as [v|e]; [|done]. simpl.
  destruct (truthy v); [|done].
  rewrite ts_traceParcel. by destruct (JS.traceParcel _ _ _ _ _).
Qed.

Lemma ts_findParcels (g : Grid) (mx my : Z) :
  TS.findParcels {| TS.grid := g; TS.maxX := mx; TS.maxY := my |}
    = to_scan mx my <$> JS.findParcels g mx my.
Proof.
  unfold TS.findParcels, JS.findParcels. cbn [TS.maxX TS.maxY].
  change ([], {| TS.grid := g; TS.maxX := mx; TS.maxY := my |})
    with (to_scan mx my ([], g)).
  apply (for_range_fmap (to_scan mx my)). intros x t.
  apply (for_range_fmap (to_scan mx my)). intros y u.
  apply ts_scan_cell.
Qed.

Lemma ts_js_equiv (points : list jsstring) :
  TS.computeParcelPerimeters points = JS.render (JS.VString <$> points).
Proof.
  destruct points as [|s points]; [done|].
  unfold TS.computeParcelPerimeters, JS.render.
  rewrite ts_parsePoints. rewrite fmap_cons.
  destruct (JS.parsePoints _) as [[g mx my]|e]; [|done].
  change (to_igrid <$> Ok {| JS.grid := g; JS.maxX := mx; JS.maxY := my |})
    with (Ok {| TS.grid := g; TS.maxX := mx; TS.maxY := my |}).
  rewrite !bind_Ok, ts_findParcels. cbn [JS.grid JS.maxX JS.maxY].
  by destruct (JS.findParcels _ _ _).
Qed.

(** ** Consequences for the whole call *)

Lemma valid_strings_values (strs : list jsstring) (cs : list cell) :
  Forall2 (λ s c, JS.parsePoint (JS.VString s) = Ok c) strs cs →
  Forall2 (λ p c, JS.parsePoint p = Ok c) (JS.VString <$> strs) cs.
Proof. intros H. by apply Forall2_fmap_l. Qed.

Lemma parsed_all_valid (points : list JS.value) (acc acc' : JS.ParseAcc) :
  forEach JS.parse_step points acc = Ok acc' →
  ∃ cs, Forall2 (λ p c, JS.parsePoint p = Ok c) points cs.
Proof.
  revert acc. induction points as [|p points IH]; intros acc Hrun.
  - by exists [].
  - rewrite forEach_cons in Hrun.
    destruct (JS.parsePoint p) as [c|e] eqn:Hp.
    + rewrite (parse_step_Ok _ _ _ Hp), bind_Ok in Hrun.
      destruct (IH _ Hrun) as [cs Hcs]. exists (c :: cs). by constructor.
    + by rewrite (parse_step_Err _ _ _ Hp) in Hrun.
Qed.

Lemma first_invalid (points : list JS.value) :
  Exists (λ p, ∃ e, JS.parsePoint p = Err e) points →
  ∃ pre bad post e, points = pre ++ bad :: post
    ∧ Forall (λ p, ∃ c, JS.parsePoint p = Ok c) pre
    ∧ JS.parsePoint bad = Err e.
Proof.
  induction points as [|p points IH]; intros Hex; [by apply Exists_nil in Hex|].
  destruct (JS.parsePoint p) as [c|e] eqn:Hp.
  - apply Exists_cons in Hex as [[e He]|Hex]; [congruence|].
    destruct (IH Hex) as (pre & bad & post & e & -> & Hpre & Hbad).
    exists (p :: pre), bad, post, e. split; [done|]. split; [|done].
    constructor; [by exists c|done].
  - exists [], p, points, e. split; [done|]. split; [constructor|done].
Qed.

Lemma render_invalid (pre : list JS.value) (bad : JS.value)
    (post : list JS.value) (e : exn) :
  Forall (λ p, ∃ c, JS.parsePoint p = Ok c) pre →
  JS.parsePoint bad = Err e →
  JS.render (pre ++ bad :: post) = Err e.
Proof.
  intros Hpre Hbad. unfold JS.render, JS.parsePoints.
  rewrite (parse_points_invalid pre bad post e _ Hpre Hbad).
  by destruct (pre ++ bad :: post) eqn:Heq; [destruct pre|].
Qed.

Lemma parsePoint_error (p : JS.value) (e : exn) :
  JS.parsePoint p = Err e →
  e = TypeError TYPE_ERROR_MSG ∨ e = RangeError RANGE_ERROR_MSG.
Proof.
  unfold JS.parsePoint. destruct p as [s|n]; [|intros [= <-]; by left].
  destruct (match_point s) as [[c1 c2]|]; [|intros [= <-]; by left].
  destruct (_ || _); [intros [= <-]; by right|done].
Qed.

Lemma perimeters_even (O : gset cell) (found : list (cell * gset cell)) :
  Forall (λ sc, is_component O sc.1 sc.2 ∧ least sc.2 sc.1) found →
  Forall (λ p, 0 ≤ p ∧ Z.Even p) (perimeters_of O found).
Proof.
  intros Hcomps. unfold perimeters_of. apply Forall_fmap.
  eapply Forall_impl; [exact Hcomps|]. intros [s C] [HC _]. simpl in *.
  split; [lia|]. rewrite (perimeter_component O s C HC).
  destruct (perimeter_self_even C) as [m ->]. exists (Z.of_nat m). lia.
Qed.

Lemma run_render (o : orientation) (x0 y0 : Z) (N : nat)
    (points : list JS.value) (cs : list cell) :
  (1 ≤ N)%nat →
  Forall2 (λ p c, JS.parsePoint p = Ok c) points cs →
  cs ≡ₚ run o x0 y0 N →
  JS.render points = Ok [2 * Z.of_nat N + 2].
Proof.
  intros HN Hall Hperm. destruct N as [|n]; [lia|].
  assert (list_to_set cs =@{gset cell} list_to_set (run o x0 y0 (S n))) as HO.
  { apply set_eq. intros c. rewrite !elem_of_list_to_set. by rewrite Hperm. }
  rewrite (render_connected points cs (x0, y0) Hall).
  - rewrite HO, run_perimeter. do 2 f_equal. lia.
  - rewrite HO. apply run_connected.
Qed.

Lemma duplicate_render (points : list JS.value) (p : JS.value) :
  p ∈ points → JS.render (points ++ [p]) = JS.render points.
Proof.
  intros Hp. destruct points as [|q points]; [by apply elem_of_nil in Hp|].
  unfold JS.render. change ((q :: points) ++ [p]) with (q :: (points ++ [p])).
  cbv iota beta. f_equal. unfold JS.parsePoints.
  change (q :: (points ++ [p])) with ((q :: points) ++ [p]).
  generalize dependent (q :: points). clear q points. intros points Hp.
  rewrite forEach_app.
  destruct (forEach JS.parse_step points _) as [acc|e] eqn:Hrun; [|done].
  destruct (parsed_all_valid _ _ _ Hrun) as [cs Hcs].
  destruct (parse_points_valid points cs
              {| JS.parsedPoints := []; JS.accMaxX := -1; JS.accMaxY := -1 |} Hcs)
    as (mx & my & Hrun' & _ & _ & Hmax & _).
  rewrite Hrun in Hrun'. injection Hrun' as ->. simpl in *.
  apply list_elem_of_lookup in Hp as [i Hi].
  destruct (Forall2_lookup_l _ _ _ _ _ Hcs Hi) as (c & Hc & Hpc).
  apply list_elem_of_lookup_2 in Hc.
  rewrite (parse_step_Ok _ _ _ Hpc), !bind_Ok.
  cbn [JS.parsedPoints JS.accMaxX JS.accMaxY].
  destruct (Hmax c Hc) as [Hx Hy].
  rewrite !Z.max_l by done. rewrite forEach_app.
  assert (Forall (inb mx my) cs) as Hin.
  { apply Forall_forall. intros c' Hc'. destruct (Hmax c' Hc') as [Hx' Hy'].
    apply list_elem_of_lookup in Hc' as [j Hj].
    destruct (Forall2_lookup_r _ _ _ _ _ Hcs Hj) as (p' & _ & Hp').
    apply parsePoint_Ok_inv in Hp' as (s0 & e1 & e2 & _ & _ & _ & Hcx & Hcy).
    unfold inb. lia. }
  destruct (fill_grid mx my cs (createEmptyGrid mx my) (occupied mx my (createEmptyGrid mx my)))
    as (g & -> & _ & _ & Hones); [apply occupied_repr, createEmptyGrid_wf|done|].
  rewrite !bind_Ok, forEach_cons. rewrite (grid_set_same g c 1) by (by apply Hones).
  by rewrite bind_Ok.
Qed.

Lemma parsePoint_shape (s d1 d2 : jsstring) :
  regex_matches s d1 d2 →
  JS.parsePoint (JS.VString s)
    = if (parseInt d1 >? MAX_VALUE) || (parseInt d2 >? MAX_VALUE)
      then Err (RangeError RANGE_ERROR_MSG)
      else Ok (parseInt d1, parseInt d2).
Proof. intros Hm%match_point_spec. unfold JS.parsePoint. by rewrite Hm. Qed.

Lemma parsePoint_TypeError (s : jsstring) :
  JS.parsePoint (JS.VString s) = Err (TypeError TYPE_ERROR_MSG)
  ↔ ¬ ∃ d1 d2, regex_matches s d1 d2.
Proof.
  unfold JS.parsePoint. destruct (match_point s) as [[d1 d2]|] eqn:Hm.
  - apply match_point_spec in Hm. split.
    + by destruct (_ || _).
    + intros []. by exists d1, d2.
  - split; [|done]. intros _ (d1 & d2 & Hre%match_point_spec). congruence.
Qed.

Lemma render_cons_Err (p : JS.value) (points : list JS.value) (e : exn) :
  forEach JS.parse_step (p :: points)
    {| JS.parsedPoints := []; JS.accMaxX := -1; JS.accMaxY := -1 |} = Err e →
  JS.render (p :: points) = Err e.
Proof. intros Hrun. unfold JS.render, JS.parsePoints. by rewrite Hrun. Qed.

Lemma out_of_range_first (pre : list jsstring) (s : jsstring) (post : list jsstring)
    (d1 d2 : jsstring) (acc : JS.ParseAcc) :
  Forall (λ p, ∃ e1 e2, regex_matches p e1 e2) pre →
  regex_matches s d1 d2 →
  MAX_VALUE < parseInt d1 ∨ MAX_VALUE < parseInt d2 →
  forEach JS.parse_step (JS.VString <$> (pre ++ s :: post)) acc
    = Err (RangeError RANGE_ERROR_MSG).
Proof.
  intros Hpre Hs Hrange. revert acc.
  induction Hpre as [|p pre (e1 & e2 & Hp) _ IH]; intros acc.
  - pose proof (parsePoint_shape s d1 d2 Hs) as Hps.
    assert ((parseInt d1 >? MAX_VALUE) || (parseInt d2 >? MAX_VALUE) = true) as Hb.
    { apply orb_true_iff. rewrite !Z.gtb_ltb, !Z.ltb_lt. lia. }
    rewrite Hb in Hps.
    change (JS.VString <$> ([] ++ s :: post))
      with (JS.VString s :: (JS.VString <$> post)).
    by rewrite forEach_cons, (parse_step_Err _ _ _ Hps).
  - change (JS.VString <$> ((p :: pre) ++ s :: post))
      with (JS.VString p :: (JS.VString <$> (pre ++ s :: post))).
    rewrite forEach_cons.
    pose proof (parsePoint_shape p e1 e2 Hp) as Hpp.
    destruct (_ || _).
    + by rewrite (parse_step_Err _ _ _ Hpp).
    + rewrite (parse_step_Ok _ _ _ Hpp), bind_Ok. apply IH.
Qed.

Lemma malformed_first (pre : list jsstring) (s : jsstring) (post : list jsstring)
    (acc : JS.ParseAcc) :
  Forall (λ p, JS.parsePoint (JS.VString p) ≠ Err (RangeError RANGE_ERROR_MSG)) pre →
  JS.parsePoint (JS.VString s) = Err (TypeError TYPE_ERROR_MSG) →
  forEach JS.parse_step (JS.VString <$> (pre ++ s :: post)) acc
    = Err (TypeError TYPE_ERROR_MSG).
Proof.
  intros Hpre Hs. revert acc.
  induction Hpre as [|p pre Hp _ IH]; intros acc.
  - change (JS.VString <$> ([] ++ s :: post))
      with (JS.VString s :: (JS.VString <$> post)).
    by rewrite forEach_cons, (parse_step_Err _ _ _ Hs).
  - change (JS.VString <$> ((p :: pre) ++ s :: post))
      with (JS.VString p :: (JS.VString <$> (pre ++ s :: post))).
    rewrite forEach_cons.
    destruct (JS.parsePoint (JS.VString p)) as [c|e] eqn:Hpp.
    + rewrite (parse_step_Ok _ _ _ Hpp), bind_Ok. apply IH.
    + rewrite (parse_step_Err _ _ _ Hpp).
      by destruct (parsePoint_error _ _ Hpp) as [->| ->].
Qed.

(** ** Every in-range cell has an input string *)

Lemma digits_of_spec (n : Z) :
  0 ≤ n ≤ MAX_VALUE →
  all_digits (digits_of n) ∧ digits_of n ≠ [] ∧ parseInt (digits_of n) = n.
Proof.
  unfold MAX_VALUE. intros Hn. unfold digits_of, all_digits, parseInt, is_digit.
  destruct (n <? 10) eqn:Hlt.
  - apply Z.ltb_lt in Hlt. split; [|split; [done|simpl; lia]].
    repeat constructor. apply andb_true_iff. rewrite !N.leb_le. lia.
  - apply Z.ltb_ge in Hlt.
    pose proof (Z.div_mod n 10). pose proof (Z.mod_pos_bound n 10).
    assert (1 ≤ n / 10 ≤ 9) by lia.
    split; [|split; [done|simpl; lia]].
    repeat constructor; apply andb_true_iff; rewrite !N.leb_le; lia.
Qed.

Lemma cell_string_parses (c : cell) :
  inb MAX_VALUE MAX_VALUE c → JS.parsePoint (JS.VString (cell_string c)) = Ok c.
Proof.
  intros [Hx Hy]. destruct c as [x y]. cbn [fst snd] in Hx, Hy.
  destruct (digits_of_spec x Hx) as (Hdx & Hnx & Hpx).
  destruct (digits_of_spec y Hy) as (Hdy & Hny & Hpy).
  rewrite (parsePoint_shape _ (digits_of x) (digits_of y)).
  - rewrite Hpx, Hpy.
    assert ((x >? MAX_VALUE) || (y >? MAX_VALUE) = false) as ->; [|done].
    apply orb_false_iff. rewrite !Z.gtb_ltb, !Z.ltb_ge. lia.
  - exists [], []. unfold cell_string. cbn [fst snd app].
    repeat split; try done; constructor.
Qed.

(** The canonical strings of an in-range run, in run order, yield [2N + 2]. *)
Corollary straight_run_canonical (o : orientation) (x0 y0 : Z) (N : nat) :
  (1 ≤ N)%nat →
  Forall (inb MAX_VALUE MAX_VALUE) (run o x0 y0 N) →
  JS.render (JS.VString <$> (cell_string <$> run o x0 y0 N)) = Ok [2 * Z.of_nat N + 2].
Proof.
  intros HN Hin. apply (run_render o x0 y0 N _ (run o x0 y0 N)); [done| |done].
  apply Forall2_fmap_l, Forall2_fmap_l, Forall_Forall2_diag.
  eapply Forall_impl; [exact Hin|]. intros c Hc. by apply cell_string_parses.
Qed.

(** A single cell, wherever it lies within the range, has perimeter [4]. *)
Corollary single_cell_perimeter (c : cell) :
  inb MAX_VALUE MAX_VALUE c →
  JS.render [JS.VString (cell_string c)] = Ok [4].
Proof.
  intros Hc. destruct c as [x y].
  apply (run_render Horizontal x y 1 _ [(x, y)]); [done| |].
  - repeat constructor. by apply cell_string_parses.
  - unfold run. simpl. by replace (x + Z.of_nat 0) with x by lia.
Qed.

(** * The claims *)

(** C1.  A straight run of [N ≥ 1] cells, along either axis and from any
    start, given as strings that parse to its cells in any order, yields
    the single perimeter [2N + 2]; both implementations agree.  For
    [N = 1] this is the single cell, of perimeter [4], at any position. *)
Theorem straight_run_perimeter (o : orientation) (x0 y0 : Z) (N : nat)
    (strs : list jsstring) (cs : list cell) :
  (1 ≤ N)%nat →
  Forall2 (λ s c, JS.parsePoint (JS.VString s) = Ok c) strs cs →
  cs ≡ₚ run o x0 y0 N →
  JS.render (JS.VString <$> strs) = Ok [2 * Z.of_nat N + 2]
  ∧ TS.computeParcelPerimeters strs = Ok [2 * Z.of_nat N + 2].
Proof.
  intros HN Hall Hperm. rewrite ts_js_equiv.
  by rewrite (run_render o x0 y0 N _ cs HN (valid_strings_values _ _ Hall) Hperm).
Qed.

Lemma straight_run_perimeter_witness :
  (1 ≤ 3)%nat
  ∧ Forall2 (λ s c, JS.parsePoint (JS.VString s) = Ok c)
      (js <$> ["7,4"; "5,4"; "6,4"]%string) [(7, 4); (5, 4); (6, 4)]
  ∧ [(7, 4); (5, 4); (6, 4)] ≡ₚ run Horizontal 5 4 3
  ∧ JS.render (JS.VString <$> (js <$> ["7,4"; "5,4"; "6,4"]%string)) = Ok [8]
  ∧ TS.computeParcelPerimeters (js <$> ["7,4"; "5,4"; "6,4"]%string) = Ok [8].
Proof.
  assert (1 ≤ 3)%nat as H1 by lia.
  assert (Forall2 (λ s c, JS.parsePoint (JS.VString s) = Ok c)
            (js <$> ["7,4"; "5,4"; "6,4"]%string) [(7, 4); (5, 4); (6, 4)]) as H2.
  { repeat constructor. }
  assert ([(7, 4); (5, 4); (6, 4)] ≡ₚ run Horizontal 5 4 3) as H3.
  { change (run Horizontal 5 4 3) with [(5, 4); (6, 4); (7, 4)].
    apply (Permutation_cons_append [(5, 4); (6, 4)] (7, 4)). }
  split; [exact H1|]. split; [exact H2|]. split; [exact H3|].
  exact (straight_run_perimeter Horizontal 5 4 3 _ _ H1 H2 H3).
Defined.

(** C2.  On valid coordinate strings both implementations return a
    sequence, and every integer in it is even and non-negative. *)
Theorem perimeters_even_nonneg (strs : list jsstring) (cs : list cell) :
  Forall2 (λ s c, JS.parsePoint (JS.VString s) = Ok c) strs cs →
  ∃ perims,
    JS.render (JS.VString <$> strs) = Ok perims
    ∧ TS.computeParcelPerimeters strs = Ok perims
    ∧ Forall (λ p, 0 ≤ p ∧ Z.Even p) perims.
Proof.
  intros Hall%valid_strings_values.
  destruct (render_parcels _ _ Hall) as (found & Hrender & Hcomps & _).
  exists (perimeters_of (list_to_set cs) found).
  rewrite ts_js_equiv. split; [done|]. split; [done|].
  by apply perimeters_even.
Qed.

Lemma perimeters_even_nonneg_witness :
  Forall2 (λ s c, JS.parsePoint (JS.VString s) = Ok c)
    (js <$> ["0,0"; "0,1"; "1,1"; "2,1"; "2,0"; "9,9"]%string)
    [(0, 0); (0, 1); (1, 1); (2, 1); (2, 0); (9, 9)]
  ∧ ∃ perims,
      JS.render (JS.VString <$> (js <$> ["0,0"; "0,1"; "1,1"; "2,1"; "2,0"; "9,9"]%string))
        = Ok perims
      ∧ TS.computeParcelPerimeters
          (js <$> ["0,0"; "0,1"; "1,1"; "2,1"; "2,0"; "9,9"]%string) = Ok perims
      ∧ Forall (λ p, 0 ≤ p ∧ Z.Even p) perims.
Proof.
  assert (Forall2 (λ s c, JS.parsePoint (JS.VString s) = Ok c)
    (js <$> ["0,0"; "0,1"; "1,1"; "2,1"; "2,0"; "9,9"]%string)
    [(0, 0); (0, 1); (1, 1); (2, 1); (2, 0); (9, 9)]) as H.
  { repeat constructor. }
  split; [exact H|]. exact (perimeters_even_nonneg _ _ H).
Defined.

(** C3.  On valid input the returned sequence lists the perimeters of the
    parcels: each maximal 4-connected set of occupied cells appears
    exactly once, and the parcels come in the order of their least cells
    for the scan order ([x] ascending, then [y] ascending). *)
Theorem parcels_in_scan_order (strs : list jsstring) (cs : list cell) :
  Forall2 (λ s c, JS.parsePoint (JS.VString s) = Ok c) strs cs →
  ∃ found : list (cell * gset cell),
    JS.render (JS.VString <$> strs) = Ok (perimeters_of (list_to_set cs) found)
    ∧ TS.computeParcelPerimeters strs = Ok (perimeters_of (list_to_set cs) found)
    ∧ NoDup found.*2
    ∧ (∀ C, is_parcel (list_to_set cs) C ↔ C ∈ found.*2)
    ∧ Forall (λ sc, least sc.2 sc.1) found
    ∧ StronglySorted lex_lt found.*1.
Proof.
  intros Hall%valid_strings_values.
  destruct (render_parcels _ _ Hall) as (found & Hrender & Hcomps & Hsorted & Hcov).
  destruct (found_all_parcels (list_to_set cs) found Hcomps Hsorted) as [Hnd Hparcels].
  { intros a Ha. apply Hcov. by apply elem_of_list_to_set in Ha. }
  exists found. rewrite ts_js_equiv. repeat (split; [done|]).
  split; [|done]. eapply Forall_impl; [exact Hcomps|]. simpl. tauto.
Qed.

Lemma parcels_in_scan_order_witness :
  Forall2 (λ s c, JS.parsePoint (JS.VString s) = Ok c)
    (js <$> ["2,0"; "0,1"; "0,0"; "0,2"]%string) [(2, 0); (0, 1); (0, 0); (0, 2)]
  ∧ ∃ found : list (cell * gset cell),
      JS.render (JS.VString <$> (js <$> ["2,0"; "0,1"; "0,0"; "0,2"]%string))
        = Ok (perimeters_of (list_to_set [(2, 0); (0, 1); (0, 0); (0, 2)]) found)
      ∧ TS.computeParcelPerimeters (js <$> ["2,0"; "0,1"; "0,0"; "0,2"]%string)
          = Ok (perimeters_of (list_to_set [(2, 0); (0, 1); (0, 0); (0, 2)]) found)
      ∧ NoDup found.*2
      ∧ (∀ C, is_parcel (list_to_set [(2, 0); (0, 1); (0, 0); (0, 2)]) C ↔ C ∈ found.*2)
      ∧ Forall (λ sc, least sc.2 sc.1) found
      ∧ StronglySorted lex_lt found.*1.
Proof.
  assert (Forall2 (λ s c, JS.parsePoint (JS.VString s) = Ok c)
    (js <$> ["2,0"; "0,1"; "0,0"; "0,2"]%string) [(2, 0); (0, 1); (0, 0); (0, 2)]) as H.
  { repeat constructor. }
  split; [exact H|]. exact (parcels_in_scan_order _ _ H).
Defined.

(** C4, as amended.  The shape check accepts a string exactly when it
    reads: digits, optional whitespace, a comma, optional whitespace,
    digits (no whitespace before the first digits).  A string that does
    not, when no element before it is out of range, makes the call fail
    with the [TypeError] of the fixed message. *)
Theorem shape_validation (pre : list jsstring) (s : jsstring) (post : list jsstring) :
  Forall (λ p, JS.parsePoint (JS.VString p) ≠ Err (RangeError RANGE_ERROR_MSG)) pre →
  ((∃ d1 d2, regex_matches s d1 d2)
     ↔ JS.parsePoint (JS.VString s) ≠ Err (TypeError TYPE_ERROR_MSG))
  ∧ ((¬ ∃ d1 d2, regex_matches s d1 d2) →
       JS.render (JS.VString <$> (pre ++ s :: post)) = Err (TypeError TYPE_ERROR_MSG)
       ∧ TS.computeParcelPerimeters (pre ++ s :: post) = Err (TypeError TYPE_ERROR_MSG)).
Proof.
  intros Hpre. split.
  - rewrite parsePoint_TypeError. split; [tauto|].
    intros Hnn. destruct (match_point s) as [[d1 d2]|] eqn:Hm.
    + exists d1, d2. by apply match_point_spec.
    + destruct Hnn. intros (d1 & d2 & Hre%match_point_spec). congruence.
  - intros Hbad%parsePoint_TypeError. rewrite ts_js_equiv.
    cut (JS.render (JS.VString <$> (pre ++ s :: post)) = Err (TypeError TYPE_ERROR_MSG));
      [done|].
    pose proof (malformed_first pre s post
      {| JS.parsedPoints := []; JS.accMaxX := -1; JS.accMaxY := -1 |} Hpre Hbad) as Hrun.
    destruct (JS.VString <$> (pre ++ s :: post)) as [|p points] eqn:Heq.
    + by destruct pre.
    + by apply render_cons_Err.
Qed.

Lemma shape_validation_witness :
  Forall (λ p, JS.parsePoint (JS.VString p) ≠ Err (RangeError RANGE_ERROR_MSG))
    [js "1,1"; js "?"]
  ∧ JS.render (JS.VString <$> ([js "1,1"; js "?"] ++ js "1;2" :: [js "2,2"]))
      = Err (TypeError TYPE_ERROR_MSG)
  ∧ TS.computeParcelPerimeters ([js "1,1"; js "?"] ++ js "1;2" :: [js "2,2"])
      = Err (TypeError TYPE_ERROR_MSG).
Proof.
  assert (Forall (λ p, JS.parsePoint (JS.VString p) ≠ Err (RangeError RANGE_ERROR_MSG))
            [js "1,1"; js "?"]) as H.
  { repeat constructor; discriminate. }
  split; [exact H|].
  apply (shape_validation [js "1,1"; js "?"] (js "1;2") [js "2,2"] H).
  intros (d1 & d2 & Hre). apply match_point_spec in Hre. discriminate Hre.
Defined.

(** C4, as stated, fails twice.  A string with whitespace before the
    first digits matches the pattern of the specification, and the call
    rejects it with the [TypeError].  A malformed string that follows an
    out-of-range element does not make the call fail with the
    [TypeError]: the call fails with the [RangeError] of the earlier
    element. *)
Lemma leading_whitespace_rejected :
  (spec_pattern (js " 1,2")
   ∧ JS.parsePoint (JS.VString (js " 1,2")) = Err (TypeError TYPE_ERROR_MSG)
   ∧ JS.render [JS.VString (js " 1,2")] = Err (TypeError TYPE_ERROR_MSG)
   ∧ TS.computeParcelPerimeters [js " 1,2"] = Err (TypeError TYPE_ERROR_MSG))
  ∧ ((¬ spec_pattern (js "x,y"))
     ∧ JS.render (JS.strs ["100,0"; "x,y"]%string) = Err (RangeError RANGE_ERROR_MSG)
     ∧ TS.computeParcelPerimeters (js <$> ["100,0"; "x,y"]%string)
         = Err (RangeError RANGE_ERROR_MSG)).
Proof.
  split.
  - split; [|done].
    exists [32%N], [49%N], [], [], [50%N].
    split; [done|]. repeat split; try done; by repeat constructor.
  - split; [|done].
    intros (w0 & d1 & w1 & w2 & d2 & Heq & Hn1 & _ & Hd1 & _ & Hw0 & _).
    destruct w0 as [|c w0].
    + destruct Hd1 as [|c d1 Hc _]; [done|]. by injection Heq as <- _.
    + apply Forall_cons in Hw0 as [Hc _]. by injection Heq as <- _.
Qed.

(** C5.  When some element is invalid, the call fails with the error of
    the first invalid element in list order, whatever follows it: no
    later element is looked at and no sequence is returned. *)
Theorem validation_fail_fast (points : list JS.value) :
  Exists (λ p, ∃ e, JS.parsePoint p = Err e) points →
  ∃ pre bad post e,
    points = pre ++ bad :: post
    ∧ Forall (λ p, ∃ c, JS.parsePoint p = Ok c) pre
    ∧ JS.parsePoint bad = Err e
    ∧ (e = TypeError TYPE_ERROR_MSG ∨ e = RangeError RANGE_ERROR_MSG)
    ∧ JS.render points = Err e
    ∧ (∀ post', JS.render (pre ++ bad :: post') = Err e)
    ∧ (∀ strs, points = JS.VString <$> strs → TS.computeParcelPerimeters strs = Err e).
Proof.
  intros (pre & bad & post & e & -> & Hpre & Hbad)%first_invalid.
  exists pre, bad, post, e. split; [done|]. split; [done|]. split; [done|].
  split; [by eapply parsePoint_error|].
  split; [by apply render_invalid|]. split.
  - intros post'. by apply render_invalid.
  - intros strs Hstrs. rewrite ts_js_equiv, <- Hstrs. by apply render_invalid.
Qed.

Lemma validation_fail_fast_witness :
  Exists (λ p, ∃ e, JS.parsePoint p = Err e)
    (JS.strs ["1,1"; "100,0"; "x,y"; "2,2"]%string)
  ∧ ∃ pre bad post e,
      JS.strs ["1,1"; "100,0"; "x,y"; "2,2"]%string = pre ++ bad :: post
      ∧ Forall (λ p, ∃ c, JS.parsePoint p = Ok c) pre
      ∧ JS.parsePoint bad = Err e
      ∧ (e = TypeError TYPE_ERROR_MSG ∨ e = RangeError RANGE_ERROR_MSG)
      ∧ JS.render (JS.strs ["1,1"; "100,0"; "x,y"; "2,2"]%string) = Err e
      ∧ (∀ post', JS.render (pre ++ bad :: post') = Err e)
      ∧ (∀ strs, JS.strs ["1,1"; "100,0"; "x,y"; "2,2"]%string = JS.VString <$> strs →
           TS.computeParcelPerimeters strs = Err e).
Proof.
  assert (Exists (λ p, ∃ e, JS.parsePoint p = Err e)
            (JS.strs ["1,1"; "100,0"; "x,y"; "2,2"]%string)) as H.
  { apply Exists_cons_tl, Exists_cons_hd. by exists (RangeError RANGE_ERROR_MSG). }
  split; [exact H|]. exact (validation_fail_fast _ H).
Defined.

(** C6, as amended.  A string of the coordinate shape whose [x] or [y]
    exceeds 99, when every element before it has the coordinate shape,
    makes the call fail with the [RangeError] of the fixed message; the
    failure occurs in the validation loop, before the grid is created. *)
Theorem out_of_range_rejected (pre : list jsstring) (s : jsstring)
    (post : list jsstring) (d1 d2 : jsstring) :
  Forall (λ p, ∃ e1 e2, regex_matches p e1 e2) pre →
  regex_matches s d1 d2 →
  MAX_VALUE < parseInt d1 ∨ MAX_VALUE < parseInt d2 →
  JS.parsePoint (JS.VString s) = Err (RangeError RANGE_ERROR_MSG)
  ∧ forEach JS.parse_step (JS.VString <$> (pre ++ s :: post))
      {| JS.parsedPoints := []; JS.accMaxX := -1; JS.accMaxY := -1 |}
    = Err (RangeError RANGE_ERROR_MSG)
  ∧ JS.render (JS.VString <$> (pre ++ s :: post)) = Err (RangeError RANGE_ERROR_MSG)
  ∧ TS.computeParcelPerimeters (pre ++ s :: post) = Err (RangeError RANGE_ERROR_MSG).
Proof.
  intros Hpre Hs Hrange.
  pose proof (out_of_range_first pre s post d1 d2
    {| JS.parsedPoints := []; JS.accMaxX := -1; JS.accMaxY := -1 |} Hpre Hs Hrange) as Hrun.
  assert (JS.render (JS.VString <$> (pre ++ s :: post)) = Err (RangeError RANGE_ERROR_MSG))
    as Hrender.
  { destruct (JS.VString <$> (pre ++ s :: post)) as [|p points] eqn:Heq.
    - by destruct pre.
    - by apply render_cons_Err. }
  split; [|by rewrite ts_js_equiv].
  rewrite (parsePoint_shape s d1 d2 Hs).
  assert ((parseInt d1 >? MAX_VALUE) || (parseInt d2 >? MAX_VALUE) = true) as ->; [|done].
  apply orb_true_iff. rewrite !Z.gtb_ltb, !Z.ltb_lt. lia.
Qed.

Lemma out_of_range_rejected_witness :
  Forall (λ p, ∃ e1 e2, regex_matches p e1 e2) [js "3,4"]
  ∧ regex_matches (js "7 , 100") (js "7") (js "100")
  ∧ (MAX_VALUE < parseInt (js "7") ∨ MAX_VALUE < parseInt (js "100"))
  ∧ JS.parsePoint (JS.VString (js "7 , 100")) = Err (RangeError RANGE_ERROR_MSG)
  ∧ forEach JS.parse_step (JS.VString <$> ([js "3,4"] ++ js "7 , 100" :: [js "x"]))
      {| JS.parsedPoints := []; JS.accMaxX := -1; JS.accMaxY := -1 |}
    = Err (RangeError RANGE_ERROR_MSG)
  ∧ JS.render (JS.VString <$> ([js "3,4"] ++ js "7 , 100" :: [js "x"]))
    = Err (RangeError RANGE_ERROR_MSG)
  ∧ TS.computeParcelPerimeters ([js "3,4"] ++ js "7 , 100" :: [js "x"])
    = Err (RangeError RANGE_ERROR_MSG).
Proof.
  assert (Forall (λ p, ∃ e1 e2, regex_matches p e1 e2) [js "3,4"]) as H1.
  { repeat constructor. exists (js "3"), (js "4"). by apply match_point_spec. }
  assert (regex_matches (js "7 , 100") (js "7") (js "100")) as H2.
  { by apply match_point_spec. }
  assert (MAX_VALUE < parseInt (js "7") ∨ MAX_VALUE < parseInt (js "100")) as H3.
  { right. reflexivity. }
  split; [exact H1|]. split; [exact H2|]. split; [exact H3|].
  exact (out_of_range_rejected [js "3,4"] (js "7 , 100") [js "x"] _ _ H1 H2 H3).
Defined.

(** C6, as stated, fails: an out-of-range string of the coordinate shape
    that follows a malformed element does not make the call fail with the
    [RangeError]; the call fails with the [TypeError] of the malformed
    element. *)
Lemma out_of_range_after_malformed :
  JS.VString (js "100,0") ∈ JS.strs ["x,y"; "100,0"]%string
  ∧ regex_matches (js "100,0") (js "100") (js "0")
  ∧ MAX_VALUE < parseInt (js "100")
  ∧ JS.render (JS.strs ["x,y"; "100,0"]%string) = Err (TypeError TYPE_ERROR_MSG)
  ∧ JS.render (JS.strs ["x,y"; "100,0"]%string) ≠ Err (RangeError RANGE_ERROR_MSG)
  ∧ TS.computeParcelPerimeters (js <$> ["x,y"; "100,0"]%string)
      ≠ Err (RangeError RANGE_ERROR_MSG).
Proof.
  split; [right; left|]. split; [by apply match_point_spec|].
  split; [reflexivity|]. split; [reflexivity|]. split; discriminate.
Qed.

(** C7.  Appending another copy of an element already in the list does
    not change the result of either implementation. *)
Theorem duplicate_idempotent (strs : list jsstring) (s : jsstring) :
  s ∈ strs →
  JS.render (JS.VString <$> (strs ++ [s])) = JS.render (JS.VString <$> strs)
  ∧ TS.computeParcelPerimeters (strs ++ [s]) = TS.computeParcelPerimeters strs.
Proof.
  intros Hs. rewrite !ts_js_equiv.
  cut (JS.render (JS.VString <$> (strs ++ [s])) = JS.render (JS.VString <$> strs)); [done|].
  rewrite fmap_app. apply duplicate_render. by apply list_elem_of_fmap_2.
Qed.

Lemma duplicate_idempotent_witness :
  js "0,1" ∈ (js <$> ["0,0"; "0,1"; "2,0"]%string)
  ∧ JS.render (JS.VString <$> ((js <$> ["0,0"; "0,1"; "2,0"]%string) ++ [js "0,1"]))
    = JS.render (JS.VString <$> (js <$> ["0,0"; "0,1"; "2,0"]%string))
  ∧ TS.computeParcelPerimeters ((js <$> ["0,0"; "0,1"; "2,0"]%string) ++ [js "0,1"])
    = TS.computeParcelPerimeters (js <$> ["0,0"; "0,1"; "2,0"]%string).
Proof.
  assert (js "0,1" ∈ (js <$> ["0,0"; "0,1"; "2,0"]%string)) as H.
  { right. left. }
  split; [exact H|]. exact (duplicate_idempotent _ _ H).
Defined.

(** C8.  On every grid whose rows and columns match its bounds,
    [findParcels] returns, and it leaves every cell of the grid at [0]. *)
Theorem findParcels_consumes_grid (g : Grid) (mx my : Z) :
  wf_grid mx my g →
  ∃ perims g',
    JS.findParcels g mx my = Ok (perims, g')
    ∧ TS.findParcels {| TS.grid := g; TS.maxX := mx; TS.maxY := my |}
        = Ok (perims, {| TS.grid := g'; TS.maxX := mx; TS.maxY := my |})
    ∧ wf_grid mx my g'
    ∧ ∀ c, inb mx my c → grid_get g' c = Ok 0.
Proof.
  intros Hwf.
  destruct (findParcels_correct mx my _ g (occupied_repr mx my g Hwf))
    as (found & g' & Hfind & [Hwf' Hempty] & _).
  exists (perimeters_of (occupied mx my g) found), g'.
  split; [done|]. split; [by rewrite ts_findParcels, Hfind|]. split; [done|].
  intros c Hc. destruct (grid_get_Ok mx my g' c Hwf' Hc) as [v Hv].
  specialize (Hempty c). unfold occ in Hempty. rewrite Hv in Hempty.
  rewrite Hv. f_equal. unfold truthy in Hempty.
  destruct (v =? 0) eqn:Hv0; [by apply Z.eqb_eq|].
  exfalso. apply (not_elem_of_empty (C:=gset cell) c). by apply Hempty.
Qed.

Lemma findParcels_consumes_grid_witness :
  wf_grid 1 2 [[1; 0; 1]; [1; 0; 7]]
  ∧ ∃ perims g',
      JS.findParcels [[1; 0; 1]; [1; 0; 7]] 1 2 = Ok (perims, g')
      ∧ TS.findParcels {| TS.grid := [[1; 0; 1]; [1; 0; 7]]; TS.maxX := 1; TS.maxY := 2 |}
          = Ok (perims, {| TS.grid := g'; TS.maxX := 1; TS.maxY := 2 |})
      ∧ wf_grid 1 2 g'
      ∧ ∀ c, inb 1 2 c → grid_get g' c = Ok 0.
Proof.
  assert (wf_grid 1 2 [[1; 0; 1]; [1; 0; 7]]) as H.
  { split; [reflexivity|]. by repeat constructor. }
  split; [exact H|]. exact (findParcels_consumes_grid _ 1 2 H).
Defined.

(** C9.  A grid built by [parsePoints] has exactly [maxX + 1] rows of
    [maxY + 1] cells, and on it [findParcels] runs to completion: no read
    or write of the scan or of a trace falls outside the grid (such an
    access would end the run with [IndexOutOfBounds]). *)
Theorem grid_accesses_in_bounds (points : list JS.value) (gd : JS.GridData) :
  JS.parsePoints points = Ok gd →
  wf_grid (JS.maxX gd) (JS.maxY gd) (JS.grid gd)
  ∧ (∃ r, JS.findParcels (JS.grid gd) (JS.maxX gd) (JS.maxY gd) = Ok r)
  ∧ JS.findParcels (JS.grid gd) (JS.maxX gd) (JS.maxY gd) ≠ Err IndexOutOfBounds
  ∧ JS.render points ≠ Err IndexOutOfBounds.
Proof.
  intros Hparse.
  assert (∃ cs, Forall2 (λ p c, JS.parsePoint p = Ok c) points cs) as [cs Hcs].
  { unfold JS.parsePoints in Hparse.
    destruct (forEach JS.parse_step points _) as [acc|e] eqn:Hrun; [|done].
    by eapply parsed_all_valid. }
  destruct (parsePoints_correct points cs Hcs) as (g & mx & my & Hparse' & Hrepr & _).
  rewrite Hparse in Hparse'. injection Hparse' as ->. simpl.
  destruct (findParcels_correct mx my _ g Hrepr) as (found & g' & Hfind & _).
  split; [apply Hrepr|]. split; [by eexists|]. split; [by rewrite Hfind|].
  destruct (render_parcels points cs Hcs) as (found' & -> & _). done.
Qed.

Lemma grid_accesses_in_bounds_witness :
  JS.parsePoints (JS.strs ["0,0"; "1,2"; "1,1"]%string)
    = Ok {| JS.grid := [[1; 0; 0]; [0; 1; 1]]; JS.maxX := 1; JS.maxY := 2 |}
  ∧ wf_grid 1 2 [[1; 0; 0]; [0; 1; 1]]
  ∧ (∃ r, JS.findParcels [[1; 0; 0]; [0; 1; 1]] 1 2 = Ok r)
  ∧ JS.findParcels [[1; 0; 0]; [0; 1; 1]] 1 2 ≠ Err IndexOutOfBounds
  ∧ JS.render (JS.strs ["0,0"; "1,2"; "1,1"]%string) ≠ Err IndexOutOfBounds.
Proof.
  assert (JS.parsePoints (JS.strs ["0,0"; "1,2"; "1,1"]%string)
    = Ok {| JS.grid := [[1; 0; 0]; [0; 1; 1]]; JS.maxX := 1; JS.maxY := 2 |}) as H.
  { reflexivity. }
  split; [exact H|]. exact (grid_accesses_in_bounds _ _ H).
Defined.

(** C10.  On every list of strings the TypeScript class and the
    JavaScript module give the same outcome: the same sequence of
    perimeters, or an error of the same kind with the same message. *)
Theorem typescript_javascript_equivalent (strs : list jsstring) :
  TS.computeParcelPerimeters strs = JS.render (JS.VString <$> strs).
Proof. apply ts_js_equiv. Qed.

(** ** The cases of the test suite *)

Example render_no_points : JS.render [] = Ok [].
Proof. reflexivity. Qed.

Example render_not_strings :
  JS.render [JS.VNumber 0; JS.VNumber 0] = Err (TypeError TYPE_ERROR_MSG).
Proof. reflexivity. Qed.

Example render_malformed :
  JS.render (JS.strs ["0 0"]%string) = Err (TypeError TYPE_ERROR_MSG)
  ∧ JS.render (JS.strs ["x,y"]%string) = Err (TypeError TYPE_ERROR_MSG)
  ∧ JS.render (JS.strs ["-1,0"]%string) = Err (TypeError TYPE_ERROR_MSG).
Proof. by repeat split. Qed.

Example render_out_of_range :
  JS.render (JS.strs ["100,0"]%string) = Err (RangeError RANGE_ERROR_MSG)
  ∧ JS.render (JS.strs ["0,100"]%string) = Err (RangeError RANGE_ERROR_MSG).
Proof. by repeat split. Qed.

Example render_single_cells :
  JS.render (JS.strs ["0,0"]%string) = Ok [4]
  ∧ JS.render (JS.strs ["99,99"]%string) = Ok [4]
  ∧ JS.render (JS.strs ["5,5"]%string) = Ok [4].
Proof. repeat split; vm_compute; reflexivity. Qed.

Example render_diagonal : JS.render (JS.strs ["3,3"; "5,5"]%string) = Ok [4; 4].
Proof. vm_compute. reflexivity. Qed.

Example render_line_and_cell :
  JS.render (JS.strs ["0,0"; "0,1"; "0,2"; "2,0"]%string) = Ok [8; 4].
Proof. vm_compute. reflexivity. Qed.

Example render_corner : JS.render (JS.strs ["0,0"; "0,1"; "1,1"]%string) = Ok [8].
Proof. vm_compute. reflexivity. Qed.

Example render_arches :
  JS.render (JS.strs ["0,0"; "1,0"; "1,1"; "1,2"; "0,2"]%string) = Ok [12]
  ∧ JS.render (JS.strs ["0,0"; "0,1"; "1,1"; "2,1"; "2,0"]%string) = Ok [12].
Proof. split; vm_compute; reflexivity. Qed.

Example render_six_in_line :
  JS.render (JS.strs ["0,0"; "0,1"; "0,2"; "0,3"; "0,4"; "0,5"]%string) = Ok [14].
Proof. vm_compute. reflexivity. Qed.

Example render_rectangle :
  JS.render (JS.strs ["0,0"; "0,1"; "0,2"; "1,0"; "1,1"; "1,2"]%string) = Ok [10].
Proof. vm_compute. reflexivity. Qed.

Example compute_line_and_cell :
  TS.computeParcelPerimeters (js <$> ["0,0"; "0,1"; "0,2"; "2,0"]%string) = Ok [8; 4].
Proof. vm_compute. reflexivity. Qed.

Example type_error_message_text :
  String.length TYPE_ERROR_MSG = 63%nat
  ∧ String.get 58 TYPE_ERROR_MSG = Some (ascii_of_nat 34)
  ∧ String.get 62 TYPE_ERROR_MSG = Some (ascii_of_nat 34)
  ∧ String.substring 59 3 TYPE_ERROR_MSG = "x,y"%string.
Proof. by repeat split. Qed.

(** * Supporting lemmas for the function contracts *)

(** ** The grid that [parsePoints] builds *)

Lemma grid_ext (mx my : Z) (g1 g2 : Grid) :
  wf_grid mx my g1 → wf_grid mx my g2 →
  (∀ c, inb mx my c → grid_get g1 c = grid_get g2 c) →
  g1 = g2.
Proof.
  intros [Hl1 Hr1] [Hl2 Hr2] Hget. apply list_eq. intros i.
  destruct (decide (i < length g1)%nat) as [Hi|Hi].
  - destruct (lookup_lt_is_Some_2 g1 i Hi) as [r1 Hg1].
    destruct (lookup_lt_is_Some_2 g2 i) as [r2 Hg2]; [lia|].
    rewrite Hg1, Hg2. f_equal.
    rewrite Forall_lookup in Hr1, Hr2.
    pose proof (Hr1 _ _ Hg1) as Hlen1. pose proof (Hr2 _ _ Hg2) as Hlen2.
    apply list_eq. intros j.
    destruct (decide (j < length r1)%nat) as [Hj|Hj].
    + specialize (Hget (Z.of_nat i, Z.of_nat j)).
      unfold grid_get, inb in Hget. simpl in Hget.
      destruct (lookup_lt_is_Some_2 r1 j Hj) as [v1 Hv1].
      destruct (lookup_lt_is_Some_2 r2 j) as [v2 Hv2]; [lia|].
      rewrite !Nat2Z.id, Hg1, Hg2, Hv1, Hv2 in Hget. rewrite Hv1, Hv2.
      case_decide; [|lia].
      assert (Ok v1 = Ok v2) as [= ->]; [apply Hget; lia|done].
    + rewrite !lookup_ge_None_2; [done|lia|lia].
  - rewrite !lookup_ge_None_2; [done|lia|lia].
Qed.

Lemma fill_grid_other (mx my : Z) (cs : list cell) (g g' : Grid) :
  wf_grid mx my g → Forall (inb mx my) cs →
  forEach (λ g p, grid_set g p 1) cs g = Ok g' →
  ∀ c, c ∉ cs → grid_get g' c = grid_get g c.
Proof.
  intros Hwf Hcs. revert g Hwf. induction Hcs as [|p cs Hp _ IH]; intros g Hwf Hrun c Hc.
  - by injection Hrun as <-.
  - rewrite forEach_cons in Hrun.
    destruct (grid_set_spec mx my g p 1 Hwf Hp) as (g1 & Hset & Hwf1 & _ & Hother).
    rewrite Hset, bind_Ok in Hrun.
    rewrite (IH g1 Hwf1 Hrun c) by (intros ?; apply Hc; by right).
    apply Hother. intros ->. apply Hc. left.
Qed.

Lemma parse_points_max (points : list JS.value) (cs : list cell) (acc : JS.ParseAcc)
    (mx my : Z) :
  Forall2 (λ p c, JS.parsePoint p = Ok c) points cs →
  forEach JS.parse_step points acc
    = Ok {| JS.parsedPoints := JS.parsedPoints acc ++ cs;
            JS.accMaxX := mx; JS.accMaxY := my |} →
  (mx = JS.accMaxX acc ∨ ∃ c, c ∈ cs ∧ c.1 = mx)
  ∧ (my = JS.accMaxY acc ∨ ∃ c, c ∈ cs ∧ c.2 = my).
Proof.
  intros Hall. revert acc. induction Hall as [|p c points cs Hp _ IH]; intros acc Hrun.
  - simpl in Hrun. destruct acc. simplify_eq/=. by split; left.
  - rewrite forEach_cons, (parse_step_Ok _ _ _ Hp), bind_Ok in Hrun.
    destruct (IH {| JS.parsedPoints := JS.parsedPoints acc ++ [c];
                    JS.accMaxX := JS.accMaxX acc `max` c.1;
                    JS.accMaxY := JS.accMaxY acc `max` c.2 |}) as [Hx Hy].
    { simpl. by rewrite <- app_assoc. }
    simpl in Hx, Hy. split.
    + destruct Hx as [->|(c' & Hc' & <-)].
      * destruct (Z.max_spec (JS.accMaxX acc) c.1) as [[_ ->]|[_ ->]];
          [right; exists c; split; [left|done]|by left].
      * right. exists c'. split; [by right|done].
    + destruct Hy as [->|(c' & Hc' & <-)].
      * destruct (Z.max_spec (JS.accMaxY acc) c.2) as [[_ ->]|[_ ->]];
          [right; exists c; split; [left|done]|by left].
      * right. exists c'. split; [by right|done].
Qed.

Lemma parsePoints_exact (points : list JS.value) (cs : list cell) :
  Forall2 (λ p c, JS.parsePoint p = Ok c) points cs →
  ∃ g mx my,
    JS.parsePoints points = Ok {| JS.grid := g; JS.maxX := mx; JS.maxY := my |}
    ∧ wf_grid mx my g
    ∧ (∀ c, inb mx my c → grid_get g c = Ok (if decide (c ∈ cs) then 1 else 0))
    ∧ (∀ c, c ∈ cs → inb mx my c)
    ∧ (mx = -1 ∨ ∃ c, c ∈ cs ∧ c.1 = mx)
    ∧ (my = -1 ∨ ∃ c, c ∈ cs ∧ c.2 = my).
Proof.
  intros Hall. unfold JS.parsePoints.
  destruct (parse_points_valid points cs
              {| JS.parsedPoints := []; JS.accMaxX := -1; JS.accMaxY := -1 |} Hall)
    as (mx & my & Hrun & _ & _ & Hcs & _).
  destruct (parse_points_max points cs _ mx my Hall Hrun) as [Hmx Hmy].
  rewrite Hrun, bind_Ok. simpl in *.
  assert (∀ c, c ∈ cs → inb mx my c) as Hin.
  { intros c Hc. destruct (Hcs c Hc) as [Hx Hy].
    apply list_elem_of_lookup in Hc as [i Hi].
    destruct (Forall2_lookup_r _ _ _ _ _ Hall Hi) as (p & _ & Hp).
    apply parsePoint_Ok_inv in Hp as (s0 & e1 & e2 & _ & _ & _ & Hcx & Hcy).
    unfold inb. lia. }
  pose proof (createEmptyGrid_wf mx my) as Hwf0.
  destruct (fill_grid mx my cs (createEmptyGrid mx my)
              (occupied mx my (createEmptyGrid mx my)))
    as (g & Hfill & [Hwf _] & _ & Hones);
    [by apply occupied_repr|by apply Forall_forall|].
  rewrite Hfill, bind_Ok. exists g, mx, my.
  split; [done|]. split; [done|]. split; [|done].
  intros c Hc. destruct (decide (c ∈ cs)) as [Hccs|Hccs]; [by apply Hones|].
  rewrite (fill_grid_other mx my cs _ g Hwf0 (proj2 (Forall_forall _ _) Hin) Hfill c Hccs).
  by apply createEmptyGrid_get.
Qed.

(** The result depends on the set of coordinates only. *)
Lemma render_same_cells (points points' : list JS.value) (cs cs' : list cell) :
  Forall2 (λ p c, JS.parsePoint p = Ok c) points cs →
  Forall2 (λ p c, JS.parsePoint p = Ok c) points' cs' →
  (∀ c, c ∈ cs ↔ c ∈ cs') →
  JS.render points = JS.render points'.
Proof.
  intros Hall Hall' Hsame.
  destruct (parsePoints_exact points cs Hall) as (g & mx & my & Hp & Hwf & Hg & Hin & Hmx & Hmy).
  destruct (parsePoints_exact points' cs' Hall')
    as (g' & mx' & my' & Hp' & Hwf' & Hg' & Hin' & Hmx' & Hmy').
  destruct points as [|p points].
  { apply Forall2_nil_inv_l in Hall as ->.
    destruct cs' as [|c' cs']; [|exfalso; eapply elem_of_nil, Hsame; left].
    by apply Forall2_nil_inv_r in Hall' as ->. }
  destruct points' as [|p' points'].
  { apply Forall2_nil_inv_l in Hall' as ->.
    apply Forall2_cons_inv_l in Hall as (c & cs0 & _ & _ & ->).
    exfalso. eapply elem_of_nil, Hsame. left. }
  assert (mx = mx' ∧ my = my') as [<- <-].
  { apply Forall2_cons_inv_l in Hall as (c & cs0 & _ & _ & ->).
    assert (c ∈ c :: cs0) as Hc by left.
    pose proof (Hin c Hc) as [Hcx Hcy].
    pose proof (Hin' c (proj1 (Hsame c) Hc)) as [Hcx' Hcy'].
    destruct Hmx as [->|(a & Ha & <-)]; [lia|].
    destruct Hmy as [->|(b & Hb & <-)]; [lia|].
    destruct Hmx' as [->|(a' & Ha' & <-)]; [lia|].
    destruct Hmy' as [->|(b' & Hb' & <-)]; [lia|].
    pose proof (Hin' a (proj1 (Hsame a) Ha)) as [? ?].
    pose proof (Hin' b (proj1 (Hsame b) Hb)) as [? ?].
    pose proof (Hin a' (proj2 (Hsame a') Ha')) as [? ?].
    pose proof (Hin b' (proj2 (Hsame b') Hb')) as [? ?].
    lia. }
  assert (g = g') as <-.
  { apply (grid_ext mx my); [done..|]. intros c Hc.
    rewrite Hg, Hg' by done. f_equal. apply decide_ext, Hsame. }
  unfold JS.render. by rewrite Hp, Hp'.
Qed.

(** ** What a trace writes *)

Lemma grid_set_other (g g' : Grid) (p c : cell) (v : Z) :
  grid_set g p v = Ok g' → c ≠ p → grid_get g' c = grid_get g c.
Proof.
  destruct p as [px py], c as [cx cy]. unfold grid_set, grid_get. simpl.
  case_decide as Hp; [|done].
  destruct (g !! Z.to_nat px) as [row|] eqn:Hrow; [|done].
  case_decide as Hpy; [|done]. intros [= <-] Hne.
  case_decide as Hc; [|done].
  destruct (decide (Z.to_nat px = Z.to_nat cx)) as [Hxx|Hxx].
  - rewrite <- Hxx, list_lookup_insert_eq by (by eapply lookup_lt_Some).
    rewrite Hrow, list_lookup_insert_ne; [done|].
    intros Hyy. apply Hne. f_equal; lia.
  - by rewrite list_lookup_insert_ne.
Qed.

(** A trace only writes [0], only to cells it has seen by the end, and
    it never forgets a seen cell. *)
Lemma trace_loop_frame (fuel : nat) (mx my : Z) (st st' : JS.TraceState) :
  JS.trace_loop fuel mx my st = Ok st' →
  JS.seen st ⊆ JS.seen st'
  ∧ ∀ c, c ∉ JS.seen st' → grid_get (JS.t_grid st') c = grid_get (JS.t_grid st) c.
Proof.
  revert st. induction fuel as [|fuel IH]; intros [g S K e]; simpl.
  - destruct K; [|done]. by intros [= <-].
  - destruct K as [|p rest]; [by intros [= <-]|].
    destruct (grid_set g p 0) as [g1|] eqn:Hset; [|done]. simpl.
    destruct (negb (JS.hasBeenSeen S p)) eqn:Hseen.
    + destruct (JS.look g1 S _ _ _) as [so1|]; [|done]. simpl.
      destruct (JS.look g1 S _ _ _) as [so2|]; [|done]. simpl.
      destruct (JS.look g1 S _ _ _) as [so3|]; [|done]. simpl.
      destruct (JS.look g1 S _ _ _) as [so4|]; [|done]. simpl.
      intros Hrun. destruct (IH _ Hrun) as [Hsub Hframe]. simpl in *.
      split; [set_solver|]. intros c Hc. rewrite Hframe by done.
      eapply grid_set_other; [done|]. set_solver.
    + intros Hrun. destruct (IH _ Hrun) as [Hsub Hframe]. simpl in *.
      split; [done|]. intros c Hc. rewrite Hframe by done.
      eapply grid_set_other; [done|]. intros ->. apply Hc, Hsub.
      unfold JS.hasBeenSeen in Hseen. apply negb_false_iff in Hseen.
      by apply bool_decide_eq_true in Hseen.
Qed.

Lemma trace_loop_final (mx my : Z) (O : gset cell) (g : Grid) (c0 : cell) :
  repr mx my g O → c0 ∈ O →
  ∃ st, JS.trace_loop (trace_fuel mx my) mx my
          {| JS.t_grid := g; JS.seen := ∅; JS.stack := [c0]; JS.openEdges := 0 |} = Ok st
        ∧ is_component O c0 (JS.seen st)
        ∧ repr mx my (JS.t_grid st) (O ∖ JS.seen st)
        ∧ JS.openEdges st = Z.of_nat (perimeter O (JS.seen st)).
Proof.
  intros Hrepr Hc0.
  assert (∀ c, c ∈ O → inb mx my c) as HO by (intros c; by eapply repr_inb).
  pose (st0 := {| JS.t_grid := g; JS.seen := ∅; JS.stack := [c0]; JS.openEdges := 0 |}).
  destruct (trace_loop_correct mx my O c0 HO (trace_fuel mx my) st0)
    as (st & Hloop & [Hr Hseen _ Hclosed Hstart Hedges] & HK).
  - split; simpl.
    + by replace (O ∖ ∅) with O by set_solver.
    + intros s Hs. by apply not_elem_of_empty in Hs.
    + intros k ->%list_elem_of_singleton. by apply connected_refl.
    + intros s n Hs. by apply not_elem_of_empty in Hs.
    + right. left.
    + by rewrite perimeter_empty.
  - unfold trace_measure, trace_fuel. simpl.
    replace (O ∖ ∅) with O by set_solver.
    pose proof (size_le_cells mx my O HO) as Hsz.
    destruct (HO _ Hc0) as [Hx Hy].
    assert (Z.of_nat (size O) ≤ (mx + 1) * (my + 1)) by nia.
    lia.
  - exists st. split; [done|]. split; [|done].
    rewrite HK in Hstart, Hclosed.
    assert (c0 ∈ JS.seen st) as Hc0S.
    { destruct Hstart as [?|Hin]; [done|]. by apply elem_of_nil in Hin. }
    split; [done|]. intros b. split; [apply Hseen|].
    intros [_ Hrtc]. revert b Hrtc.
    apply (rtc_ind_r (λ b, b ∈ JS.seen st)); [done|].
    intros y z _ [Hadj Hz] IH.
    destruct (Hclosed y z IH Hadj Hz) as [?|Hin]; [done|].
    by apply elem_of_nil in Hin.
Qed.

Lemma traceParcel_frame (mx my : Z) (O : gset cell) (g : Grid) (c0 : cell) :
  repr mx my g O → c0 ∈ O →
  ∃ C g', JS.traceParcel g c0.1 c0.2 mx my = Ok (Z.of_nat (perimeter O C), g')
          ∧ is_component O c0 C
          ∧ wf_grid mx my g'
          ∧ (∀ c, c ∈ C → grid_get g' c = Ok 0)
          ∧ (∀ c, c ∉ C → grid_get g' c = grid_get g c).
Proof.
  intros Hrepr Hc0.
  destruct (trace_loop_final mx my O g c0 Hrepr Hc0) as (st & Hloop & HC & Hrepr' & He).
  exists (JS.seen st), (JS.t_grid st). split; [|split; [done|split; [apply Hrepr'|split]]].
  - unfold JS.traceParcel. destruct c0 as [x0 y0]. simpl. rewrite Hloop. simpl.
    by rewrite He.
  - intros c Hc. pose proof (component_sub _ _ _ HC c Hc) as HcO.
    destruct (grid_get_Ok mx my (JS.t_grid st) c) as [v Hv];
      [apply Hrepr'|eapply repr_inb; [exact Hrepr|done]|].
    destruct Hrepr' as [_ Hocc]. specialize (Hocc c). unfold occ in Hocc.
    rewrite Hv in Hocc. rewrite Hv. f_equal. unfold truthy in Hocc.
    destruct (v =? 0) eqn:Hv0; [by apply Z.eqb_eq|].
    exfalso. assert (c ∈ O ∖ JS.seen st) as Hn by (by apply Hocc).
    apply elem_of_difference in Hn as [_ Hn]. done.
  - intros c Hc. destruct (trace_loop_frame _ _ _ _ _ Hloop) as [_ Hframe].
    by apply Hframe.
Qed.

(** ** Bounds on perimeters *)

Lemma lex_lt_trans (a b c : cell) : lex_lt a b → lex_lt b c → lex_lt a c.
Proof. unfold lex_lt. lia. Qed.

Section extremal.
Context (R : cell → cell → Prop).
Hypothesis R_trans : ∀ a b c, R a b → R b c → R a c.
Hypothesis R_irrefl : ∀ a, ¬ R a a.
Hypothesis R_total : ∀ a b, R a b ∨ a = b ∨ R b a.

Lemma list_extremal (l : list cell) :
  l ≠ [] → ∃ m, m ∈ l ∧ ∀ y, y ∈ l → ¬ R y m.
Proof.
  induction l as [|a l IH]; [done|]. intros _.
  destruct l as [|b l].
  { exists a. split; [left|]. intros y ->%list_elem_of_singleton. apply R_irrefl. }
  destruct IH as (m & Hm & Hmin); [done|].
  destruct (R_total a m) as [Ham|[->|Hma]].
  - exists a. split; [left|]. intros y [->|Hy]%elem_of_cons; [apply R_irrefl|].
    intros Hya. apply (Hmin y Hy). by eapply R_trans.
  - exists m. split; [by right|]. intros y [->|Hy]%elem_of_cons; [apply R_irrefl|by apply Hmin].
  - exists m. split; [by right|]. intros y [->|Hy]%elem_of_cons; [|by apply Hmin].
    intros Ham. apply (R_irrefl m). by eapply R_trans.
Qed.
End extremal.

Lemma set_least (C : gset cell) :
  C ≠ ∅ → ∃ m, m ∈ C ∧ ∀ y, y ∈ C → ¬ lex_lt y m.
Proof.
  intros HC. destruct (list_extremal lex_lt lex_lt_trans lex_lt_irrefl lex_lt_trichotomy
                         (elements C)) as (m & Hm & Hmin).
  - intros He. apply HC. by apply elements_empty_inv, leibniz_equiv in He.
  - exists m. split; [by apply elem_of_elements|].
    intros y Hy. by apply Hmin, elem_of_elements.
Qed.

Lemma set_greatest (C : gset cell) :
  C ≠ ∅ → ∃ m, m ∈ C ∧ ∀ y, y ∈ C → ¬ lex_lt m y.
Proof.
  intros HC. destruct (list_extremal (flip lex_lt)) with (l := elements C)
    as (m & Hm & Hmax).
  - intros a b c Hab Hbc. by eapply lex_lt_trans.
  - intros a. apply lex_lt_irrefl.
  - intros a b. destruct (lex_lt_trichotomy a b) as [?|[?|?]]; unfold flip; tauto.
  - intros He. apply HC. by apply elements_empty_inv, leibniz_equiv in He.
  - exists m. split; [by apply elem_of_elements|].
    intros y Hy. by apply Hmax, elem_of_elements.
Qed.

Lemma sum_list_with_two {A : Type} (f : A → nat) (l : list A) (x y : A) :
  x ∈ l → y ∈ l → x ≠ y → (f x + f y ≤ sum_list_with f l)%nat.
Proof.
  induction l as [|a l IH]; intros Hx Hy Hne; [by apply elem_of_nil in Hx|].
  simpl. apply elem_of_cons in Hx as [->|Hx]; apply elem_of_cons in Hy as [->|Hy].
  - done.
  - pose proof (sum_list_with_in _ f _ Hy). lia.
  - pose proof (sum_list_with_in _ f _ Hx). lia.
  - specialize (IH Hx Hy Hne). lia.
Qed.

Lemma open_edges_le (O : gset cell) (c : cell) : (open_edges O c ≤ 4)%nat.
Proof. unfold open_edges. by etrans; [apply length_filter|]. Qed.

(** A set of cells has at least four open edges: two at its first cell in
    the scan order, two at its last. *)
Lemma perimeter_self_ge_4 (C : gset cell) : C ≠ ∅ → (4 ≤ perimeter C C)%nat.
Proof.
  intros HC.
  destruct (set_least C HC) as (m & Hm & Hmin).
  destruct (set_greatest C HC) as (M & HM & Hmax).
  assert (open_edge C (m.1 - 1, m.2) = 1%nat ∧ open_edge C (m.1, m.2 - 1) = 1%nat) as [Hl Hd].
  { unfold open_edge. split; apply decide_False; intros Hn; apply (Hmin _ Hn);
      unfold lex_lt; simpl; lia. }
  assert (open_edge C (M.1 + 1, M.2) = 1%nat ∧ open_edge C (M.1, M.2 + 1) = 1%nat) as [Hr Hu].
  { unfold open_edge. split; apply decide_False; intros Hn; apply (Hmax _ Hn);
      unfold lex_lt; simpl; lia. }
  pose proof (open_edges_sum C m) as Hsm. pose proof (open_edges_sum C M) as HsM.
  destruct (decide (m = M)) as [->|Hne].
  - pose proof (sum_list_with_in _ (open_edges C) _ (proj2 (elem_of_elements C M) HM)).
    unfold perimeter. lia.
  - pose proof (sum_list_with_two (open_edges C) (elements C) m M
                  (proj2 (elem_of_elements C m) Hm) (proj2 (elem_of_elements C M) HM) Hne).
    unfold perimeter. lia.
Qed.

Lemma perimeter_le_4 (O C : gset cell) : (perimeter O C ≤ 4 * size C)%nat.
Proof.
  unfold perimeter, size, set_size. simpl.
  induction (elements C) as [|c l IH]; simpl; [lia|].
  pose proof (open_edges_le O c). lia.
Qed.

(** *** A parcel of [n] cells has perimeter at most [2n + 2] *)

Lemma shared_pos (T : gset cell) (p t : cell) :
  t ∈ T → adjacent p t → (1 ≤ shared T p)%nat.
Proof.
  intros Ht Hadj. unfold shared.
  assert (t ∈ filter (λ n, n ∈ T) (neighbours p)) as Hin.
  { by apply list_elem_of_filter. }
  destruct (filter _ _); [by apply elem_of_nil in Hin|simpl; lia].
Qed.

Lemma grow_connected (C T : gset cell) (c0 : cell) :
  is_component C c0 C → c0 ∈ T → T ⊆ C → T ≠ C →
  ∃ p t, p ∈ C ∧ (p ∉ T) ∧ t ∈ T ∧ adjacent p t.
Proof.
  intros HC Hc0 HT Hne.
  destruct (decide (Exists (λ p, Exists (λ t, t ∈ T) (neighbours p)) (elements (C ∖ T))))
    as [Hex|Hnex].
  - apply Exists_exists in Hex as (p & Hp & Hex).
    apply Exists_exists in Hex as (t & Ht & HtT).
    apply elem_of_elements, elem_of_difference in Hp as [HpC HpT].
    by exists p, t.
  - exfalso. apply Hne. apply set_eq. intros b. split; [apply HT|].
    intros Hb. destruct HC as [_ HC]. apply HC in Hb as [_ Hrtc].
    revert b Hrtc. apply (rtc_ind_r (λ b, b ∈ T)); [done|].
    intros y z _ [Hadj Hz] Hy.
    destruct (decide (z ∈ T)) as [|HzT]; [done|].
    exfalso. apply Hnex. apply Exists_exists. exists z. split.
    + apply elem_of_elements, elem_of_difference. done.
    + apply Exists_exists. exists y. split; [by apply adjacent_sym|done].
Qed.

Lemma perimeter_connected_le (C : gset cell) (c0 : cell) :
  is_component C c0 C → (perimeter C C ≤ 2 * size C + 2)%nat.
Proof.
  intros HC.
  assert (∀ n (T : gset cell), size (C ∖ T) = n → c0 ∈ T → T ⊆ C →
            (perimeter T T ≤ 2 * size T + 2)%nat →
            (perimeter C C ≤ 2 * size C + 2)%nat) as Hgrow.
  { induction n as [|n IH]; intros T Hn Hc0 HT Hper.
    - apply size_empty_inv, leibniz_equiv in Hn.
      assert (T = C) as <-; [|done]. apply set_eq. intros b. split; [apply HT|].
      intros Hb. destruct (decide (b ∈ T)); [done|].
      exfalso. apply (not_elem_of_empty (C:=gset cell) b). rewrite <- Hn.
      by apply elem_of_difference.
    - destruct (grow_connected C T c0 HC Hc0 HT) as (p & t & HpC & HpT & Ht & Hadj).
      { intros ->. replace (C ∖ C) with (∅ : gset cell) in Hn by set_solver.
        by rewrite size_empty in Hn. }
      apply (IH ({[ p ]} ∪ T)).
      + assert (C ∖ T = {[ p ]} ∪ C ∖ ({[ p ]} ∪ T)) as Heq.
        { apply set_eq. intros c. clear -HpC HpT. destruct (decide (c = p)); set_solver. }
        rewrite Heq, size_union, size_singleton in Hn by (clear; set_solver). lia.
      + apply elem_of_union. by right.
      + clear -HT HpC. set_solver.
      + pose proof (perimeter_self_add T p HpT) as Hadd.
        pose proof (shared_pos T p t Ht Hadj).
        rewrite size_union, size_singleton by (clear -HpT; set_solver). lia. }
  pose proof (component_start _ _ _ HC) as Hc0.
  apply (Hgrow (size (C ∖ {[ c0 ]})) {[ c0 ]}); [done|by apply elem_of_singleton| |].
  - clear -Hc0. set_solver.
  - pose proof (perimeter_self_add ∅ c0 (not_elem_of_empty _)) as Hadd.
    rewrite perimeter_empty in Hadd.
    replace ({[ c0 ]} ∪ ∅) with ({[ c0 ]} : gset cell) in Hadd by set_solver.
    rewrite size_singleton. lia.
Qed.

(** ** Parcels as sets of their own *)

Lemma component_self (O : gset cell) (c : cell) (C : gset cell) :
  is_component O c C → is_component C c C.
Proof.
  intros HC. pose proof (component_start _ _ _ HC) as Hc.
  split; [done|]. intros b. split; [|apply connected_in].
  intros Hb. destruct HC as [HcO HC']. apply HC' in Hb as [_ Hrtc].
  split; [done|].
  cut (b ∈ C ∧ rtc (step_in C) c b); [tauto|].
  revert b Hrtc. apply (rtc_ind_r (λ b, b ∈ C ∧ rtc (step_in C) c b)); [done|].
  intros y z _ [Hadj Hz] [Hy IH].
  assert (z ∈ C) as HzC.
  { eapply (component_closed O c C y z); [by split|done..]. }
  split; [done|]. eapply rtc_r; [done|]. by split.
Qed.

Lemma sorted_starts_NoDup (l : list cell) : StronglySorted lex_lt l → NoDup l.
Proof.
  induction 1 as [|a l _ IH Hall]; constructor; [|done].
  intros Ha. rewrite Forall_forall in Hall. by apply (lex_lt_irrefl a), Hall.
Qed.

Lemma found_bounds (O : gset cell) (found : list (cell * gset cell)) :
  Forall (λ sc, is_component O sc.1 sc.2 ∧ least sc.2 sc.1) found →
  StronglySorted lex_lt found.*1 →
  Forall (λ p, 4 ≤ p ≤ 2 * Z.of_nat (size O) + 2) (perimeters_of O found)
  ∧ (length (perimeters_of O found) ≤ size O)%nat.
Proof.
  intros Hcomps Hsorted. split.
  - unfold perimeters_of. apply Forall_fmap.
    eapply Forall_impl; [exact Hcomps|]. intros [s C] [HC _]. simpl in *.
    rewrite (perimeter_component O s C HC).
    pose proof (component_self O s C HC) as HCC.
    pose proof (perimeter_connected_le C s HCC) as Hle.
    assert (C ≠ ∅) as Hne.
    { intros ->. apply (not_elem_of_empty (C:=gset cell) s), (component_start O s ∅ HC). }
    pose proof (perimeter_self_ge_4 C Hne) as Hge.
    pose proof (subseteq_size C O (component_sub O s C HC)) as Hsz. lia.
  - unfold perimeters_of. rewrite length_fmap, <- (length_fmap fst found).
    apply submseteq_length, NoDup_submseteq; [by apply sorted_starts_NoDup|].
    intros s (sc & -> & Hsc)%list_elem_of_fmap. apply elem_of_elements.
    rewrite Forall_forall in Hcomps. by destruct (Hcomps sc Hsc) as [[? _] _].
Qed.

Lemma render_nonempty (points : list JS.value) (cs : list cell) (perims : list Z) :
  Forall2 (λ p c, JS.parsePoint p = Ok c) points cs →
  JS.render points = Ok perims → points ≠ [] → perims ≠ [].
Proof.
  intros Hall Hrender Hne.
  destruct (render_parcels points cs Hall) as (found & Hr & _ & _ & Hcov).
  rewrite Hrender in Hr. injection Hr as ->.
  destruct points as [|p points]; [done|].
  apply Forall2_cons_inv_l in Hall as (c & cs0 & _ & _ & ->).
  assert (c ∈ ⋃ (found.*2)) as (C & HC & _)%elem_of_union_list by (apply Hcov; left).
  destruct found; [by apply elem_of_nil in HC|done].
Qed.

Lemma all_valid_or_invalid (points : list JS.value) :
  (∃ cs, Forall2 (λ p c, JS.parsePoint p = Ok c) points cs)
  ∨ Exists (λ p, ∃ e, JS.parsePoint p = Err e) points.
Proof.
  induction points as [|p points [[cs IH]|IH]].
  - left. by exists [].
  - destruct (JS.parsePoint p) as [c|e] eqn:Hp.
    + left. exists (c :: cs). by constructor.
    + right. left. by exists e.
  - right. by right.
Qed.

(** * Further properties of the code *)

(** X1.  On valid input [parsePoints] returns a grid of exactly
    [maxX + 1] rows of [maxY + 1] cells in which a cell holds [1] when its
    coordinates are among the parsed points and [0] otherwise; [maxX] and
    [maxY] bound every point and, for a non-empty input, each is attained
    by some point (the two maxima are taken independently). *)
Theorem parsePoints_grid (points : list JS.value) (cs : list cell) :
  Forall2 (λ p c, JS.parsePoint p = Ok c) points cs →
  ∃ g mx my,
    JS.parsePoints points = Ok {| JS.grid := g; JS.maxX := mx; JS.maxY := my |}
    ∧ wf_grid mx my g
    ∧ (∀ c, inb mx my c → grid_get g c = Ok (if decide (c ∈ cs) then 1 else 0))
    ∧ (∀ c, c ∈ cs → inb mx my c)
    ∧ (points = [] → mx = -1 ∧ my = -1)
    ∧ (points ≠ [] → (∃ c, c ∈ cs ∧ c.1 = mx) ∧ (∃ c, c ∈ cs ∧ c.2 = my)).
Proof.
  intros Hall.
  destruct (parsePoints_exact points cs Hall)
    as (g & mx & my & Hp & Hwf & Hg & Hin & Hmx & Hmy).
  exists g, mx, my. repeat (split; [done|]). split.
  - intros ->. by injection Hp as _ <- <-.
  - intros Hne. destruct points as [|p points]; [done|].
    apply Forall2_cons_inv_l in Hall as (c & cs0 & _ & _ & ->).
    destruct (Hin c) as [Hx Hy]; [left|].
    split; [destruct Hmx as [->|?]|destruct Hmy as [->|?]]; try done; lia.
Qed.

Lemma parsePoints_grid_witness :
  Forall2 (λ p c, JS.parsePoint p = Ok c)
    (JS.strs ["0,3"; "2,1"; "0,3"]%string) [(0, 3); (2, 1); (0, 3)]
  ∧ ∃ g mx my,
      JS.parsePoints (JS.strs ["0,3"; "2,1"; "0,3"]%string)
        = Ok {| JS.grid := g; JS.maxX := mx; JS.maxY := my |}
      ∧ wf_grid mx my g
      ∧ (∀ c, inb mx my c →
           grid_get g c = Ok (if decide (c ∈ [(0, 3); (2, 1); (0, 3)]) then 1 else 0))
      ∧ (∀ c, c ∈ [(0, 3); (2, 1); (0, 3)] → inb mx my c)
      ∧ (JS.strs ["0,3"; "2,1"; "0,3"]%string = [] → mx = -1 ∧ my = -1)
      ∧ (JS.strs ["0,3"; "2,1"; "0,3"]%string ≠ [] →
           (∃ c, c ∈ [(0, 3); (2, 1); (0, 3)] ∧ c.1 = mx)
           ∧ (∃ c, c ∈ [(0, 3); (2, 1); (0, 3)] ∧ c.2 = my)).
Proof.
  assert (Forall2 (λ p c, JS.parsePoint p = Ok c)
    (JS.strs ["0,3"; "2,1"; "0,3"]%string) [(0, 3); (2, 1); (0, 3)]) as H.
  { repeat constructor. }
  split; [exact H|]. exact (parsePoints_grid _ _ H).
Defined.

(** X2.  The outcome of [render] on valid input depends only on the set
    of coordinates: neither the order of the points, nor repetitions, nor
    the spelling of a coordinate (leading zeros, whitespace around the
    comma) matter.  The same holds of [computeParcelPerimeters]. *)
Theorem render_cells_only (strs strs' : list jsstring) (cs cs' : list cell) :
  Forall2 (λ s c, JS.parsePoint (JS.VString s) = Ok c) strs cs →
  Forall2 (λ s c, JS.parsePoint (JS.VString s) = Ok c) strs' cs' →
  (∀ c, c ∈ cs ↔ c ∈ cs') →
  JS.render (JS.VString <$> strs) = JS.render (JS.VString <$> strs')
  ∧ TS.computeParcelPerimeters strs = TS.computeParcelPerimeters strs'.
Proof.
  intros Hall%valid_strings_values Hall'%valid_strings_values Hsame.
  rewrite !ts_js_equiv.
  by rewrite (render_same_cells _ _ cs cs' Hall Hall' Hsame).
Qed.

Lemma render_cells_only_witness :
  Forall2 (λ s c, JS.parsePoint (JS.VString s) = Ok c)
    (js <$> ["1,1"; "1,2"; "4,0"]%string) [(1, 1); (1, 2); (4, 0)]
  ∧ Forall2 (λ s c, JS.parsePoint (JS.VString s) = Ok c)
      (js <$> ["04 , 0"; "1,2"; "4,0"; "001,1"]%string) [(4, 0); (1, 2); (4, 0); (1, 1)]
  ∧ (∀ c, c ∈ [(1, 1); (1, 2); (4, 0)] ↔ c ∈ [(4, 0); (1, 2); (4, 0); (1, 1)])
  ∧ JS.render (JS.VString <$> (js <$> ["1,1"; "1,2"; "4,0"]%string))
    = JS.render (JS.VString <$> (js <$> ["04 , 0"; "1,2"; "4,0"; "001,1"]%string))
  ∧ TS.computeParcelPerimeters (js <$> ["1,1"; "1,2"; "4,0"]%string)
    = TS.computeParcelPerimeters (js <$> ["04 , 0"; "1,2"; "4,0"; "001,1"]%string).
Proof.
  assert (Forall2 (λ s c, JS.parsePoint (JS.VString s) = Ok c)
    (js <$> ["1,1"; "1,2"; "4,0"]%string) [(1, 1); (1, 2); (4, 0)]) as H1.
  { repeat constructor. }
  assert (Forall2 (λ s c, JS.parsePoint (JS.VString s) = Ok c)
    (js <$> ["04 , 0"; "1,2"; "4,0"; "001,1"]%string) [(4, 0); (1, 2); (4, 0); (1, 1)]) as H2.
  { repeat constructor. }
  assert (∀ c, c ∈ [(1, 1); (1, 2); (4, 0)] ↔ c ∈ [(4, 0); (1, 2); (4, 0); (1, 1)]) as H3.
  { intros c. rewrite !elem_of_cons, !elem_of_nil. tauto. }
  split; [exact H1|]. split; [exact H2|]. split; [exact H3|].
  exact (render_cells_only _ _ _ _ H1 H2 H3).
Defined.

(** X3.  Started at an occupied cell of a grid whose rows and columns
    match the bounds, [traceParcel] returns; the count it returns is the
    perimeter of the parcel of that cell; it sets the cells of that parcel
    to [0] and leaves every other cell of the grid as it was.  The
    TypeScript [traceParcel] does the same. *)
Theorem traceParcel_contract (g : Grid) (x y mx my : Z) :
  wf_grid mx my g →
  occ g (x, y) = true →
  ∃ C g',
    JS.traceParcel g x y mx my = Ok (Z.of_nat (perimeter (occupied mx my g) C), g')
    ∧ TS.traceParcel {| TS.grid := g; TS.maxX := mx; TS.maxY := my |} x y
        = Ok (Z.of_nat (perimeter (occupied mx my g) C),
              {| TS.grid := g'; TS.maxX := mx; TS.maxY := my |})
    ∧ is_component (occupied mx my g) (x, y) C
    ∧ wf_grid mx my g'
    ∧ (∀ c, c ∈ C → grid_get g' c = Ok 0)
    ∧ (∀ c, c ∉ C → grid_get g' c = grid_get g c).
Proof.
  intros Hwf Hocc.
  pose proof (occupied_repr mx my g Hwf) as Hrepr.
  destruct (traceParcel_frame mx my _ g (x, y) Hrepr) as (C & g' & Htr & HC & Hrest).
  { by apply Hrepr. }
  exists C, g'. simpl in Htr. split; [done|]. split; [|done].
  by rewrite ts_traceParcel, Htr.
Qed.

Lemma traceParcel_contract_witness :
  wf_grid 1 2 [[1; 0; 5]; [1; 0; 7]]
  ∧ occ [[1; 0; 5]; [1; 0; 7]] (0, 2) = true
  ∧ ∃ C g',
      JS.traceParcel [[1; 0; 5]; [1; 0; 7]] 0 2 1 2
        = Ok (Z.of_nat (perimeter (occupied 1 2 [[1; 0; 5]; [1; 0; 7]]) C), g')
      ∧ TS.traceParcel
          {| TS.grid := [[1; 0; 5]; [1; 0; 7]]; TS.maxX := 1; TS.maxY := 2 |} 0 2
          = Ok (Z.of_nat (perimeter (occupied 1 2 [[1; 0; 5]; [1; 0; 7]]) C),
                {| TS.grid := g'; TS.maxX := 1; TS.maxY := 2 |})
      ∧ is_component (occupied 1 2 [[1; 0; 5]; [1; 0; 7]]) (0, 2) C
      ∧ wf_grid 1 2 g'
      ∧ (∀ c, c ∈ C → grid_get g' c = Ok 0)
      ∧ (∀ c, c ∉ C → grid_get g' c = grid_get [[1; 0; 5]; [1; 0; 7]] c).
Proof.
  assert (wf_grid 1 2 [[1; 0; 5]; [1; 0; 7]]) as H1.
  { split; [reflexivity|]. by repeat constructor. }
  assert (occ [[1; 0; 5]; [1; 0; 7]] (0, 2) = true) as H2 by reflexivity.
  split; [exact H1|]. split; [exact H2|].
  exact (traceParcel_contract _ 0 2 1 2 H1 H2).
Defined.

(** X4.  On every grid whose rows and columns match the bounds, whatever
    truthy values mark its occupied cells, [findParcels] returns the
    perimeters of the parcels of the occupied cells: every parcel exactly
    once, in the order of their least cells for the scan ([x] ascending,
    then [y] ascending).  The TypeScript [findParcels] returns the same. *)
Theorem findParcels_contract (g : Grid) (mx my : Z) :
  wf_grid mx my g →
  ∃ (found : list (cell * gset cell)) g',
    JS.findParcels g mx my = Ok (perimeters_of (occupied mx my g) found, g')
    ∧ TS.findParcels {| TS.grid := g; TS.maxX := mx; TS.maxY := my |}
        = Ok (perimeters_of (occupied mx my g) found,
              {| TS.grid := g'; TS.maxX := mx; TS.maxY := my |})
    ∧ NoDup found.*2
    ∧ (∀ C, is_parcel (occupied mx my g) C ↔ C ∈ found.*2)
    ∧ Forall (λ sc, least sc.2 sc.1) found
    ∧ StronglySorted lex_lt found.*1.
Proof.
  intros Hwf.
  destruct (findParcels_correct mx my _ g (occupied_repr mx my g Hwf))
    as (found & g' & Hfind & _ & Hcomps & Hsorted & Hcov).
  destruct (found_all_parcels _ found Hcomps Hsorted Hcov) as [Hnd Hall].
  exists found, g'. split; [done|]. split; [by rewrite ts_findParcels, Hfind|].
  repeat (split; [done|]). split; [|done].
  eapply Forall_impl; [exact Hcomps|]. simpl. tauto.
Qed.

Lemma findParcels_contract_witness :
  wf_grid 2 1 [[0; 3]; [0; 0]; [1; 1]]
  ∧ ∃ (found : list (cell * gset cell)) g',
      JS.findParcels [[0; 3]; [0; 0]; [1; 1]] 2 1
        = Ok (perimeters_of (occupied 2 1 [[0; 3]; [0; 0]; [1; 1]]) found, g')
      ∧ TS.findParcels {| TS.grid := [[0; 3]; [0; 0]; [1; 1]]; TS.maxX := 2; TS.maxY := 1 |}
          = Ok (perimeters_of (occupied 2 1 [[0; 3]; [0; 0]; [1; 1]]) found,
                {| TS.grid := g'; TS.maxX := 2; TS.maxY := 1 |})
      ∧ NoDup found.*2
      ∧ (∀ C, is_parcel (occupied 2 1 [[0; 3]; [0; 0]; [1; 1]]) C ↔ C ∈ found.*2)
      ∧ Forall (λ sc, least sc.2 sc.1) found
      ∧ StronglySorted lex_lt found.*1.
Proof.
  assert (wf_grid 2 1 [[0; 3]; [0; 0]; [1; 1]]) as H.
  { split; [reflexivity|]. by repeat constructor. }
  split; [exact H|]. exact (findParcels_contract _ 2 1 H).
Defined.

(** X5.  On valid input with [n] distinct coordinates, every perimeter
    returned lies between [4] and [2n + 2], at most [n] perimeters are
    returned, and at least one when the input is not empty. *)
Theorem perimeter_bounds (strs : list jsstring) (cs : list cell) :
  Forall2 (λ s c, JS.parsePoint (JS.VString s) = Ok c) strs cs →
  ∃ perims,
    JS.render (JS.VString <$> strs) = Ok perims
    ∧ TS.computeParcelPerimeters strs = Ok perims
    ∧ Forall (λ p, 4 ≤ p ≤ 2 * Z.of_nat (size (list_to_set cs : gset cell)) + 2) perims
    ∧ (length perims ≤ size (list_to_set cs : gset cell))%nat
    ∧ (strs ≠ [] → perims ≠ []).
Proof.
  intros Hall%valid_strings_values.
  destruct (render_parcels _ _ Hall) as (found & Hrender & Hcomps & Hsorted & Hcov).
  destruct (found_bounds _ found Hcomps Hsorted) as [Hb Hlen].
  exists (perimeters_of (list_to_set cs) found). rewrite ts_js_equiv.
  repeat (split; [done|]). intros Hne.
  apply (render_nonempty _ cs _ Hall Hrender). by destruct strs.
Qed.

Lemma perimeter_bounds_witness :
  Forall2 (λ s c, JS.parsePoint (JS.VString s) = Ok c)
    (js <$> ["0,0"; "0,1"; "5,5"; "0,1"]%string) [(0, 0); (0, 1); (5, 5); (0, 1)]
  ∧ ∃ perims,
      JS.render (JS.VString <$> (js <$> ["0,0"; "0,1"; "5,5"; "0,1"]%string)) = Ok perims
      ∧ TS.computeParcelPerimeters (js <$> ["0,0"; "0,1"; "5,5"; "0,1"]%string) = Ok perims
      ∧ Forall (λ p, 4 ≤ p ≤
           2 * Z.of_nat (size (list_to_set [(0, 0); (0, 1); (5, 5); (0, 1)] : gset cell)) + 2)
          perims
      ∧ (length perims ≤ size (list_to_set [(0, 0); (0, 1); (5, 5); (0, 1)]%Z : gset cell))%nat
      ∧ (js <$> ["0,0"; "0,1"; "5,5"; "0,1"]%string ≠ [] → perims ≠ []).
Proof.
  assert (Forall2 (λ s c, JS.parsePoint (JS.VString s) = Ok c)
    (js <$> ["0,0"; "0,1"; "5,5"; "0,1"]%string) [(0, 0); (0, 1); (5, 5); (0, 1)]) as H.
  { repeat constructor. }
  split; [exact H|]. exact (perimeter_bounds _ _ H).
Defined.

(** X6.  [render] always ends in one of three ways: with a sequence of
    perimeters, exactly when every element passes validation; or with the
    [TypeError] or the [RangeError] of the fixed messages, when some
    element does not.  It raises nothing else, reads or writes no cell
    outside the grid, and its work-list loops terminate. *)
Theorem render_outcome (points : list JS.value) :
  (Forall (λ p, ∃ c, JS.parsePoint p = Ok c) points
   ∧ ∃ perims, JS.render points = Ok perims)
  ∨ (Exists (λ p, ∃ e, JS.parsePoint p = Err e) points
     ∧ (JS.render points = Err (TypeError TYPE_ERROR_MSG)
        ∨ JS.render points = Err (RangeError RANGE_ERROR_MSG))).
Proof.
  destruct (all_valid_or_invalid points) as [[cs Hall]|Hex].
  - left. split.
    + clear -Hall. induction Hall; constructor; [by eexists|done].
    + destruct (render_parcels points cs Hall) as (found & -> & _). by eexists.
  - right. split; [done|].
    destruct (first_invalid points Hex) as (pre & bad & post & e & -> & Hpre & Hbad).
    rewrite (render_invalid pre bad post e Hpre Hbad).
    destruct (parsePoint_error _ _ Hbad) as [-> | ->]; [by left|by right].
Qed.


(** ** The command line *)

(** A call of [render] either succeeds on input that is valid throughout,
    with at least one perimeter when there is at least one point, or
    throws the error of the first invalid element. *)
Lemma render_cases (points : list JS.value) :
  (∃ cs perims,
     Forall2 (λ p c, JS.parsePoint p = Ok c) points cs
     ∧ JS.render points = Ok perims
     ∧ (points ≠ [] → perims ≠ []))
  ∨ (∃ pre bad post e,
       points = pre ++ bad :: post
       ∧ Forall (λ p, ∃ c, JS.parsePoint p = Ok c) pre
       ∧ JS.parsePoint bad = Err e
       ∧ (e = TypeError TYPE_ERROR_MSG ∨ e = RangeError RANGE_ERROR_MSG)
       ∧ JS.render points = Err e).
Proof.
  destruct (all_valid_or_invalid points) as [[cs Hcs]|Hex].
  - left. destruct (render_parcels points cs Hcs) as (found & Hr & _).
    exists cs, (perimeters_of (list_to_set cs) found).
    split_and!; [done|done|]. intros Hne. by eapply render_nonempty.
  - right. destruct (first_invalid points Hex) as (pre & bad & post & e & -> & Hpre & Hbad).
    exists pre, bad, post, e. split_and!; [done|done|done| |].
    + by eapply parsePoint_error.
    + by apply render_invalid.
Qed.

Lemma drop_2_nonempty {A} (l : list A) : (3 ≤ length l)%nat → drop 2 l ≠ [].
Proof. destruct l as [|a [|b [|c l]]]; simpl; intros; [lia..|done]. Qed.

Lemma pretty_N_go_digit (x : N) (s : string) :
  (0 < x)%N ∨ starts_with_digit s → starts_with_digit (pretty_N_go x s).
Proof.
  revert s. induction (N.lt_wf_0 x) as [x _ IH]. intros s Hs.
  assert (x = 0 ∨ 0 < x)%N as [->|Hpos] by lia.
  - rewrite pretty_N_go_0. destruct Hs as [Hs|Hs]; [lia|done].
  - rewrite pretty_N_go_step by done. apply IH.
    + by apply N.div_lt.
    + right. simpl. by eexists.
Qed.

Lemma number_text_digit (n : Z) : 0 ≤ n → starts_with_digit (number_text n).
Proof.
  intros Hn. unfold number_text, pretty, pretty_Z. destruct n as [|p|p]; [|..|lia].
  - by exists 0%N.
  - unfold pretty, pretty_positive, pretty, pretty_N. case_decide; [done|].
    apply pretty_N_go_digit. left. lia.
Qed.

Lemma digit_not_n (d : N) : pretty_N_char d ≠ "n"%char.
Proof. unfold pretty_N_char. by repeat case_match. Qed.

Lemma many_parcels_not_none (perimeters : list Z) : many_parcels perimeters ≠ NO_PARCELS.
Proof.
  unfold many_parcels, NO_PARCELS.
  pose proof (number_text_digit (Z.of_nat (length perimeters)) ltac:(lia)) as Hd.
  destruct (number_text _) as [|a s]; [done|]. destruct Hd as [d ->].
  simpl. intros [= Hn _]. by apply digit_not_n in Hn.
Qed.

Lemma one_parcel_not_none (p : Z) : one_parcel p ≠ NO_PARCELS.
Proof. unfold one_parcel, NO_PARCELS. simpl. by intros [=]. Qed.

(** What [main.js] does with the perimeters that [render] returns. *)
Lemma main_js_Ok (argv : list jsstring) (perims : list Z) :
  (3 ≤ length argv)%nat →
  JS.render (JS.VString <$> drop 2 argv) = Ok perims →
  perims ≠ [] →
  main_js argv
  = Ok {| stdout := [match perims with [p] => one_parcel p | _ => many_parcels perims end];
          stderr := []; exitCode := 0 |}.
Proof.
  intros Hlen Hr Hne. unfold main_js.
  destruct (Nat.ltb_spec (length argv) 3) as [?|_]; [lia|].
  cbv zeta. rewrite Hr. destruct perims as [|p [|q perims]]; done.
Qed.

Lemma main_js_Err (argv : list jsstring) (e : exn) (message : string) :
  (3 ≤ length argv)%nat →
  JS.render (JS.VString <$> drop 2 argv) = Err e →
  e = TypeError message ∨ e = RangeError message →
  main_js argv
  = Ok {| stdout := []; stderr := [("ERROR: " +:+ message)%string]; exitCode := 0 |}.
Proof.
  intros Hlen Hr He. unfold main_js.
  destruct (Nat.ltb_spec (length argv) 3) as [?|_]; [lia|].
  cbv zeta. rewrite Hr. by destruct He as [->| ->].
Qed.

Lemma main_ts_js (argv : list jsstring) : main_ts argv = main_js argv.
Proof. unfold main_ts, main_js. by rewrite ts_js_equiv. Qed.

(** The three ways a run of [main.js] can go. *)
Lemma main_cases (argv : list jsstring) :
  ((length argv < 3)%nat
   ∧ main_js argv = Ok {| stdout := []; stderr := [USAGE_ERROR]; exitCode := 1 |})
  ∨ ((3 ≤ length argv)%nat
     ∧ ∃ perims, perims ≠ []
         ∧ JS.render (JS.VString <$> drop 2 argv) = Ok perims
         ∧ main_js argv
           = Ok {| stdout := [match perims with
                              | [p] => one_parcel p
                              | _ => many_parcels perims
                              end];
                   stderr := []; exitCode := 0 |})
  ∨ ((3 ≤ length argv)%nat
     ∧ ∃ message, (message = TYPE_ERROR_MSG ∨ message = RANGE_ERROR_MSG)
         ∧ main_js argv
           = Ok {| stdout := []; stderr := [("ERROR: " +:+ message)%string];
                   exitCode := 0 |}).
Proof.
  destruct (Nat.ltb_spec (length argv) 3) as [Hlt|Hge].
  - left. split; [done|]. unfold main_js.
    by destruct (Nat.ltb_spec (length argv) 3) as [_|?]; [|lia].
  - right.
    destruct (render_cases (JS.VString <$> drop 2 argv))
      as [(cs & perims & _ & Hr & Hne)|(pre & bad & post & e & _ & _ & _ & He & Hr)].
    + left. split; [done|]. exists perims.
      assert (perims ≠ []) as Hperims.
      { apply Hne. intros Hnil%fmap_nil_inv. by apply (drop_2_nonempty argv). }
      split; [done|]. split; [done|]. by apply main_js_Ok.
    + right. split; [done|]. destruct He as [->| ->].
      * exists TYPE_ERROR_MSG. split; [by left|].
        by apply (main_js_Err _ (TypeError TYPE_ERROR_MSG)); [| |left].
      * exists RANGE_ERROR_MSG. split; [by right|].
        by apply (main_js_Err _ (RangeError RANGE_ERROR_MSG)); [| |right].
Qed.

(** One perimeter is returned exactly when the cells form one parcel. *)
Lemma render_one_iff (points : list JS.value) (cs : list cell) (perims : list Z) :
  Forall2 (λ p c, JS.parsePoint p = Ok c) points cs →
  JS.render points = Ok perims →
  length perims = 1%nat ↔ ∃ c, is_component (list_to_set cs) c (list_to_set cs).
Proof.
  intros Hall Hr. split.
  - intros Hlen.
    destruct (render_parcels points cs Hall) as (found & Hr' & Hcomps & _ & Hcov).
    rewrite Hr in Hr'. injection Hr' as ->.
    unfold perimeters_of in Hlen. rewrite length_fmap in Hlen.
    destruct found as [|[c C] [|? ?]]; [done| |done].
    apply Forall_cons in Hcomps as [[HC _] _]. simpl in HC.
    exists c. replace (list_to_set cs) with C at 2; [done|].
    apply set_eq. intros b. split.
    + intros Hb. apply HC in Hb. apply connected_in in Hb. done.
    + intros Hb. apply elem_of_list_to_set in Hb. apply Hcov in Hb.
      simpl in Hb. clear -Hb. set_solver.
  - intros [c Hc]. rewrite (render_connected points cs c Hall Hc) in Hr.
    by injection Hr as <-.
Qed.

(** * Properties of the command line *)

(** X8.  [main.js] and [main.ts] always terminate normally and behave
    alike.  With fewer than three elements in [process.argv] they write
    the usage message to the error stream, nothing to the output, and exit
    with code [1].  With three or more they write exactly one line, to one
    of the two streams, and exit with code [0], also when the points are
    rejected. *)
Theorem main_exit_code (argv : list jsstring) :
  ∃ pr,
    main_js argv = Ok pr ∧ main_ts argv = Ok pr
    ∧ (((length argv < 3)%nat ∧ exitCode pr = 1
        ∧ stdout pr = [] ∧ stderr pr = [USAGE_ERROR])
       ∨ ((3 ≤ length argv)%nat ∧ exitCode pr = 0
          ∧ (length (stdout pr) + length (stderr pr) = 1)%nat)).
Proof.
  rewrite main_ts_js.
  destruct (Nat.ltb_spec (length argv) 3) as [Hlt|Hge].
  - eexists. split; [|split; [|left]].
    + unfold main_js. by destruct (Nat.ltb_spec (length argv) 3) as [_|?]; [|lia].
    + unfold main_js. by destruct (Nat.ltb_spec (length argv) 3) as [_|?]; [|lia].
    + done.
  - destruct (render_cases (JS.VString <$> drop 2 argv))
      as [(cs & perims & _ & Hr & Hne)|(pre & bad & post & e & _ & _ & _ & He & Hr)].
    + assert (perims ≠ []) as Hperims.
      { apply Hne. intros Hnil%fmap_nil_inv. by apply (drop_2_nonempty argv). }
      rewrite (main_js_Ok argv perims Hge Hr Hperims).
      eexists. split; [done|]. split; [done|]. right. done.
    + destruct He as [->| ->].
      * rewrite (main_js_Err argv _ TYPE_ERROR_MSG Hge Hr (or_introl eq_refl)).
        eexists. split; [done|]. split; [done|]. right. done.
      * rewrite (main_js_Err argv _ RANGE_ERROR_MSG Hge Hr (or_intror eq_refl)).
        eexists. split; [done|]. split; [done|]. right. done.
Qed.

(** X9.  When some point is invalid, both scripts write to the error
    stream the single line [ERROR: ] followed by the message of the first
    invalid point, write nothing to the output, and exit with code [0]:
    nothing is reported about the points that are valid. *)
Theorem main_reports_first_invalid (node script : jsstring)
    (pre : list jsstring) (bad : jsstring) (post : list jsstring) (e : exn) :
  Forall (λ s, ∃ c, JS.parsePoint (JS.VString s) = Ok c) pre →
  JS.parsePoint (JS.VString bad) = Err e →
  ∃ message,
    (e = TypeError message ∨ e = RangeError message)
    ∧ (message = TYPE_ERROR_MSG ∨ message = RANGE_ERROR_MSG)
    ∧ main_js (node :: script :: pre ++ bad :: post)
      = Ok {| stdout := []; stderr := [("ERROR: " +:+ message)%string]; exitCode := 0 |}
    ∧ main_ts (node :: script :: pre ++ bad :: post)
      = Ok {| stdout := []; stderr := [("ERROR: " +:+ message)%string]; exitCode := 0 |}.
Proof.
  intros Hpre Hbad. rewrite main_ts_js.
  assert (JS.render (JS.VString <$> drop 2 (node :: script :: pre ++ bad :: post)) = Err e)
    as Hr.
  { change (drop 2 (node :: script :: pre ++ bad :: post)) with (pre ++ bad :: post).
    rewrite fmap_app, fmap_cons. apply render_invalid; [|done].
    by apply Forall_fmap. }
  assert (3 ≤ length (node :: script :: pre ++ bad :: post))%nat as Hlen.
  { simpl. rewrite length_app. simpl. lia. }
  destruct (parsePoint_error _ _ Hbad) as [->| ->].
  - exists TYPE_ERROR_MSG. split; [by left|]. split; [by left|].
    cut (main_js (node :: script :: pre ++ bad :: post)
         = Ok {| stdout := []; stderr := [("ERROR: " +:+ TYPE_ERROR_MSG)%string];
                 exitCode := 0 |}); [done|].
    by apply (main_js_Err _ (TypeError TYPE_ERROR_MSG)); [| |left].
  - exists RANGE_ERROR_MSG. split; [by right|]. split; [by right|].
    cut (main_js (node :: script :: pre ++ bad :: post)
         = Ok {| stdout := []; stderr := [("ERROR: " +:+ RANGE_ERROR_MSG)%string];
                 exitCode := 0 |}); [done|].
    by apply (main_js_Err _ (RangeError RANGE_ERROR_MSG)); [| |right].
Qed.

Lemma main_reports_first_invalid_witness :
  Forall (λ s, ∃ c, JS.parsePoint (JS.VString s) = Ok c) (js <$> ["1,1"; "1,2"]%string)
  ∧ JS.parsePoint (JS.VString (js "2;2")) = Err (TypeError TYPE_ERROR_MSG)
  ∧ ∃ message,
      (TypeError TYPE_ERROR_MSG = TypeError message
       ∨ TypeError TYPE_ERROR_MSG = RangeError message)
      ∧ (message = TYPE_ERROR_MSG ∨ message = RANGE_ERROR_MSG)
      ∧ main_js (js "node" :: js "main.js"
                 :: (js <$> ["1,1"; "1,2"]%string) ++ js "2;2" :: [js "70000,1"])
        = Ok {| stdout := []; stderr := [("ERROR: " +:+ message)%string]; exitCode := 0 |}
      ∧ main_ts (js "node" :: js "main.js"
                 :: (js <$> ["1,1"; "1,2"]%string) ++ js "2;2" :: [js "70000,1"])
        = Ok {| stdout := []; stderr := [("ERROR: " +:+ message)%string]; exitCode := 0 |}.
Proof.
  assert (Forall (λ s, ∃ c, JS.parsePoint (JS.VString s) = Ok c)
            (js <$> ["1,1"; "1,2"]%string)) as H1.
  { repeat constructor; by eexists. }
  assert (JS.parsePoint (JS.VString (js "2;2")) = Err (TypeError TYPE_ERROR_MSG)) as H2.
  { reflexivity. }
  split; [exact H1|]. split; [exact H2|].
  exact (main_reports_first_invalid (js "node") (js "main.js") _ _ [js "70000,1"] _ H1 H2).
Defined.
(** X10.  When every point is valid, both scripts write one line to the
    output, nothing to the error stream, and exit with code [0].  The line
    is the singular form with the perimeter when [render] returns one
    perimeter, which is exactly when the cells form one 4-connected set,
    and otherwise the plural form with the number of perimeters and the
    perimeters in the order of [render], separated by commas. *)
Theorem main_prints_perimeters (node script : jsstring)
    (points : list jsstring) (cs : list cell) :
  points ≠ [] →
  Forall2 (λ s c, JS.parsePoint (JS.VString s) = Ok c) points cs →
  ∃ perims,
    JS.render (JS.VString <$> points) = Ok perims
    ∧ perims ≠ []
    ∧ main_js (node :: script :: points)
      = Ok {| stdout := [match perims with
                         | [p] => one_parcel p
                         | _ => many_parcels perims
                         end];
              stderr := []; exitCode := 0 |}
    ∧ main_ts (node :: script :: points)
      = Ok {| stdout := [match perims with
                         | [p] => one_parcel p
                         | _ => many_parcels perims
                         end];
              stderr := []; exitCode := 0 |}
    ∧ (length perims = 1%nat
       ↔ ∃ c, is_component (list_to_set cs) c (list_to_set cs)).
Proof.
  intros Hne Hall%valid_strings_values. rewrite main_ts_js.
  destruct (render_parcels _ _ Hall) as (found & Hr & _).
  exists (perimeters_of (list_to_set cs) found).
  assert (perimeters_of (list_to_set cs) found ≠ []) as Hperims.
  { apply (render_nonempty _ cs _ Hall Hr). by destruct points. }
  split; [done|]. split; [done|].
  assert (main_js (node :: script :: points)
          = Ok {| stdout := [match perimeters_of (list_to_set cs) found with
                             | [p] => one_parcel p
                             | _ => many_parcels (perimeters_of (list_to_set cs) found)
                             end];
                  stderr := []; exitCode := 0 |}) as Hmain.
  { apply main_js_Ok; [simpl; destruct points; [done|simpl; lia]|exact Hr|done]. }
  split; [exact Hmain|]. split; [exact Hmain|].
  by apply (render_one_iff _ cs _ Hall).
Qed.

Lemma main_prints_perimeters_witness :
  js <$> ["1,1"; "3,3"; "1,2"]%string ≠ []
  ∧ Forall2 (λ s c, JS.parsePoint (JS.VString s) = Ok c)
      (js <$> ["1,1"; "3,3"; "1,2"]%string) [(1, 1); (3, 3); (1, 2)]
  ∧ ∃ perims,
      JS.render (JS.VString <$> (js <$> ["1,1"; "3,3"; "1,2"]%string)) = Ok perims
      ∧ perims ≠ []
      ∧ main_js (js "node" :: js "main.js" :: (js <$> ["1,1"; "3,3"; "1,2"]%string))
        = Ok {| stdout := [match perims with
                           | [p] => one_parcel p
                           | _ => many_parcels perims
                           end];
                stderr := []; exitCode := 0 |}
      ∧ main_ts (js "node" :: js "main.js" :: (js <$> ["1,1"; "3,3"; "1,2"]%string))
        = Ok {| stdout := [match perims with
                           | [p] => one_parcel p
                           | _ => many_parcels perims
                           end];
                stderr := []; exitCode := 0 |}
      ∧ (length perims = 1%nat
         ↔ ∃ c, is_component (list_to_set [(1, 1); (3, 3); (1, 2)])
                  c (list_to_set [(1, 1); (3, 3); (1, 2)])).
Proof.
  assert (js <$> ["1,1"; "3,3"; "1,2"]%string ≠ []) as H1 by done.
  assert (Forall2 (λ s c, JS.parsePoint (JS.VString s) = Ok c)
            (js <$> ["1,1"; "3,3"; "1,2"]%string) [(1, 1); (3, 3); (1, 2)]) as H2.
  { repeat constructor. }
  split; [exact H1|]. split; [exact H2|].
  exact (main_prints_perimeters (js "node") (js "main.js") _ _ H1 H2).
Defined.

(** X11.  The line [There are no parcels defined] is never written: the
    branch of the scripts that prints it cannot be reached, since a run
    that gets as far as [render] has at least one point, and at least one
    valid point gives at least one parcel. *)
Theorem no_parcels_line_unreachable (argv : list jsstring) :
  ∃ pr,
    main_js argv = Ok pr ∧ main_ts argv = Ok pr
    ∧ (NO_PARCELS ∉ stdout pr) ∧ (NO_PARCELS ∉ stderr pr).
Proof.
  rewrite main_ts_js.
  destruct (main_cases argv)
    as [[_ ->]|[(_ & perims & Hne & _ & ->)|(_ & message & Hm & ->)]];
    eexists; (split; [done|]); (split; [done|]); simpl.
  - split; [apply not_elem_of_nil|]. by intros [=]%list_elem_of_singleton.
  - split; [|apply not_elem_of_nil]. intros Hin%list_elem_of_singleton.
    destruct perims as [|p [|q perims]]; [done| |].
    + by apply (one_parcel_not_none p).
    + by apply (many_parcels_not_none (p :: q :: perims)).
  - split; [apply not_elem_of_nil|]. intros Hin%list_elem_of_singleton.
    by destruct Hm as [->| ->].
Qed.

(** * Supporting lemmas: the parcels found are determined by the cells *)

Lemma found_starts (O : gset cell) (f1 f2 : list (cell * gset cell)) (c : cell) :
  Forall (λ sc, is_component O sc.1 sc.2 ∧ least sc.2 sc.1) f1 →
  Forall (λ sc, is_component O sc.1 sc.2 ∧ least sc.2 sc.1) f2 →
  (∀ c, c ∈ O → c ∈ ⋃ (f2.*2)) →
  c ∈ f1.*1 → c ∈ f2.*1.
Proof.
  intros H1 H2 Hcov Hc.
  apply list_elem_of_fmap in Hc as ([c1 C1] & -> & Hin1). simpl.
  apply (proj1 (Forall_forall _ _) H1) in Hin1 as [HC1 Hl1]. simpl in HC1, Hl1.
  assert (c1 ∈ O) as HcO by apply HC1.
  apply Hcov, elem_of_union_list in HcO as (C2 & HC2in & HcC2).
  apply list_elem_of_fmap in HC2in as ([c2 C2'] & -> & Hin2). simpl in HcC2.
  pose proof Hin2 as Hin2'.
  apply (proj1 (Forall_forall _ _) H2) in Hin2 as [HC2 Hl2]. simpl in HC2, Hl2.
  pose proof (component_of_member _ _ _ _ HC2 HcC2) as HC2'.
  pose proof (component_unique _ _ _ _ HC1 HC2') as ->.
  rewrite (least_unique _ _ _ Hl1 Hl2).
  apply list_elem_of_fmap. by exists (c2, C2').
Qed.

Lemma found_by_starts (O : gset cell) (f1 f2 : list (cell * gset cell)) :
  Forall (λ sc, is_component O sc.1 sc.2) f1 →
  Forall (λ sc, is_component O sc.1 sc.2) f2 →
  f1.*1 = f2.*1 → f1 = f2.
Proof.
  revert f2. induction f1 as [|[c1 C1] f1 IH]; intros [|[c2 C2] f2] H1 H2 Heq;
    try done.
  apply Forall_cons in H1 as [HC1 H1]. apply Forall_cons in H2 as [HC2 H2].
  simpl in *. injection Heq as -> Heq.
  rewrite (component_unique _ _ _ _ HC1 HC2). f_equal. by apply IH.
Qed.

(** The list of parcels in scan order is unique. *)
Lemma found_unique (O : gset cell) (f1 f2 : list (cell * gset cell)) :
  Forall (λ sc, is_component O sc.1 sc.2 ∧ least sc.2 sc.1) f1 →
  StronglySorted lex_lt f1.*1 →
  (∀ c, c ∈ O → c ∈ ⋃ (f1.*2)) →
  Forall (λ sc, is_component O sc.1 sc.2 ∧ least sc.2 sc.1) f2 →
  StronglySorted lex_lt f2.*1 →
  (∀ c, c ∈ O → c ∈ ⋃ (f2.*2)) →
  f1 = f2.
Proof.
  intros H1 Hs1 Hc1 H2 Hs2 Hc2.
  apply (found_by_starts O).
  - eapply Forall_impl; [exact H1|]. by intros sc [? _].
  - eapply Forall_impl; [exact H2|]. by intros sc [? _].
  - apply (StronglySorted_unique_strong lex_lt); [|done|done|].
    + intros a b _ _ Hab Hba. exfalso.
      by apply (lex_lt_irrefl a), (lex_lt_trans a b a).
    + apply NoDup_Permutation; [by apply sorted_starts_NoDup..|].
      intros c. split; by apply (found_starts O).
Qed.

(** ** Translation *)

Lemma shift_shift (dx dy : Z) (c : cell) : shift (- dx) (- dy) (shift dx dy c) = c.
Proof. destruct c. unfold shift. simpl. f_equal; lia. Qed.

Lemma shift_unshift (dx dy : Z) (c : cell) : shift dx dy (shift (- dx) (- dy) c) = c.
Proof. destruct c. unfold shift. simpl. f_equal; lia. Qed.

Lemma shift_inj (dx dy : Z) (a b : cell) : shift dx dy a = shift dx dy b → a = b.
Proof. intros H. by rewrite <- (shift_shift dx dy a), H, shift_shift. Qed.

Lemma adjacent_shift (dx dy : Z) (a b : cell) :
  adjacent a b → adjacent (shift dx dy a) (shift dx dy b).
Proof.
  destruct a as [ax ay], b as [bx b_y]. unfold adjacent, neighbours, shift. simpl.
  rewrite !elem_of_cons, !elem_of_nil.
  intros [H|[H|[H|[H|[]]]]]; injection H as -> ->;
    [left|right; left|do 2 right; left|do 3 right; left]; f_equal; lia.
Qed.

Lemma lex_lt_shift (dx dy : Z) (a b : cell) :
  lex_lt a b → lex_lt (shift dx dy a) (shift dx dy b).
Proof. unfold lex_lt, shift. simpl. lia. Qed.

Section translation.
Context (dx dy : Z) (O O' : gset cell).
Context (HO : ∀ c, shift dx dy c ∈ O' ↔ c ∈ O).

Lemma elem_of_shifted (c : cell) : c ∈ O' ↔ shift (- dx) (- dy) c ∈ O.
Proof. by rewrite <- HO, shift_unshift. Qed.

Lemma elem_of_shift_set (C : gset cell) (b : cell) :
  b ∈ (set_map (shift dx dy) C : gset cell) ↔ shift (- dx) (- dy) b ∈ C.
Proof.
  rewrite elem_of_map. split.
  - intros (a & -> & Ha). by rewrite shift_shift.
  - intros Hb. exists (shift (- dx) (- dy) b). by rewrite shift_unshift.
Qed.

Lemma connected_shift (a b : cell) :
  connected O a b → connected O' (shift dx dy a) (shift dx dy b).
Proof.
  intros [Ha Hrtc]. split; [by apply HO|].
  induction Hrtc as [|x y z [Hadj Hy] _ IH]; [done|].
  eapply rtc_l; [|apply IH; exact Hy].
  split; [by apply adjacent_shift|by apply HO].
Qed.

Lemma connected_unshift (a b : cell) :
  connected O' a b → connected O (shift (- dx) (- dy) a) (shift (- dx) (- dy) b).
Proof.
  intros [Ha Hrtc]. split; [by apply elem_of_shifted|].
  induction Hrtc as [|x y z [Hadj Hy] _ IH]; [done|].
  eapply rtc_l; [|apply IH; exact Hy].
  split; [by apply adjacent_shift|by apply elem_of_shifted].
Qed.

Lemma component_shift (c : cell) (C : gset cell) :
  is_component O c C → is_component O' (shift dx dy c) (set_map (shift dx dy) C).
Proof.
  intros [Hc HC]. split; [by apply HO|].
  intros b. rewrite elem_of_shift_set, HC. split.
  - intros H%connected_shift. by rewrite shift_unshift in H.
  - intros H%connected_unshift. by rewrite shift_shift in H.
Qed.

Lemma least_shift (c : cell) (C : gset cell) :
  least C c → least (set_map (shift dx dy) C) (shift dx dy c).
Proof.
  intros [Hc Hl]. split; [by apply elem_of_map_2|].
  intros b (a & -> & Ha)%elem_of_map.
  destruct (Hl a Ha) as [->|Hlt]; [by left|right; by apply lex_lt_shift].
Qed.

Lemma open_edge_shift (n : cell) : open_edge O' (shift dx dy n) = open_edge O n.
Proof. unfold open_edge. apply decide_ext, HO. Qed.

Lemma open_edges_shift (c : cell) : open_edges O' (shift dx dy c) = open_edges O c.
Proof.
  rewrite !open_edges_sum. rewrite <- !open_edge_shift.
  destruct c as [x y]. unfold shift. simpl.
  repeat (f_equal; try lia).
Qed.

Lemma perimeter_shift (C : gset cell) :
  perimeter O' (set_map (shift dx dy) C) = perimeter O C.
Proof.
  induction C as [|p C Hp IH] using set_ind_L.
  - by rewrite set_map_empty, !perimeter_empty.
  - rewrite set_map_union_L, set_map_singleton_L.
    rewrite !perimeter_add; [|done|].
    + by rewrite open_edges_shift, IH.
    + rewrite elem_of_shift_set, shift_shift. done.
Qed.

Lemma found_shift (found : list (cell * gset cell)) :
  Forall (λ sc, is_component O sc.1 sc.2 ∧ least sc.2 sc.1) found →
  StronglySorted lex_lt found.*1 →
  (∀ c, c ∈ O → c ∈ ⋃ (found.*2)) →
  Forall (λ sc, is_component O' sc.1 sc.2 ∧ least sc.2 sc.1) (shift_found dx dy found)
  ∧ StronglySorted lex_lt (shift_found dx dy found).*1
  ∧ (∀ c, c ∈ O' → c ∈ ⋃ ((shift_found dx dy found).*2))
  ∧ perimeters_of O' (shift_found dx dy found) = perimeters_of O found.
Proof.
  intros Hcomps Hsorted Hcov. split_and!.
  - unfold shift_found. apply Forall_fmap.
    eapply Forall_impl; [exact Hcomps|]. intros [c C] [HC Hl]. simpl in *.
    split; [by apply component_shift|by apply least_shift].
  - unfold shift_found. rewrite <- list_fmap_compose.
    replace (fmap (fst ∘ _) found) with (shift dx dy <$> found.*1)
      by (rewrite <- list_fmap_compose; by apply list_fmap_ext).
    apply (StronglySorted_fmap _ lex_lt lex_lt); [|done].
    intros a b. apply lex_lt_shift.
  - intros c Hc%elem_of_shifted. apply Hcov, elem_of_union_list in Hc as (C & HCin & HcC).
    apply elem_of_union_list. exists (set_map (shift dx dy) C). split.
    + apply list_elem_of_fmap in HCin as ([c0 C0] & -> & Hin).
      apply list_elem_of_fmap. exists (shift dx dy c0, set_map (shift dx dy) C0).
      split; [done|]. unfold shift_found. apply list_elem_of_fmap. by exists (c0, C0).
    + by apply elem_of_shift_set.
  - unfold perimeters_of, shift_found. rewrite <- list_fmap_compose.
    apply list_fmap_ext. intros i [c C] _. simpl. by rewrite perimeter_shift.
Qed.

End translation.

(** [render] is invariant under a translation of the cells. *)
Lemma render_shift (dx dy : Z) (points points' : list JS.value) (cs cs' : list cell) :
  Forall2 (λ p c, JS.parsePoint p = Ok c) points cs →
  Forall2 (λ p c, JS.parsePoint p = Ok c) points' cs' →
  (∀ c, c ∈ cs' ↔ ∃ c0, c0 ∈ cs ∧ c = shift dx dy c0) →
  JS.render points' = JS.render points.
Proof.
  intros Hall Hall' Hsh.
  destruct (render_parcels _ _ Hall) as (found & -> & Hcomps & Hsorted & Hcov).
  destruct (render_parcels _ _ Hall') as (found' & -> & Hcomps' & Hsorted' & Hcov').
  assert (∀ c, shift dx dy c ∈ (list_to_set cs' : gset cell)
               ↔ c ∈ (list_to_set cs : gset cell)) as HO.
  { intros c. rewrite !elem_of_list_to_set, Hsh. split.
    - intros (c0 & Hc0 & Heq). by apply shift_inj in Heq as <-.
    - intros Hc. by exists c. }
  destruct (found_shift dx dy _ _ HO found) as (Hc2 & Hs2 & Hcov2 & Hper).
  { done. } { done. } { intros c Hc. apply Hcov. by apply elem_of_list_to_set in Hc. }
  rewrite <- Hper. f_equal. f_equal.
  apply (found_unique (list_to_set cs')); try done.
  intros c Hc. apply Hcov'. by apply elem_of_list_to_set in Hc.
Qed.
(** X12.  The perimeters do not depend on where the cells lie: when every
    coordinate is moved by the same offset, and the moved points are still
    valid, [render] and [computeParcelPerimeters] return the same
    perimeters in the same order, although the grid they build has
    another size. *)
Theorem render_translation_invariant (dx dy : Z)
    (strs strs' : list jsstring) (cs : list cell) :
  Forall2 (λ s c, JS.parsePoint (JS.VString s) = Ok c) strs cs →
  Forall2 (λ s c, JS.parsePoint (JS.VString s) = Ok c) strs' (shift dx dy <$> cs) →
  JS.render (JS.VString <$> strs') = JS.render (JS.VString <$> strs)
  ∧ TS.computeParcelPerimeters strs' = TS.computeParcelPerimeters strs.
Proof.
  intros Hall%valid_strings_values Hall'%valid_strings_values.
  rewrite !ts_js_equiv.
  cut (JS.render (JS.VString <$> strs') = JS.render (JS.VString <$> strs)).
  { intros ->. done. }
  apply (render_shift dx dy _ _ cs (shift dx dy <$> cs)); [done|done|].
  intros c. rewrite list_elem_of_fmap. split.
  - intros (c0 & -> & Hc0). by exists c0.
  - intros (c0 & Hc0 & ->). by exists c0.
Qed.

Lemma render_translation_invariant_witness :
  Forall2 (λ s c, JS.parsePoint (JS.VString s) = Ok c)
    (js <$> ["1,1"; "1,2"; "4,0"]%string) [(1, 1); (1, 2); (4, 0)]
  ∧ Forall2 (λ s c, JS.parsePoint (JS.VString s) = Ok c)
      (js <$> ["0,4"; "0,5"; "3,3"]%string) (shift (-1) 3 <$> [(1, 1); (1, 2); (4, 0)])
  ∧ JS.render (JS.VString <$> (js <$> ["0,4"; "0,5"; "3,3"]%string))
    = JS.render (JS.VString <$> (js <$> ["1,1"; "1,2"; "4,0"]%string))
  ∧ TS.computeParcelPerimeters (js <$> ["0,4"; "0,5"; "3,3"]%string)
    = TS.computeParcelPerimeters (js <$> ["1,1"; "1,2"; "4,0"]%string).
Proof.
  assert (Forall2 (λ s c, JS.parsePoint (JS.VString s) = Ok c)
    (js <$> ["1,1"; "1,2"; "4,0"]%string) [(1, 1); (1, 2); (4, 0)]) as H1.
  { repeat constructor. }
  assert (Forall2 (λ s c, JS.parsePoint (JS.VString s) = Ok c)
    (js <$> ["0,4"; "0,5"; "3,3"]%string) (shift (-1) 3 <$> [(1, 1); (1, 2); (4, 0)])) as H2.
  { repeat constructor. }
  split; [exact H1|]. split; [exact H2|].
  exact (render_translation_invariant (-1) 3 _ _ _ H1 H2).
Defined.

(** ** The perimeters add up *)

Lemma perimeter_union (O C1 C2 : gset cell) :
  C1 ## C2 → perimeter O (C1 ∪ C2) = (perimeter O C1 + perimeter O C2)%nat.
Proof.
  induction C1 as [|p C1 Hp IH] using set_ind_L; intros Hdisj.
  - by rewrite (left_id_L ∅ (∪)), perimeter_empty.
  - rewrite <- (assoc_L (∪)). rewrite !perimeter_add; [|done|].
    + rewrite IH; [lia|]. clear -Hdisj. set_solver.
    + clear -Hdisj Hp. set_solver.
Qed.

Lemma components_disjoint (O : gset cell) (c1 c2 : cell) (C1 C2 : gset cell) :
  is_component O c1 C1 → is_component O c2 C2 → C1 ≠ C2 → C1 ## C2.
Proof.
  intros H1 H2 Hne. apply elem_of_disjoint. intros b Hb1 Hb2. apply Hne.
  apply (component_unique O b); by eapply component_of_member.
Qed.

Lemma perimeter_union_list (O : gset cell) (found : list (cell * gset cell)) :
  Forall (λ sc, is_component O sc.1 sc.2) found →
  NoDup found.*2 →
  Z.of_nat (perimeter O (⋃ (found.*2))) = foldr Z.add 0 (perimeters_of O found).
Proof.
  induction found as [|[c C] found IH]; intros Hcomps Hnd.
  - simpl. by rewrite perimeter_empty.
  - apply Forall_cons in Hcomps as [HC Hcomps]. rewrite fmap_cons in Hnd.
    apply NoDup_cons in Hnd as [HnC Hnd]. simpl in HC, HnC.
    change (⋃ ((c, C) :: found).*2) with (C ∪ ⋃ (found.*2)).
    rewrite perimeter_union.
    + unfold perimeters_of in *. rewrite fmap_cons. simpl.
      rewrite <- IH by done. lia.
    + apply elem_of_disjoint. intros b HbC Hb.
      apply elem_of_union_list in Hb as (C' & HC'in & HbC').
      assert (C ≠ C') as Hne by (by intros ->).
      apply list_elem_of_fmap in HC'in as ([c' C''] & -> & Hin).
      apply (proj1 (Forall_forall _ _) Hcomps) in Hin. simpl in *.
      by apply (proj1 (elem_of_disjoint _ _)
                  (components_disjoint O c c' C C'' HC Hin Hne) b).
Qed.

Lemma found_union (O : gset cell) (found : list (cell * gset cell)) :
  Forall (λ sc, is_component O sc.1 sc.2) found →
  (∀ c, c ∈ O → c ∈ ⋃ (found.*2)) →
  ⋃ (found.*2) = O.
Proof.
  intros Hcomps Hcov. apply set_eq. intros b. split; [|apply Hcov].
  intros (C & HCin & Hb)%elem_of_union_list.
  apply list_elem_of_fmap in HCin as ([c C'] & -> & Hin).
  apply (proj1 (Forall_forall _ _) Hcomps) in Hin. simpl in *.
  by apply (component_sub O c C').
Qed.

(** X13.  The coordinates that [parsePoints] accepts are exactly the pairs
    of integers between [0] and [MAX_VALUE]: every string that is accepted
    denotes such a pair, and every such pair is denoted by some string
    that is accepted. *)
Theorem accepted_coordinates (c : cell) :
  (∃ s, JS.parsePoint (JS.VString s) = Ok c) ↔ inb MAX_VALUE MAX_VALUE c.
Proof.
  split.
  - intros (s & Hs).
    apply parsePoint_Ok_inv in Hs as (_ & _ & _ & _ & _ & _ & Hx & Hy).
    by split.
  - intros Hc. exists (cell_string c). by apply cell_string_parses.
Qed.

(** X14.  On valid input the perimeters returned add up to the number of
    cell edges of the input that face an unoccupied cell or the outside:
    every such edge is counted for exactly one parcel. *)
Theorem perimeters_total (strs : list jsstring) (cs : list cell) :
  Forall2 (λ s c, JS.parsePoint (JS.VString s) = Ok c) strs cs →
  ∃ perims,
    JS.render (JS.VString <$> strs) = Ok perims
    ∧ TS.computeParcelPerimeters strs = Ok perims
    ∧ foldr Z.add 0 perims
      = Z.of_nat (perimeter (list_to_set cs) (list_to_set cs)).
Proof.
  intros Hall%valid_strings_values.
  destruct (render_parcels _ _ Hall) as (found & Hrender & Hcomps & Hsorted & Hcov).
  exists (perimeters_of (list_to_set cs) found). rewrite ts_js_equiv.
  split; [done|]. split; [done|].
  assert (∀ c, c ∈ (list_to_set cs : gset cell) → c ∈ ⋃ (found.*2)) as Hcov'.
  { intros c Hc. apply Hcov. by apply elem_of_list_to_set in Hc. }
  destruct (found_all_parcels _ found Hcomps Hsorted Hcov') as [Hnd _].
  assert (Forall (λ sc, is_component (list_to_set cs) sc.1 sc.2) found) as Hcomps'.
  { eapply Forall_impl; [exact Hcomps|]. by intros sc [? _]. }
  rewrite <- (perimeter_union_list _ found Hcomps' Hnd).
  by rewrite (found_union _ found Hcomps' Hcov').
Qed.

Lemma perimeters_total_witness :
  Forall2 (λ s c, JS.parsePoint (JS.VString s) = Ok c)
    (js <$> ["0,0"; "0,1"; "5,5"; "0,1"]%string) [(0, 0); (0, 1); (5, 5); (0, 1)]
  ∧ ∃ perims,
      JS.render (JS.VString <$> (js <$> ["0,0"; "0,1"; "5,5"; "0,1"]%string)) = Ok perims
      ∧ TS.computeParcelPerimeters (js <$> ["0,0"; "0,1"; "5,5"; "0,1"]%string) = Ok perims
      ∧ foldr Z.add 0 perims
        = Z.of_nat (perimeter (list_to_set [(0, 0); (0, 1); (5, 5); (0, 1)])
                      (list_to_set [(0, 0); (0, 1); (5, 5); (0, 1)])).
Proof.
  assert (Forall2 (λ s c, JS.parsePoint (JS.VString s) = Ok c)
    (js <$> ["0,0"; "0,1"; "5,5"; "0,1"]%string) [(0, 0); (0, 1); (5, 5); (0, 1)]) as H.
  { repeat constructor. }
  split; [exact H|]. exact (perimeters_total _ _ H).
Defined.
